(** * Local cache with key linkage: shallow embedding and verification

    The development follows the Go packages
    - [pkg/localcache/link]  (sharded key-linkage graph),
    - [pkg/localcache/lru]   (the active-expiry shard LRU, [ExpirationLRU],
      over the expirable LRU it is built on; the lazy-expiry shard LRU,
      the default of the coordinator, over a plain LRU),
    - [pkg/localcache]       (the cache coordinator, in both eviction
      modes).

    The model is sequential: one operation runs at a time, and the
    mutexes are left out.  State is passed explicitly.  Closures that the
    caller supplies (fetchers, the counters of the target, the pre-delete
    hooks) act on a caller state [W]; the eviction callback and the fetch
    wrapper of the coordinator act on the fields of the cache they reach.

    Go maps from strings are [gmap string _], Go sets
    ([map[string]struct{}]) are [gset string], slices are lists and
    [uint64] values are [Z] with the wrap-around written out. *)

From stdpp Require Import gmap strings list fin_maps.
From Stdlib Require Import ZArith Lia.

#[local] Set Warnings "-clear-no-such-hyp".

Local Open Scope Z_scope.

(** ** Iteration order of a Go map

    [for k := range m] visits every key of [m] exactly once, in an order
    the language leaves unspecified.  The order is a parameter of the
    model: every operation that ranges over a set takes a [RangeOrder]. *)

Record RangeOrder := {
  range_keys :> gset string → list string;
  range_keys_perm : ∀ s, range_keys s ≡ₚ elements s
}.

(** The order used to evaluate the model on concrete inputs. *)
Definition elements_order : RangeOrder :=
  {| range_keys := elements; range_keys_perm := λ s, reflexivity (elements s) |}.

(** Ranging over a possibly nil map: a nil map has no keys. *)
Definition range_opt (ro : RangeOrder) (m : option (gset string)) : list string :=
  match m with
  | Some s => ro s
  | None => []
  end.

(** ** hash/fnv: 64-bit FNV-1a *)

Module Fnv.

Definition offset64 : Z := 14695981039346656037.
Definition prime64 : Z := 1099511628211.

Definition byte_of (a : Ascii.ascii) : Z := Z.of_N (Ascii.N_of_ascii a).

Definition wrap64 (z : Z) : Z := z mod 2 ^ 64.

(** [h.Write(bytes)]: xor the byte in, then multiply by the prime. *)
Fixpoint write (h : Z) (s : string) : Z :=
  match s with
  | EmptyString => h
  | String a s' => write (wrap64 (Z.lxor h (byte_of a) * prime64)) s'
  end.

(** [fnv.New64a(); h.Write([]byte(s)); h.Sum64()] *)
Definition sum64a (s : string) : Z := write offset64 s.

End Fnv.

(** ** Package link *)

Module Link.

(** [linkKey.data]; the mutex has no sequential content. *)
Abbreviation linkKey := (gmap string (gset string)).

Definition newLinkKey : linkKey := ∅.

(** [linkKey.link] *)
Definition linkKey_link (x : linkKey) (key : string) (link : list string) : linkKey :=
  let v := match x !! key with
           | Some v => v
           | None => ∅
           end in
  <[key := foldl (λ v k, {[k]} ∪ v) v link]> x.

(** [linkKey.del]: the first component is the returned map
    ([None] is Go's nil map). *)
Definition linkKey_del (x : linkKey) (key : string) : option (gset string) * linkKey :=
  match x !! key with
  | None => (None, x)
  | Some ks => (Some ks, delete key x)
  end.

Record slot := { n : Z; slots : list linkKey }.

(** [New]: [None] is the panic on a slot count that is not positive. *)
Definition New (num : Z) : option slot :=
  if num <=? 0 then None
  else Some {| n := num; slots := replicate (Z.to_nat num) newLinkKey |}.

(** [slot.index] *)
Definition index (x : slot) (s : string) : nat :=
  Z.to_nat (Fnv.sum64a s mod n x).

(** [x.slots[x.index(key)].link(key, link...)] *)
Definition link_at (x : slot) (key : string) (link : list string) : slot :=
  {| n := n x;
     slots := alter (λ lk, linkKey_link lk key link) (index x key) (slots x) |}.

(** [x.slots[x.index(key)].del(key)] *)
Definition del_at (x : slot) (key : string) : option (gset string) * slot :=
  match slots x !! index x key with
  | None => (None, x)
  | Some lk =>
      let '(ks, lk') := linkKey_del lk key in
      (ks, {| n := n x; slots := <[index x key := lk']> (slots x) |})
  end.

(** [slot.Link] *)
Definition Link (x : slot) (key : string) (link : list string) : slot :=
  match link with
  | [] => x
  | _ => foldl (λ x lk, link_at x lk [key]) (link_at x key link) link
  end.

(** The loop of [slot.delKey].  The Go stack is a slice whose top is its
    last element; here the top is the head of the list.  The third
    component of the result is the stack left when the fuel runs out. *)
Fixpoint delKey_loop (ro : RangeOrder) (fuel : nat) (x : slot)
    (del : gset string) (stack : list string) : gset string * slot * list string :=
  match stack, fuel with
  | [], _ => (del, x, [])
  | _, O => (del, x, stack)
  | curr :: stack, S fuel =>
      if decide (curr ∈ del) then delKey_loop ro fuel x del stack
      else
        let del := {[curr]} ∪ del in
        let '(childKeys, x) := del_at x curr in
        delKey_loop ro fuel x del (reverse (range_opt ro childKeys) ++ stack)
  end.

(** Number of stored neighbours over all shards: every iteration of
    the loop of [delKey] lowers [length stack + weight x]. *)
Definition linkKey_weight (lk : linkKey) : nat :=
  sum_list_with (λ kv, size kv.2) (map_to_list lk).

Definition weight (x : slot) : nat := sum_list_with linkKey_weight (slots x).

(** [slot.delKey] *)
Definition delKey (ro : RangeOrder) (x : slot) (k : string) : gset string * slot :=
  (delKey_loop ro (S (weight x)) x ∅ [k]).1.

(** [slot.Del] *)
Definition Del (ro : RangeOrder) (x : slot) (key : string) : gset string * slot :=
  delKey ro x key.

(** The adjacency entry of [k], read in the shard that holds [k]. *)
Definition lookup (x : slot) (k : string) : option (gset string) :=
  slots x !! index x k ≫= (.!! k).

(** [adj(k)], empty when [k] has no entry. *)
Definition adj (x : slot) (k : string) : gset string :=
  default ∅ (lookup x k).

(** A slot as [New] builds it. *)
Definition wf (x : slot) : Prop :=
  0 < n x ∧ length (slots x) = Z.to_nat (n x).

(** An edge of the graph: [b] is stored in the adjacency entry of [a]. *)
Definition edge (x : slot) (a b : string) : Prop := b ∈ adj x a.

(** The symmetry invariant of the adjacency mapping. *)
Definition symmetric (x : slot) : Prop := ∀ a b, b ∈ adj x a ↔ a ∈ adj x b.

(** Every adjacency entry sits in the shard that [index] gives its
    key. *)
Definition placed (x : slot) : Prop :=
  ∀ i (lk : linkKey) k, slots x !! i = Some lk → is_Some (lk !! k) → index x k = i.

(** The operations of the [Link] interface, as a client issues them;
    every [Del] ranges over its maps in an order of its own. *)
Inductive op :=
| OpLink (key : string) (link : list string)
| OpDel (ro : RangeOrder) (key : string).

Definition run_op (x : slot) (o : op) : slot :=
  match o with
  | OpLink key link => Link x key link
  | OpDel ro key => (Del ro x key).2
  end.

Definition run (x : slot) (ops : list op) : slot := foldl run_op x ops.

End Link.

(** ** Package lru *)

(** A Go [error] value, identified by its message; [None] is [nil]. *)
Definition error : Type := string.

(** *** The expirable LRU the shard LRU is built on *)

Module Expirable.
Section core.
Context {P S : Type}.

(** Modelled from the spec: the LRU with an eviction-with-TTL primitive
    behind the active-expiry shard LRU ([expirable.LRU], a dependency
    that is not part of the sources).  It keeps its entries in recency
    order, most recent first; every entry has a deadline; an entry
    whose deadline has passed is removed at read time; an insert that
    would exceed the capacity removes the least recent entry; the
    eviction callback runs on these removals (capacity-driven or
    TTL-driven), and not on an explicit delete.  [S] is the state
    the callback acts on, [P] the type of the stored values. *)
Record entry := { ekey : string; evalue : P; expiresAt : Z }.

(** Modelled from the spec: the eviction callback of the expirable
    LRU, called with the key and the value of the removed entry. *)
Definition EvictCallback : Type := string → P → S → S.

(** Modelled from the spec: the state of the expirable LRU: its
    capacity, the TTL of its entries, its eviction callback and its
    entries, most recent first. *)
Record LRU := {
  size : Z;
  ttl : Z;
  onEvict : option EvictCallback;
  evictList : list entry
}.

(** Modelled from the spec: [expirable.NewLRU], the empty LRU. *)
Definition NewLRU (size : Z) (cb : option EvictCallback) (ttl : Z) : LRU :=
  {| size := size; ttl := ttl; onEvict := cb; evictList := [] |}.

(** The LRU [c] with the entries [l]. *)
Definition with_list (c : LRU) (l : list entry) : LRU :=
  {| size := size c; ttl := ttl c; onEvict := onEvict c; evictList := l |}.

(** The entry of [key], and the entries without it. *)
Definition find (l : list entry) (key : string) : option entry :=
  head (filter (λ e, ekey e = key) l).

Definition remove (l : list entry) (key : string) : list entry :=
  filter (λ e, ekey e ≠ key) l.

(** Modelled from the spec: the eviction callback, when there is one,
    runs on an entry removed for capacity or for its deadline. *)
Definition fire (c : LRU) (e : entry) (s : S) : S :=
  match onEvict c with
  | Some cb => cb (ekey e) (evalue e) s
  | None => s
  end.

(** Modelled from the spec: [Get] of the expirable LRU at instant
    [now]; a hit moves the entry to the most-recent end, an entry past
    its deadline is removed and reported to the callback. *)
Definition Get (c : LRU) (now : Z) (key : string) (s : S) : option P * LRU * S :=
  match find (evictList c) key with
  | None => (None, c, s)
  | Some e =>
      if expiresAt e <? now
      then (None, with_list c (remove (evictList c) key), fire c e s)
      else (Some (evalue e), with_list c (e :: remove (evictList c) key), s)
  end.

(** Modelled from the spec: [Add] of the expirable LRU at instant
    [now]; a present key is refreshed, a new key is inserted at the
    most-recent end and the least recent entry is evicted when the
    capacity is exceeded. *)
Definition Add (c : LRU) (now : Z) (key : string) (v : P) (s : S) : LRU * S :=
  let e := {| ekey := key; evalue := v; expiresAt := now + ttl c |} in
  match find (evictList c) key with
  | Some _ => (with_list c (e :: remove (evictList c) key), s)
  | None =>
      let l := e :: evictList c in
      if size c <? Z.of_nat (length l) then
        match reverse l with
        | old :: r => (with_list c (reverse r), fire c old s)
        | [] => (with_list c l, s)
        end
      else (with_list c l, s)
  end.

(** Modelled from the spec: [Remove] of the expirable LRU, the
    explicit delete: it removes the slot and reports whether there
    was one; the eviction callback is not called. *)
Definition Remove (c : LRU) (key : string) : bool * LRU :=
  match find (evictList c) key with
  | Some _ => (true, with_list c (remove (evictList c) key))
  | None => (false, c)
  end.

(** Modelled from the spec: [Contains] of the expirable LRU: whether
    the key has an entry; the recency order is not touched. *)
Definition Contains (c : LRU) (key : string) : bool :=
  bool_decide (is_Some (find (evictList c) key)).

(** Two cores with the same capacity, TTL and callback: the
    operations change the entries only. *)
Definition same_config (c c' : LRU) : Prop :=
  size c' = size c ∧ ttl c' = ttl c ∧ onEvict c' = onEvict c.

(** The capacity is positive and respected, and no key has two
    entries. *)
Definition bounded (c : LRU) : Prop :=
  1 ≤ size c ∧ Z.of_nat (length (evictList c)) ≤ size c ∧
  NoDup (ekey <$> evictList c).

End core.
Arguments entry : clear implicits.
Arguments LRU : clear implicits.
Arguments EvictCallback : clear implicits.
End Expirable.

(** *** The plain LRU the lazy-expiry shard LRU is built on *)

Module Plain.
Section core.
Context {P S : Type}.

(** Modelled from the spec: the plain LRU without background expiry
    behind the lazy-expiry shard LRU (a dependency that is not part of
    the sources).  It keeps its entries in recency order, most recent
    first; a read moves the entry to the most-recent end; an insert
    that would exceed the capacity removes the least recent entry and
    runs the eviction callback on it; no other removal runs the
    callback. *)
Record entry := { ekey : string; evalue : P }.

(** Modelled from the spec: the eviction callback of the plain LRU. *)
Definition EvictCallback : Type := string → P → S → S.

(** Modelled from the spec: the state of the plain LRU: its capacity,
    its eviction callback and its entries, most recent first. *)
Record LRU := {
  size : Z;
  onEvict : option EvictCallback;
  evictList : list entry
}.

(** Modelled from the spec: the empty plain LRU. *)
Definition NewLRU (size : Z) (cb : option EvictCallback) : LRU :=
  {| size := size; onEvict := cb; evictList := [] |}.

Definition with_list (c : LRU) (l : list entry) : LRU :=
  {| size := size c; onEvict := onEvict c; evictList := l |}.

Definition find (l : list entry) (key : string) : option entry :=
  head (filter (λ e, ekey e = key) l).

Definition remove (l : list entry) (key : string) : list entry :=
  filter (λ e, ekey e ≠ key) l.

(** Modelled from the spec: the eviction callback, when there is one,
    runs on an entry removed for capacity. *)
Definition fire (c : LRU) (e : entry) (s : S) : S :=
  match onEvict c with
  | Some cb => cb (ekey e) (evalue e) s
  | None => s
  end.

(** Modelled from the spec: [Get] of the plain LRU; a hit moves the
    entry to the most-recent end. *)
Definition Get (c : LRU) (key : string) : option P * LRU :=
  match find (evictList c) key with
  | None => (None, c)
  | Some e => (Some (evalue e), with_list c (e :: remove (evictList c) key))
  end.

(** Modelled from the spec: [Add] of the plain LRU; a present key is
    refreshed, a new key is inserted at the most-recent end and the
    least recent entry is evicted when the capacity is exceeded. *)
Definition Add (c : LRU) (key : string) (v : P) (s : S) : LRU * S :=
  let e := {| ekey := key; evalue := v |} in
  match find (evictList c) key with
  | Some _ => (with_list c (e :: remove (evictList c) key), s)
  | None =>
      let l := e :: evictList c in
      if size c <? Z.of_nat (length l) then
        match reverse l with
        | old :: r => (with_list c (reverse r), fire c old s)
        | [] => (with_list c l, s)
        end
      else (with_list c l, s)
  end.

(** Modelled from the spec: [Remove] of the plain LRU, the explicit
    delete and the inline removal of a stale entry: the eviction
    callback is not called. *)
Definition Remove (c : LRU) (key : string) : bool * LRU :=
  match find (evictList c) key with
  | Some _ => (true, with_list c (remove (evictList c) key))
  | None => (false, c)
  end.

(** Two cores with the same capacity and callback. *)
Definition same_config (c c' : LRU) : Prop :=
  size c' = size c ∧ onEvict c' = onEvict c.

End core.
Arguments entry : clear implicits.
Arguments LRU : clear implicits.
Arguments EvictCallback : clear implicits.
End Plain.

Module Lru.
Section lru.
Context {V : Type} (zero : V) {Env : Type}.

(** [expirationLruItem]; the per-item lock has no sequential content. *)
Record expirationLruItem := { err : option error; value : V }.

(** The [Target] interface: five counters owned by the caller. *)
Record Target := {
  IncrGetHit : Env → Env;
  IncrGetSuccess : Env → Env;
  IncrGetFailed : Env → Env;
  IncrDelHit : Env → Env;
  IncrDelNotFound : Env → Env
}.

(** [EvictCallback[K, V]] with [K = string]. *)
Definition EvictCallback : Type := string → V → Env → Env.

(** The core stores pointers to items: a pointer is an index in the
    list of allocated items. *)
Abbreviation heap := (list expirationLruItem).

Definition deref (h : heap) (p : nat) : expirationLruItem :=
  default {| err := None; value := zero |} (h !! p).

Record ExpirationLRU := {
  core : Expirable.LRU nat (heap * Env);
  items : heap;
  successTTL : Z;
  failedTTL : Z;
  target : Target
}.

Definition with_core (x : ExpirationLRU) (c : Expirable.LRU nat (heap * Env))
    (h : heap) : ExpirationLRU :=
  {| core := c; items := h; successTTL := successTTL x;
     failedTTL := failedTTL x; target := target x |}.

(** The callback [NewExpirationLRU] hands to the core:
    [func(key, value) { onEvict(key, value.value) }]. *)
Definition evict_wrapper (onEvict : EvictCallback)
    : Expirable.EvictCallback nat (heap * Env) :=
  λ key p s, (s.1, onEvict key (value (deref s.1 p)) s.2).

(** [NewExpirationLRU] *)
Definition NewExpirationLRU (size : Z) (successTTL failedTTL : Z) (target : Target)
    (onEvict : option EvictCallback) : ExpirationLRU :=
  let cb : option (Expirable.EvictCallback nat (heap * Env)) :=
    match onEvict with
    | Some f => Some (evict_wrapper f)
    | None => None
    end in
  {| core := Expirable.NewLRU size cb successTTL; items := [];
     successTTL := successTTL; failedTTL := failedTTL; target := target |}.

(** A fetcher: the closure handed to [Get], acting on the state it
    closes over. *)
Definition fetcher : Type := Env → (V * option error) * Env.

(** [ExpirationLRU.Get], called at instant [now]. *)
Definition Get (x : ExpirationLRU) (now : Z) (key : string) (fetch : fetcher)
    (env : Env) : (V * option error) * ExpirationLRU * Env :=
  let '(r, c, (h, env)) := Expirable.Get (core x) now key (items x, env) in
  match r with
  | Some p =>
      let env := IncrGetHit (target x) env in
      ((value (deref h p), err (deref h p)), with_core x c h, env)
  | None =>
      let p := length h in
      let h := h ++ [{| err := None; value := zero |}] in
      let '(c, (h, env)) := Expirable.Add c now key p (h, env) in
      let '((v, e), env) := fetch env in
      let h := <[p := {| err := e; value := v |}]> h in
      match e with
      | None => ((v, e), with_core x c h, IncrGetSuccess (target x) env)
      | Some _ =>
          let env := IncrGetFailed (target x) env in
          let '(_, c) := Expirable.Remove c key in
          ((v, e), with_core x c h, env)
      end
  end.

(** [ExpirationLRU.Del] *)
Definition Del (x : ExpirationLRU) (key : string) (env : Env)
    : bool * ExpirationLRU * Env :=
  let '(ok, c) := Expirable.Remove (core x) key in
  (ok, with_core x c (items x),
   if ok then IncrDelHit (target x) env else IncrDelNotFound (target x) env).

(** [ExpirationLRU.SetHas], called at instant [now]. *)
Definition SetHas (x : ExpirationLRU) (now : Z) (key : string) (v : V) (env : Env)
    : bool * ExpirationLRU * Env :=
  if Expirable.Contains (core x) key then
    let p := length (items x) in
    let h := items x ++ [{| err := None; value := v |}] in
    let '(c, (h, env)) := Expirable.Add (core x) now key p (h, env) in
    (true, with_core x c h, env)
  else (false, x, env).

(** [ExpirationLRU.Set], called at instant [now]. *)
Definition Set_ (x : ExpirationLRU) (now : Z) (key : string) (v : V) (env : Env)
    : ExpirationLRU * Env :=
  let p := length (items x) in
  let h := items x ++ [{| err := None; value := v |}] in
  let '(c, (h, env)) := Expirable.Add (core x) now key p (h, env) in
  (with_core x c h, env).

(** [once.Do(func() { err = e })] in [GetBatch]: [once] has run if
    and only if [err] is set, since it is only called with an error. *)
Definition once_err (err : option error) (e : option error) : option error :=
  match err with
  | Some _ => err
  | None => e
  end.

(** The state of the first loop of [GetBatch]. *)
Record batch := {
  b_lru : ExpirationLRU;
  b_env : Env;
  b_res : gmap string V;
  b_err : option error;
  b_queries : list string
}.

(** One iteration of the first loop of [GetBatch]: a key that hits
    goes to the result, a key that misses to the queries. *)
Definition GetBatch_scan1 (now : Z) (b : batch) (key : string) : batch :=
  let '(r, c, (h, env)) :=
    Expirable.Get (core (b_lru b)) now key (items (b_lru b), b_env b) in
  match r with
  | Some p =>
      {| b_lru := with_core (b_lru b) c h;
         b_env := IncrGetHit (target (b_lru b)) env;
         b_res := <[key := value (deref h p)]> (b_res b);
         b_err := match err (deref h p) with
                  | Some e => once_err (b_err b) (Some e)
                  | None => b_err b
                  end;
         b_queries := b_queries b |}
  | None =>
      {| b_lru := with_core (b_lru b) c h; b_env := env; b_res := b_res b;
         b_err := b_err b; b_queries := b_queries b ++ [key] |}
  end.

(** The first loop of [GetBatch]. *)
Definition GetBatch_scan (x : ExpirationLRU) (now : Z) (keys : list string)
    (env : Env) : batch :=
  foldl (GetBatch_scan1 now)
    {| b_lru := x; b_env := env; b_res := ∅; b_err := None; b_queries := [] |} keys.

(** One iteration of the second loop of [GetBatch], over the queries:
    a key that the fetcher returned is cached and goes to the result,
    a key that it did not return counts as failed when no error is
    recorded. *)
Definition GetBatch_store1 (now : Z) (values : gmap string V) (err : option error)
    (st : ExpirationLRU * Env * gmap string V) (key : string)
    : ExpirationLRU * Env * gmap string V :=
  let '(x, env, res) := st in
  match values !! key with
  | Some val =>
      let p := length (items x) in
      let h := items x ++ [{| err := None; value := val |}] in
      let '(c, (h, env)) := Expirable.Add (core x) now key p (h, env) in
      (with_core x c h, IncrGetSuccess (target x) env, <[key := val]> res)
  | None =>
      (x, match err with
          | None => IncrGetFailed (target x) env
          | Some _ => env
          end, res)
  end.

(** A batch fetcher: the closure handed to [GetBatch]. *)
Definition batch_fetcher : Type :=
  list string → Env → (gmap string V * option error) * Env.

(** [ExpirationLRU.GetBatch], called at instant [now]. *)
Definition GetBatch (x : ExpirationLRU) (now : Z) (keys : list string)
    (fetch : batch_fetcher) (env : Env)
    : (gmap string V * option error) * ExpirationLRU * Env :=
  let b := GetBatch_scan x now keys env in
  match b_queries b with
  | [] => ((b_res b, b_err b), b_lru b, b_env b)
  | queries =>
      let '((values, fetchErr), env) := fetch queries (b_env b) in
      let err := once_err (b_err b) fetchErr in
      let '(x, env, res) :=
        foldl (GetBatch_store1 now values err) (b_lru b, env, b_res b) queries in
      let env :=
        match fetchErr with
        | Some _ => foldl (λ env _, IncrGetFailed (target x) env) env queries
        | None => env
        end in
      ((res, err), x, env)
  end.

(** The shard LRU [x] without the entry of [key]. *)
Definition shard_remove (x : ExpirationLRU) (key : string) : ExpirationLRU :=
  with_core x
    (Expirable.with_list (core x) (Expirable.remove (Expirable.evictList (core x)) key))
    (items x).

(** *** The lazy-expiry shard LRU *)

(** Modelled from the spec: the slot of the lazy-expiry shard LRU
    ([NewLazyLRU], whose file is not part of the sources): an outcome
    of the fetcher and the deadline the slot stores for itself. *)
Record lazyLruItem := { expires : Z; lerr : option error; lvalue : V }.

Abbreviation lheap := (list lazyLruItem).

Definition lderef (h : lheap) (p : nat) : lazyLruItem :=
  default {| expires := 0; lerr := None; lvalue := zero |} (h !! p).

(** Modelled from the spec: the lazy-expiry shard LRU, over a plain
    LRU that stores pointers to slots. *)
Record LazyLRU := {
  lcore : Plain.LRU nat (lheap * Env);
  litems : lheap;
  lsuccessTTL : Z;
  lfailedTTL : Z;
  ltarget : Target
}.

Definition with_lcore (y : LazyLRU) (c : Plain.LRU nat (lheap * Env))
    (h : lheap) : LazyLRU :=
  {| lcore := c; litems := h; lsuccessTTL := lsuccessTTL y;
     lfailedTTL := lfailedTTL y; ltarget := ltarget y |}.

(** Modelled from the spec: the callback handed to the plain LRU calls
    the callback of the caller with the key and the value of the
    slot. *)
Definition lazy_evict_wrapper (onEvict : EvictCallback)
    : Plain.EvictCallback nat (lheap * Env) :=
  λ key p s, (s.1, onEvict key (lvalue (lderef s.1 p)) s.2).

(** Modelled from the spec: [NewLazyLRU]. *)
Definition NewLazyLRU (size : Z) (successTTL failedTTL : Z) (target : Target)
    (onEvict : option EvictCallback) : LazyLRU :=
  let cb : option (Plain.EvictCallback nat (lheap * Env)) :=
    match onEvict with
    | Some f => Some (lazy_evict_wrapper f)
    | None => None
    end in
  {| lcore := Plain.NewLRU size cb; litems := [];
     lsuccessTTL := successTTL; lfailedTTL := failedTTL; ltarget := target |}.

(** Modelled from the spec: the miss path of the lazy-expiry [Get]: a
    pending slot is inserted, the fetcher runs, and its outcome is
    stored in the slot: a value with the success TTL, an error with
    the failure TTL. *)
Definition LazyLRU_miss (y : LazyLRU) (now : Z) (key : string) (fetch : fetcher)
    (env : Env) : (V * option error) * LazyLRU * Env :=
  let p := length (litems y) in
  let h := litems y ++ [{| expires := 0; lerr := None; lvalue := zero |}] in
  let '(c, (h, env)) := Plain.Add (lcore y) key p (h, env) in
  let '((v, e), env) := fetch env in
  match e with
  | None =>
      let h := <[p := {| expires := now + lsuccessTTL y; lerr := e; lvalue := v |}]> h in
      ((v, e), with_lcore y c h, IncrGetSuccess (ltarget y) env)
  | Some _ =>
      let h := <[p := {| expires := now + lfailedTTL y; lerr := e; lvalue := v |}]> h in
      ((v, e), with_lcore y c h, IncrGetFailed (ltarget y) env)
  end.

(** Modelled from the spec: [Get] of the lazy-expiry shard LRU, called
    at instant [now]: a slot whose deadline has not passed is a hit,
    whatever its outcome; a slot whose deadline is in the past is
    removed, without the eviction callback, and the call goes on as
    on an absent key. *)
Definition LazyLRU_Get (y : LazyLRU) (now : Z) (key : string) (fetch : fetcher)
    (env : Env) : (V * option error) * LazyLRU * Env :=
  let '(r, c) := Plain.Get (lcore y) key in
  match r with
  | Some p =>
      let it := lderef (litems y) p in
      if expires it <? now then
        let '(_, c) := Plain.Remove c key in
        LazyLRU_miss (with_lcore y c (litems y)) now key fetch env
      else
        ((lvalue it, lerr it), with_lcore y c (litems y),
         IncrGetHit (ltarget y) env)
  | None => LazyLRU_miss y now key fetch env
  end.

(** Modelled from the spec: [Del] of the lazy-expiry shard LRU. *)
Definition LazyLRU_Del (y : LazyLRU) (key : string) (env : Env)
    : bool * LazyLRU * Env :=
  let '(ok, c) := Plain.Remove (lcore y) key in
  (ok, with_lcore y c (litems y),
   if ok then IncrDelHit (ltarget y) env else IncrDelNotFound (ltarget y) env).

(** The lazy shard LRU [y] without the entry of [key]. *)
Definition lazy_remove (y : LazyLRU) (key : string) : LazyLRU :=
  with_lcore y
    (Plain.with_list (lcore y) (Plain.remove (Plain.evictList (lcore y)) key))
    (litems y).

(** *** The [LRU] interface *)

(** A shard behind the [lru.LRU] interface: one of the two shard LRUs
    that [createSimpleLRU] makes; the operations dispatch on it. *)
Inductive shardLRU :=
| Expiration (x : ExpirationLRU)
| Lazy (y : LazyLRU).

Definition shard_Get (s : shardLRU) (now : Z) (key : string) (fetch : fetcher)
    (env : Env) : (V * option error) * shardLRU * Env :=
  match s with
  | Expiration x => let '(r, x, env) := Get x now key fetch env in (r, Expiration x, env)
  | Lazy y => let '(r, y, env) := LazyLRU_Get y now key fetch env in (r, Lazy y, env)
  end.

Definition shard_Del (s : shardLRU) (key : string) (env : Env)
    : bool * shardLRU * Env :=
  match s with
  | Expiration x => let '(ok, x, env) := Del x key env in (ok, Expiration x, env)
  | Lazy y => let '(ok, y, env) := LazyLRU_Del y key env in (ok, Lazy y, env)
  end.

(** The target a shard counts on. *)
Definition shard_target (s : shardLRU) : Target :=
  match s with
  | Expiration x => target x
  | Lazy y => ltarget y
  end.

(** Modelled from the spec: the sharded LRU ([NewSlotLRU], whose file
    is not part of the sources): a stateless fan-out that selects the
    shard by the hash of the key modulo the number of shards and
    forwards every operation to it unchanged.  [Simple] is the
    [lru.LRU] that is a single shard. *)
Inductive LRU :=
| Simple (x : shardLRU)
| Slot (hash : string → Z) (slots : list shardLRU).

(** Modelled from the spec: [NewSlotLRU], [n] shards made by
    [create]. *)
Definition NewSlotLRU (n : Z) (hash : string → Z) (create : shardLRU) : LRU :=
  Slot hash (replicate (Z.to_nat n) create).

(** Modelled from the spec: the hash of the key modulo the number of
    shards. *)
Definition slot_index (hash : string → Z) (slots : list shardLRU)
    (key : string) : nat :=
  Z.to_nat (hash key mod Z.of_nat (length slots)).

(** The shard that serves [key]. *)
Definition shard (l : LRU) (key : string) : option shardLRU :=
  match l with
  | Simple x => Some x
  | Slot hash slots => slots !! slot_index hash slots key
  end.

(** The LRU after the shard that serves [key] became [x]. *)
Definition set_shard (l : LRU) (key : string) (x : shardLRU) : LRU :=
  match l with
  | Simple _ => Simple x
  | Slot hash slots => Slot hash (<[slot_index hash slots key := x]> slots)
  end.

(** Modelled from the spec: [lru.LRU.Get], forwarded to the shard of
    the key.  A router has at least one shard, so the shard exists;
    the other branch is not reached. *)
Definition LRU_Get (l : LRU) (now : Z) (key : string) (fetch : fetcher)
    (env : Env) : (V * option error) * LRU * Env :=
  match shard l key with
  | Some x =>
      let '(r, x, env) := shard_Get x now key fetch env in
      (r, set_shard l key x, env)
  | None => ((zero, None), l, env)
  end.

(** Modelled from the spec: [lru.LRU.Del], forwarded to the shard of
    the key. *)
Definition LRU_Del (l : LRU) (key : string) (env : Env) : bool * LRU * Env :=
  match shard l key with
  | Some x =>
      let '(ok, x, env) := shard_Del x key env in
      (ok, set_shard l key x, env)
  | None => (false, l, env)
  end.

(** The value slot of a key, as either shard LRU holds it: the
    outcome of the fetcher and the deadline. *)
Record slot := { s_deadline : Z; s_err : option error; s_value : V }.

Definition peek (s : shardLRU) (key : string) : option slot :=
  match s with
  | Expiration x =>
      e ← Expirable.find (Expirable.evictList (core x)) key;
      Some {| s_deadline := Expirable.expiresAt e;
              s_err := err (deref (items x) (Expirable.evalue e));
              s_value := value (deref (items x) (Expirable.evalue e)) |}
  | Lazy y =>
      e ← Plain.find (Plain.evictList (lcore y)) key;
      Some {| s_deadline := expires (lderef (litems y) (Plain.evalue e));
              s_err := lerr (lderef (litems y) (Plain.evalue e));
              s_value := lvalue (lderef (litems y) (Plain.evalue e)) |}
  end.

(** The slot stored for [key], in the shard that serves it. *)
Definition lookup (l : LRU) (key : string) : option slot :=
  x ← shard l key; peek x key.

(** The outcome cached for [key]. *)
Definition cached (l : LRU) (key : string) : option (V * option error) :=
  sl ← lookup l key; Some (s_value sl, s_err sl).

(** A router has at least one shard. *)
Definition wf (l : LRU) : Prop :=
  match l with
  | Simple _ => True
  | Slot _ slots => slots ≠ []
  end.

Definition shards (l : LRU) : list shardLRU :=
  match l with
  | Simple x => [x]
  | Slot _ slots => slots
  end.

(** The shard [s] without the entry of [key]. *)
Definition without (s : shardLRU) (key : string) : shardLRU :=
  match s with
  | Expiration x => Expiration (shard_remove x key)
  | Lazy y => Lazy (lazy_remove y key)
  end.

(** The LRU without the entry of [key]. *)
Definition remove_key (l : LRU) (key : string) : LRU :=
  match shard l key with
  | Some x => set_shard l key (without x key)
  | None => l
  end.

(** *** Invariants of a shard LRU *)

Definition entries (x : ExpirationLRU) : list (Expirable.entry nat) :=
  Expirable.evictList (core x).

Definition bounded (x : ExpirationLRU) : Prop := Expirable.bounded (core x).

(** The callback of the core is the one [NewExpirationLRU] installs:
    none, or the wrapper of a callback of the caller. *)
Definition wrapped (c : Expirable.LRU nat (heap * Env)) : Prop :=
  ∃ f : option EvictCallback, Expirable.onEvict c = evict_wrapper <$> f.

(** The entry points to an allocated item that holds no error. *)
Definition item_ok (h : heap) (e : Expirable.entry nat) : Prop :=
  (Expirable.evalue e < length h)%nat ∧ err (deref h (Expirable.evalue e)) = None.

Definition sound (x : ExpirationLRU) : Prop :=
  wrapped (core x) ∧ Forall (item_ok (items x)) (entries x).

(** What a read of [key] at instant [now] finds: the value of the
    entry of [key], unless the deadline of the entry has passed. *)
Definition view (x : ExpirationLRU) (now : Z) (key : string) : option V :=
  match Expirable.find (entries x) key with
  | Some e =>
      if Expirable.expiresAt e <? now then None
      else Some (value (deref (items x) (Expirable.evalue e)))
  | None => None
  end.

(** The operations of a shard LRU, as a client issues them, and the
    shard LRU and the state of the caller after a sequence of them. *)
Inductive op :=
| OpGet (now : Z) (key : string) (fetch : fetcher)
| OpGetBatch (now : Z) (keys : list string) (fetch : batch_fetcher)
| OpDel (key : string)
| OpSet (now : Z) (key : string) (v : V)
| OpSetHas (now : Z) (key : string) (v : V).

Definition run_op (st : ExpirationLRU * Env) (o : op) : ExpirationLRU * Env :=
  match o with
  | OpGet now key fetch =>
      let r := Get st.1 now key fetch st.2 in (r.1.2, r.2)
  | OpGetBatch now keys fetch =>
      let r := GetBatch st.1 now keys fetch st.2 in (r.1.2, r.2)
  | OpDel key => let r := Del st.1 key st.2 in (r.1.2, r.2)
  | OpSet now key v => Set_ st.1 now key v st.2
  | OpSetHas now key v =>
      let r := SetHas st.1 now key v st.2 in (r.1.2, r.2)
  end.

Definition run (st : ExpirationLRU * Env) (ops : list op) : ExpirationLRU * Env :=
  foldl run_op st ops.

End lru.
Arguments expirationLruItem : clear implicits.
Arguments Target : clear implicits.
Arguments EvictCallback : clear implicits.
Arguments ExpirationLRU : clear implicits.
Arguments lazyLruItem : clear implicits.
Arguments LazyLRU : clear implicits.
Arguments shardLRU : clear implicits.
Arguments slot : clear implicits.
Arguments LRU : clear implicits.
Arguments fetcher : clear implicits.
Arguments batch : clear implicits.
Arguments batch_fetcher : clear implicits.
Arguments op : clear implicits.
End Lru.

(** ** Package localcache: the coordinator *)

Module Localcache.

(** [LRUStringHash] *)
Definition LRUStringHash (key : string) : Z := Fnv.sum64a key.

(** Capacity of the [pendingDel] channel made by [New]. *)
Definition pendingDel_cap : nat := 100.

Section cache.
Context {V : Type} (zero : V) {W : Type} (ro : RangeOrder).

(** The fields of [cache] that the eviction callback and the fetch
    wrapper reach: the linkage graph ([None] is a nil [c.link]), the
    buffer of the [pendingDel] channel (oldest batch first) and
    whether [c.once] has started the drain goroutine. *)
Record shared := {
  link : option Link.slot;
  pendingDel : list (list string);
  once : bool
}.

Definition set_link (s : shared) (g : Link.slot) : shared :=
  {| link := Some g; pendingDel := pendingDel s; once := once s |}.

(** The state callbacks and fetchers act on: the shared fields of the
    cache and the caller's own state [W]. *)
Definition Env : Type := shared * W.

(** [option]: the fields [New] and the operations read.
    [expirationEvict] selects the shard LRU: the active-expiry one
    when it is set, the lazy-expiry one otherwise. *)
Record option_ := {
  localSlotNum : Z;
  localSlotSize : Z;
  linkSlotNum : Z;
  localSuccessTTL : Z;
  localFailedTTL : Z;
  expirationEvict : bool;
  target : Lru.Target W;
  delFn : list (list string → W → W)
}.

Record cache := {
  opt : option_;
  local : option (Lru.LRU V Env);
  sh : shared
}.

(** The caller's counters, seen from inside the cache. *)
Definition lift_target (t : Lru.Target W) : Lru.Target Env :=
  {| Lru.IncrGetHit := λ e, (e.1, Lru.IncrGetHit t e.2);
     Lru.IncrGetSuccess := λ e, (e.1, Lru.IncrGetSuccess t e.2);
     Lru.IncrGetFailed := λ e, (e.1, Lru.IncrGetFailed t e.2);
     Lru.IncrDelHit := λ e, (e.1, Lru.IncrDelHit t e.2);
     Lru.IncrDelNotFound := λ e, (e.1, Lru.IncrDelNotFound t e.2) |}.

(** The non-blocking send [select { case c.pendingDel <- keys: default: }]. *)
Definition try_send (s : shared) (keys : list string) : shared :=
  if decide (length (pendingDel s) < pendingDel_cap)%nat
  then {| link := link s; pendingDel := pendingDel s ++ [keys]; once := once s |}
  else s.

(** [c.once.Do(func() { go c.processPendingDeletes() })] *)
Definition start_once (s : shared) : shared :=
  {| link := link s; pendingDel := pendingDel s; once := true |}.

(** [cache.onEvict] *)
Definition onEvict (key : string) (value : V) (e : Env) : Env :=
  match link e.1 with
  | Some g =>
      let '(linkedKeys, g) := Link.Del ro g key in
      let s := set_link e.1 g in
      if decide (0 < size linkedKeys)%nat then
        let keys := filter (λ k, k ≠ key) (ro linkedKeys) in
        if decide (0 < length keys)%nat
        then (try_send (start_once s) keys, e.2)
        else (s, e.2)
      else (s, e.2)
  | None => e
  end.

(** The closure [createSimpleLRU] of [New]. *)
Definition createSimpleLRU (o : option_) : Lru.shardLRU V Env :=
  if expirationEvict o then
    Lru.Expiration
      (Lru.NewExpirationLRU zero (localSlotSize o) (localSuccessTTL o)
         (localFailedTTL o) (lift_target (target o)) (Some onEvict))
  else
    Lru.Lazy
      (Lru.NewLazyLRU zero (localSlotSize o) (localSuccessTTL o)
         (localFailedTTL o) (lift_target (target o)) (Some onEvict)).

(** [New] *)
Definition New (o : option_) : cache :=
  let s := {| link := None; pendingDel := []; once := false |} in
  if decide (0 < localSlotNum o ∧ 0 < localSlotSize o) then
    {| opt := o;
       local := Some (if decide (localSlotNum o = 1)
                      then Lru.Simple (createSimpleLRU o)
                      else Lru.NewSlotLRU (localSlotNum o) LRUStringHash
                             (createSimpleLRU o));
       sh := if decide (0 < linkSlotNum o)
             then {| link := Link.New (linkSlotNum o); pendingDel := []; once := false |}
             else s |}
  else {| opt := o; local := None; sh := s |}.

(** One iteration of the outer loop of [cache.processPendingDeletes]:
    receive the oldest batch and delete its keys from the shard LRU. *)
Definition processPendingDeletes_step (c : cache) (w : W) : cache * W :=
  match local c, pendingDel (sh c) with
  | Some l, keys :: rest =>
      let s := {| link := link (sh c); pendingDel := rest; once := once (sh c) |} in
      let '(l, e) :=
        foldl (λ (st : Lru.LRU V Env * Env) key,
                 let '(_, l, e) := Lru.LRU_Del st.1 key st.2 in (l, e))
              (l, (s, w)) keys in
      ({| opt := opt c; local := Some l; sh := e.1 |}, e.2)
  | _, _ => (c, w)
  end.

(** The [for len(toDelete) > 0] loop of [cache.del]; the queue
    [toDelete] has its front at the head of the list.  The last
    component of the result is the queue left when the fuel runs out. *)
Fixpoint del_loop (fuel : nat) (deleted : gset string) (toDelete : list string)
    (l : Lru.LRU V Env) (e : Env) : Lru.LRU V Env * Env * list string :=
  match toDelete, fuel with
  | [], _ => (l, e, [])
  | _, O => (l, e, toDelete)
  | curr :: toDelete, S fuel =>
      if decide (curr ∈ deleted) then del_loop fuel deleted toDelete l e
      else
        let deleted := {[curr]} ∪ deleted in
        let '(toDelete, e) :=
          match link e.1 with
          | Some g =>
              let '(linkedKeys, g) := Link.Del ro g curr in
              (toDelete ++ filter (λ k, k ∉ deleted) (ro linkedKeys),
               (set_link e.1 g, e.2))
          | None => (toDelete, e)
          end in
        let '(_, l, e) := Lru.LRU_Del l curr e in
        del_loop fuel deleted toDelete l e
  end.

(** Iterations that [cache.del] never exceeds: one per queued key, and
    each key that the linkage graph adds to the queue takes a stored
    neighbour out of the graph. *)
Definition del_fuel (key : list string) (s : shared) : nat :=
  S (length key + match link s with Some g => Link.weight g | None => 0%nat end).

(** [cache.del] *)
Definition del (key : list string) (c : cache) (w : W) : cache * W :=
  match local c with
  | None => (c, w)
  | Some l =>
      let '(l, e, _) := del_loop (del_fuel key (sh c)) ∅ key l (sh c, w) in
      ({| opt := opt c; local := Some l; sh := e.1 |}, e.2)
  end.

(** The closure [GetLink] hands to the shard LRU: register the links
    when there are some and linkage is enabled, then call [fetch]. *)
Definition wrap_fetch (key : string) (fetch : W → (V * option error) * W)
    (links : list string) : Lru.fetcher V Env :=
  λ e,
    let s := match links, link e.1 with
             | _ :: _, Some g => set_link e.1 (Link.Link g key links)
             | _, _ => e.1
             end in
    let '(r, w) := fetch e.2 in
    (r, (s, w)).

(** [cache.GetLink], called at instant [now]; [fetch] is the caller's
    fetcher, acting on the caller's state. *)
Definition GetLink (c : cache) (now : Z) (key : string)
    (fetch : W → (V * option error) * W) (links : list string) (w : W)
    : (V * option error) * cache * W :=
  match local c with
  | Some l =>
      let '(r, l, e) :=
        Lru.LRU_Get zero l now key (wrap_fetch key fetch links) (sh c, w) in
      (r, {| opt := opt c; local := Some l; sh := e.1 |}, e.2)
  | None =>
      let '(r, w) := fetch w in (r, c, w)
  end.

(** [cache.Get] *)
Definition Get (c : cache) (now : Z) (key : string)
    (fetch : W → (V * option error) * W) (w : W)
    : (V * option error) * cache * W :=
  GetLink c now key fetch [] w.

(** [cache.Del]: the pre-delete hooks, in order, then [del]. *)
Definition Del (key : list string) (c : cache) (w : W) : cache * W :=
  del key c (foldl (λ w fn, fn key w) w (delFn (opt c))).

(** [cache.DelLocal] *)
Definition DelLocal (key : list string) (c : cache) (w : W) : cache * W :=
  del key c w.

(** *** Well-formed states

    A shard LRU made by [createSimpleLRU]: its kind is the one the
    options select, and the capacity, the TTLs, the eviction callback
    and the target are the ones [New] installs; only the entries and
    the items change over time. *)
Definition shard_ok (o : option_) (s : Lru.shardLRU V Env) : Prop :=
  match s with
  | Lru.Expiration x =>
      expirationEvict o = true ∧
      Expirable.size (Lru.core x) = localSlotSize o ∧
      Expirable.ttl (Lru.core x) = localSuccessTTL o ∧
      Expirable.onEvict (Lru.core x) = Some (Lru.evict_wrapper zero onEvict) ∧
      Lru.target x = lift_target (target o)
  | Lru.Lazy y =>
      expirationEvict o = false ∧
      Plain.size (Lru.lcore y) = localSlotSize o ∧
      Plain.onEvict (Lru.lcore y) = Some (Lru.lazy_evict_wrapper zero onEvict) ∧
      Lru.lsuccessTTL y = localSuccessTTL o ∧
      Lru.lfailedTTL y = localFailedTTL o ∧
      Lru.ltarget y = lift_target (target o)
  end.

(** The shard LRU of a cache: [New] makes one only for a positive
    shard capacity. *)
Definition lru_ok (o : option_) (l : Lru.LRU V Env) : Prop :=
  0 < localSlotSize o ∧ Lru.wf l ∧ Forall (shard_ok o) (Lru.shards l).

Definition sh_ok (s : shared) : Prop :=
  match link s with
  | Some g => Link.wf g
  | None => True
  end.

(** A cache as [New] builds it and the operations keep it. *)
Definition cache_ok (c : cache) : Prop :=
  match local c with
  | Some l => lru_ok (opt c) l
  | None => True
  end ∧ sh_ok (sh c).

(** The adjacency entry of [k] in the linkage graph of the cache. *)
Definition glookup (s : shared) (k : string) : option (gset string) :=
  g ← link s; Link.lookup g k.

Definition gweight (s : shared) : nat :=
  match link s with
  | Some g => Link.weight g
  | None => 0%nat
  end.

(** The slot and the outcome cached for [k]. *)
Definition lookup (c : cache) (k : string) : option (Lru.slot V) :=
  l ← local c; Lru.lookup zero l k.

Definition cached (c : cache) (k : string) : option (V * option error) :=
  l ← local c; Lru.cached zero l k.

(** What an eviction callback may do to the state it acts on: the
    caller's state is untouched, a nil linkage stays nil and a
    well-formed linkage stays well-formed. *)
Definition env_step (e e' : Env) : Prop :=
  e'.2 = e.2 ∧ (link e.1 = None → e' = e) ∧ (sh_ok e.1 → sh_ok e'.1).

(** An edge of the linkage graph of the cache; there is none when
    linkage is disabled. *)
Definition gedge (s : shared) (a b : string) : Prop :=
  b ∈ default ∅ (glookup s a).

(** The keys that a batch reaches in the linkage graph, its own keys
    included. *)
Definition reaches (s : shared) (keys : list string) (k : string) : Prop :=
  ∃ a, a ∈ keys ∧ rtc (gedge s) a k.

(** The pending-deletion queue respects the capacity of the channel
    and holds no empty batch, and the drain goroutine has been started
    once something is queued. *)
Definition queue_ok (s : shared) : Prop :=
  (length (pendingDel s) ≤ pendingDel_cap)%nat ∧
  Forall (λ keys, keys ≠ []) (pendingDel s) ∧
  (pendingDel s ≠ [] → once s = true).

(** The operations of the cache, as its clients and its drain
    goroutine issue them, and the cache and the state of the caller
    after a sequence of them. *)
Inductive op :=
| OpGetLink (now : Z) (key : string) (fetch : W → (V * option error) * W)
    (links : list string)
| OpDel (keys : list string)
| OpDelLocal (keys : list string)
| OpDrain.

Definition run_op (st : cache * W) (o : op) : cache * W :=
  match o with
  | OpGetLink now key fetch links =>
      let r := GetLink st.1 now key fetch links st.2 in (r.1.2, r.2)
  | OpDel keys => Del keys st.1 st.2
  | OpDelLocal keys => DelLocal keys st.1 st.2
  | OpDrain => processPendingDeletes_step st.1 st.2
  end.

Definition run (st : cache * W) (ops : list op) : cache * W := foldl run_op st ops.

(** The counter that an explicit delete of [key] bumps. *)
Definition del_count (o : option_) (l : Lru.LRU V Env) (key : string) (w : W) : W :=
  match Lru.lookup zero l key with
  | Some _ => Lru.IncrDelHit (target o) w
  | None => Lru.IncrDelNotFound (target o) w
  end.

End cache.
Arguments shared : clear implicits.
Arguments option_ : clear implicits.
Arguments cache : clear implicits.
Arguments op : clear implicits.
End Localcache.

(** ** Concrete inputs

    A caller state that counts, as the tests of the package do: the five
    counters of the target and the number of calls of the fetchers. *)

Module Examples.

Record counters := {
  hits : nat; successes : nat; failures : nat; delHits : nat; delNotFound : nat;
  fetchCount : nat
}.

Definition w0 : counters :=
  {| hits := 0; successes := 0; failures := 0; delHits := 0; delNotFound := 0;
     fetchCount := 0 |}.

Definition counting_target : Lru.Target counters :=
  {| Lru.IncrGetHit := λ c,
       {| hits := S (hits c); successes := successes c; failures := failures c;
          delHits := delHits c; delNotFound := delNotFound c;
          fetchCount := fetchCount c |};
     Lru.IncrGetSuccess := λ c,
       {| hits := hits c; successes := S (successes c); failures := failures c;
          delHits := delHits c; delNotFound := delNotFound c;
          fetchCount := fetchCount c |};
     Lru.IncrGetFailed := λ c,
       {| hits := hits c; successes := successes c; failures := S (failures c);
          delHits := delHits c; delNotFound := delNotFound c;
          fetchCount := fetchCount c |};
     Lru.IncrDelHit := λ c,
       {| hits := hits c; successes := successes c; failures := failures c;
          delHits := S (delHits c); delNotFound := delNotFound c;
          fetchCount := fetchCount c |};
     Lru.IncrDelNotFound := λ c,
       {| hits := hits c; successes := successes c; failures := failures c;
          delHits := delHits c; delNotFound := S (delNotFound c);
          fetchCount := fetchCount c |} |}.

Definition called (c : counters) : counters :=
  {| hits := hits c; successes := successes c; failures := failures c;
     delHits := delHits c; delNotFound := delNotFound c;
     fetchCount := S (fetchCount c) |}.

(** A fetcher that returns [v], and one that fails with [m]. *)
Definition fetch_ok (v : string) (c : counters) : (string * option error) * counters :=
  ((v, None), called c).

Definition fetch_err (m : error) (c : counters) : (string * option error) * counters :=
  ((EmptyString, Some m), called c).

(** Options of a cache of [nslot] shards of capacity 10 with [nlink]
    linkage shards, a success TTL of 60 and a failure TTL of 5, in the
    eviction mode [active]. *)
Definition mode_opts (active : bool) (nslot nlink : Z) : Localcache.option_ counters :=
  {| Localcache.localSlotNum := nslot; Localcache.localSlotSize := 10;
     Localcache.linkSlotNum := nlink; Localcache.localSuccessTTL := 60;
     Localcache.localFailedTTL := 5; Localcache.expirationEvict := active;
     Localcache.target := counting_target;
     Localcache.delFn := [] |}.

(** The same under [WithExpirationEvict], and in the default mode. *)
Definition opts (nslot nlink : Z) : Localcache.option_ counters :=
  mode_opts true nslot nlink.

Definition lazy_opts (nslot nlink : Z) : Localcache.option_ counters :=
  mode_opts false nslot nlink.

Definition new_cache (nslot nlink : Z) : Localcache.cache string counters :=
  Localcache.New EmptyString elements_order (opts nslot nlink).

Definition new_lazy_cache (nslot nlink : Z) : Localcache.cache string counters :=
  Localcache.New EmptyString elements_order (lazy_opts nslot nlink).

(** A cache of three shards with linkage disabled that holds ["b"] and
    ["c"]. *)
Definition cache_bc : Localcache.cache string counters :=
  let r := Localcache.Get EmptyString (new_cache 3 0) 0 "b" (fetch_ok "vb") w0 in
  (Localcache.Get EmptyString r.1.2 0 "c" (fetch_ok "vc") r.2).1.2.

(** A cache of three shards and ten linkage shards that holds ["a"],
    ["b"], ["c"] and ["d"]. *)
Definition cache_abcd : Localcache.cache string counters :=
  let r := Localcache.Get EmptyString (new_cache 3 10) 0 "a" (fetch_ok "va") w0 in
  let r := Localcache.Get EmptyString r.1.2 0 "b" (fetch_ok "vb") r.2 in
  let r := Localcache.Get EmptyString r.1.2 0 "c" (fetch_ok "vc") r.2 in
  (Localcache.Get EmptyString r.1.2 0 "d" (fetch_ok "vd") r.2).1.2.

(** A cache of three shards and ten linkage shards after
    [GetLink("a", _, "b")] and [Get("b", _)]. *)
Definition cache_ab_linked : Localcache.cache string counters :=
  let r := Localcache.GetLink EmptyString (new_cache 3 10) 0 "a" (fetch_ok "va") ["b"] w0 in
  (Localcache.Get EmptyString r.1.2 0 "b" (fetch_ok "vb") r.2).1.2.

(** The shard LRU of [cache_abcd]. *)
Definition lru_abcd : Lru.LRU string (Localcache.Env (W := counters)) :=
  match Localcache.local cache_abcd with
  | Some l => l
  | None => Lru.Simple (Localcache.createSimpleLRU EmptyString elements_order (opts 3 10))
  end.

(** The linkage graph of ten shards after [Link("a", "b")] and
    [Link("b", "c")]. *)
Definition graph0 : Link.slot :=
  {| Link.n := 10; Link.slots := replicate 10 Link.newLinkKey |}.

Definition graph_abc : Link.slot :=
  Link.Link (Link.Link graph0 "a" ["b"]) "b" ["c"].

(** An iteration order other than [elements_order]. *)
Definition reverse_order : RangeOrder :=
  {| range_keys := λ s, reverse (elements s);
     range_keys_perm := λ s, reverse_Permutation (elements s) |}.

(** A shard LRU whose eviction callback logs the keys it is called
    with, and whose target does nothing. *)
Definition silent_target : Lru.Target (list string) :=
  {| Lru.IncrGetHit := id; Lru.IncrGetSuccess := id; Lru.IncrGetFailed := id;
     Lru.IncrDelHit := id; Lru.IncrDelNotFound := id |}.

Definition log_evict : Lru.EvictCallback string (list string) :=
  λ key _ log, log ++ [key].

Definition logging_lru : Lru.ExpirationLRU string (list string) :=
  Lru.NewExpirationLRU EmptyString 10 60 5 silent_target (Some log_evict).

(** The logging shard LRU after a successful [Get] of ["k"]. *)
Definition logging_lru_k : Lru.ExpirationLRU string (list string) :=
  (Lru.Get EmptyString logging_lru 0 "k" (λ e, (("v"%string, None), e)) []).1.2.

(** A batch fetcher that returns a value for ["q"] only. *)
Definition batch_fetch_q : Lru.batch_fetcher string (list string) :=
  λ _ e, (({["q" := "vq"%string]}, None), e).

End Examples.

(** * Facts about the linkage graph *)

Section link_facts.
Import Link.
Implicit Types (x : slot) (k key : string) (lk : linkKey).

Lemma index_lt x k : wf x → (index x k < length (slots x))%nat.
Proof.
  intros [Hn Hl]. unfold index. rewrite Hl.
  pose proof (Z.mod_pos_bound (Fnv.sum64a k) (n x) Hn). lia.
Qed.

Lemma foldl_add_set (v : gset string) (l : list string) :
  foldl (λ v k, {[k]} ∪ v) v l = list_to_set l ∪ v.
Proof.
  revert v. induction l as [|a l IH]; intros v; simpl.
  - set_solver.
  - rewrite IH. set_solver.
Qed.

Lemma wf_link_at x key links : wf x → wf (link_at x key links).
Proof. intros [Hn Hl]. split; simpl; [done|]. by rewrite length_alter. Qed.

Lemma lookup_link_at x key links k :
  wf x →
  lookup (link_at x key links) k =
    if decide (k = key) then Some (list_to_set links ∪ adj x key) else lookup x k.
Proof.
  intros Hwf. pose proof (index_lt x key Hwf) as Hi.
  apply lookup_lt_is_Some in Hi as [lk Hlk].
  unfold lookup, adj, lookup. change (index (link_at x key links) k) with (index x k).
  simpl. destruct (decide (k = key)) as [->|Hne].
  - rewrite list_lookup_alter_eq, Hlk. simpl.
    unfold linkKey_link. rewrite lookup_insert_eq, foldl_add_set.
    by destruct (lk !! key).
  - destruct (decide (index x k = index x key)) as [Heq|Hneq].
    + rewrite Heq, list_lookup_alter_eq, Hlk. simpl.
      unfold linkKey_link. by rewrite lookup_insert_ne.
    + by rewrite list_lookup_alter_ne.
Qed.

Lemma adj_link_at x key links k :
  wf x →
  adj (link_at x key links) k =
    adj x k ∪ (if decide (k = key) then list_to_set links else ∅).
Proof.
  intros Hwf. unfold adj at 1. rewrite lookup_link_at by done.
  destruct (decide (k = key)) as [->|]; simpl; [set_solver|].
  unfold adj. set_solver.
Qed.

Lemma del_at_fst x key : (del_at x key).1 = lookup x key.
Proof.
  unfold del_at, lookup, linkKey_del.
  destruct (slots x !! index x key) as [lk|]; simpl; [|done].
  by destruct (lk !! key).
Qed.

Lemma del_at_absent x key : lookup x key = None → del_at x key = (None, x).
Proof.
  unfold del_at, lookup, linkKey_del.
  destruct (slots x !! index x key) as [lk|] eqn:Hlk; simpl; [|done].
  intros ->. rewrite list_insert_id by done. by destruct x.
Qed.

Lemma wf_del_at x key : wf x → wf (del_at x key).2.
Proof.
  intros [Hn Hl]. unfold del_at.
  destruct (slots x !! index x key) as [lk|]; [|done].
  destruct (linkKey_del lk key) as [ks lk']. split; simpl; [done|].
  by rewrite length_insert.
Qed.

Lemma n_del_at x key : n (del_at x key).2 = n x.
Proof.
  unfold del_at. destruct (slots x !! index x key) as [lk|]; [|done].
  by destruct (linkKey_del lk key).
Qed.

Lemma lookup_del_at x key k :
  lookup (del_at x key).2 k = if decide (k = key) then None else lookup x k.
Proof.
  unfold lookup at 1. unfold index. rewrite n_del_at. fold (index x k).
  unfold del_at, lookup, linkKey_del.
  destruct (slots x !! index x key) as [lk|] eqn:Hlk; simpl.
  - assert (index x key < length (slots x))%nat as Hi by by eapply lookup_lt_Some.
    destruct (lk !! key) as [ks|] eqn:Hks; simpl.
    + destruct (decide (k = key)) as [->|Hne].
      * rewrite list_lookup_insert_eq by done. simpl. apply lookup_delete_eq.
      * destruct (decide (index x k = index x key)) as [Heq|Hneq].
        -- rewrite Heq, list_lookup_insert_eq, Hlk by done. simpl.
           by rewrite lookup_delete_ne.
        -- by rewrite list_lookup_insert_ne.
    + rewrite list_insert_id by done.
      destruct (decide (k = key)) as [->|]; [|done]. by rewrite Hlk.
  - destruct (decide (k = key)) as [->|]; [|done]. by rewrite Hlk.
Qed.

(** *** The weight of the graph *)

Lemma sum_list_insert (f : linkKey → nat) (l : list linkKey) i (a b : linkKey) :
  l !! i = Some a →
  (sum_list_with f (<[i:=b]> l) + f a = sum_list_with f l + f b)%nat.
Proof.
  revert i. induction l as [|c l IH]; intros [|i] Hi; simplify_eq/=; [lia|].
  specialize (IH _ Hi). lia.
Qed.

Lemma linkKey_weight_delete lk key ks :
  lk !! key = Some ks →
  (linkKey_weight (delete key lk) + size ks = linkKey_weight lk)%nat.
Proof.
  intros Hk. unfold linkKey_weight.
  rewrite <- (map_to_list_delete lk key ks Hk). simpl. lia.
Qed.

Lemma weight_del_at x key :
  (weight (del_at x key).2 + size (default ∅ (del_at x key).1) = weight x)%nat.
Proof.
  unfold del_at, linkKey_del.
  pose proof (size_empty (C := gset string)) as He.
  destruct (slots x !! index x key) as [lk|] eqn:Hlk; cbn [fst snd default from_option id]; [|lia].
  destruct (lk !! key) as [ks|] eqn:Hks; cbn [fst snd default from_option id].
  - unfold weight. cbn [slots].
    pose proof (sum_list_insert linkKey_weight _ _ _ (delete key lk) Hlk) as H1.
    pose proof (linkKey_weight_delete _ _ _ Hks) as H2. lia.
  - rewrite list_insert_id by done. unfold weight. cbn [slots]. lia.
Qed.

Lemma length_range_opt (ro : RangeOrder) (m : option (gset string)) :
  length (range_opt ro m) = size (default ∅ m).
Proof.
  destruct m as [s|]; cbn [range_opt default from_option id]; [|by rewrite size_empty].
  by rewrite (range_keys_perm ro s).
Qed.

Lemma elem_of_range (ro : RangeOrder) (s : gset string) k : k ∈ ro s ↔ k ∈ s.
Proof. rewrite (range_keys_perm ro s). apply elem_of_elements. Qed.

Lemma elem_of_range_opt (ro : RangeOrder) (m : option (gset string)) k :
  k ∈ range_opt ro m ↔ k ∈ default ∅ m.
Proof. destruct m; simpl; [apply elem_of_range|set_solver]. Qed.

(** *** The loop of [delKey] *)

(** What the loop guarantees, whatever the fuel. *)
Lemma delKey_loop_spec (ro : RangeOrder) fuel x del stack D x' rest :
  wf x →
  delKey_loop ro fuel x del stack = (D, x', rest) →
  wf x' ∧ n x' = n x ∧ del ⊆ D ∧
  (∀ k, lookup x' k = if decide (k ∈ D ∖ del) then None else lookup x k) ∧
  (∀ k, k ∈ stack → k ∈ D ∨ k ∈ rest) ∧
  (∀ k c, k ∈ D ∖ del → c ∈ adj x k → c ∈ D ∨ c ∈ rest) ∧
  (∀ k, k ∈ D → k ∈ del ∨ ∃ k0, k0 ∈ stack ∧ rtc (edge x) k0 k) ∧
  (size D + weight x' + length rest ≤ size del + weight x + length stack)%nat.
Proof.
  revert x del stack. induction fuel as [|fuel IH]; intros x del stack Hwf Hrun.
  - assert (D = del ∧ x' = x ∧ rest = stack) as (-> & -> & ->).
    { destruct stack; simpl in Hrun; by simplify_eq. }
    split_and!; try done.
    + intros k. by rewrite decide_False by set_solver.
    + auto.
    + set_solver.
    + auto.
  - destruct stack as [|curr stack]; simpl in Hrun.
    { simplify_eq. split_and!; try done.
      - intros k. by rewrite decide_False by set_solver.
      - set_solver.
      - set_solver.
      - auto. }
    destruct (decide (curr ∈ del)) as [Hin|Hnin].
    + apply IH in Hrun as (Hwf' & Hn & Hsub & Hlk & Hst & Hcl & Hre & Hsz); [|done].
      split_and!; try done.
      * intros k [->|Hk]%elem_of_cons; [left; set_solver|auto].
      * intros k Hk. destruct (Hre k Hk) as [?|(k0 & Hk0 & Hr)]; [by left|].
        right. exists k0. split; [by right|done].
      * simpl. lia.
    + destruct (del_at x curr) as [childKeys x1] eqn:Hdel.
      pose proof (del_at_fst x curr) as Hfst.
      pose proof (wf_del_at x curr Hwf) as Hwf1.
      pose proof (n_del_at x curr) as Hn1.
      pose proof (lookup_del_at x curr) as Hlk1.
      pose proof (weight_del_at x curr) as Hw1.
      rewrite Hdel in Hfst, Hwf1, Hn1, Hlk1, Hw1. simpl in *.
      apply IH in Hrun as (Hwf' & Hn & Hsub & Hlk & Hst & Hcl & Hre & Hsz); [|done].
      assert (∀ k, k ≠ curr → adj x1 k = adj x k) as Hadj1.
      { intros k Hk. unfold adj. rewrite Hlk1. by rewrite decide_False. }
      split_and!; try done.
      * congruence.
      * set_solver.
      * intros k. rewrite Hlk, Hlk1.
        destruct (decide (k = curr)) as [->|Hne].
        -- rewrite (decide_True (P := curr ∈ D ∖ del)) by set_solver.
           by destruct (decide _).
        -- destruct (decide (k ∈ D ∖ ({[curr]} ∪ del))), (decide (k ∈ D ∖ del));
             try done; set_solver.
      * intros k [->|Hk]%elem_of_cons; [left; set_solver|].
        apply Hst. set_solver.
      * intros k c Hk Hc. destruct (decide (k = curr)) as [->|Hne].
        -- apply Hst. apply elem_of_app. left. apply elem_of_reverse.
           apply elem_of_range_opt. by rewrite Hfst.
        -- apply (Hcl k c); [set_solver|]. by rewrite Hadj1.
      * intros k Hk. destruct (Hre k Hk) as [Hd|(k0 & Hk0 & Hr)].
        -- apply elem_of_union in Hd as [Hd|Hd]; [|by left].
           apply elem_of_singleton in Hd as ->. right. exists curr.
           split; [by left|done].
        -- assert (rtc (edge x) k0 k) as Hr'.
           { eapply rtc_subrel; [|done]. intros a b. unfold edge.
             destruct (decide (a = curr)) as [->|Ha].
             - unfold adj at 1. rewrite Hlk1, decide_True by done. set_solver.
             - by rewrite Hadj1. }
           apply elem_of_app in Hk0 as [Hk0|Hk0].
           ++ apply elem_of_reverse, elem_of_range_opt in Hk0. rewrite Hfst in Hk0.
              right. exists curr. split; [by left|].
              eapply rtc_l; [|done]. done.
           ++ right. exists k0. split; [by right|done].
      * rewrite length_app, length_reverse, length_range_opt in Hsz.
        rewrite size_union in Hsz by set_solver. rewrite size_singleton in Hsz.
        simpl. lia.
Qed.

(** The loop ends with an empty stack when the fuel covers the measure. *)
Lemma delKey_loop_terminates (ro : RangeOrder) fuel x del stack :
  (length stack + weight x ≤ fuel)%nat →
  (delKey_loop ro fuel x del stack).2 = [].
Proof.
  revert x del stack. induction fuel as [|fuel IH]; intros x del stack Hf.
  - destruct stack; [done|simpl in Hf; lia].
  - destruct stack as [|curr stack]; [done|]. simpl in *.
    destruct (decide (curr ∈ del)); [apply IH; lia|].
    destruct (del_at x curr) as [childKeys x1] eqn:Hdel.
    pose proof (weight_del_at x curr) as Hw1. rewrite Hdel in Hw1. simpl in Hw1.
    apply IH. rewrite length_app, length_reverse, length_range_opt. lia.
Qed.

(** *** [delKey] and [Del] *)

Lemma Del_spec (ro : RangeOrder) x k D x' :
  wf x →
  Del ro x k = (D, x') →
  wf x' ∧ n x' = n x ∧ k ∈ D ∧
  (∀ k', lookup x' k' = if decide (k' ∈ D) then None else lookup x k') ∧
  (∀ a c, a ∈ D → c ∈ adj x a → c ∈ D) ∧
  (∀ k', k' ∈ D → rtc (edge x) k k') ∧
  (size D + weight x' ≤ S (weight x))%nat.
Proof.
  intros Hwf. unfold Del, delKey.
  pose proof (delKey_loop_terminates ro (S (weight x)) x ∅ [k]) as Hterm.
  destruct (delKey_loop ro (S (weight x)) x ∅ [k]) as [[D0 x0] rest] eqn:Hrun.
  simpl in Hterm. rewrite Hterm in Hrun by lia. intros [= -> ->].
  apply delKey_loop_spec in Hrun as (Hwf' & Hn & _ & Hlk & Hst & Hcl & Hre & Hsz);
    [|done].
  split_and!; try done.
  - destruct (Hst k) as [?|Hk]; [by left|done|by apply elem_of_nil in Hk].
  - intros k'. rewrite Hlk. destruct (decide (k' ∈ D ∖ ∅)), (decide (k' ∈ D));
      try done; set_solver.
  - intros a c Ha Hc. destruct (Hcl a c) as [?|Hk]; [set_solver|done|done|].
    by apply elem_of_nil in Hk.
  - intros k' Hk'. destruct (Hre k' Hk') as [?|(k0 & Hk0 & Hr)]; [set_solver|].
    by apply list_elem_of_singleton in Hk0 as ->.
  - rewrite size_empty in Hsz. simpl in Hsz. lia.
Qed.

(** The returned set is the set of the keys that [k] reaches. *)
Lemma Del_reach (ro : RangeOrder) x k k' :
  wf x → k' ∈ (Del ro x k).1 ↔ rtc (edge x) k k'.
Proof.
  intros Hwf. destruct (Del ro x k) as [D x'] eqn:Hdel.
  apply Del_spec in Hdel as (_ & _ & Hk & _ & Hcl & Hre & _); [|done].
  split; [apply Hre|]. simpl. intros Hr.
  eapply (rtc_ind_r (λ y, y ∈ D)); [done| |exact Hr].
  intros y z _ Hyz Hy. by eapply Hcl.
Qed.

Lemma Del_absent (ro : RangeOrder) x k :
  lookup x k = None → Del ro x k = ({[k]}, x).
Proof.
  intros Hk. unfold Del, delKey. simpl.
  destruct (decide (k ∈ (∅ : gset string))) as [Hin|_]; [set_solver|].
  rewrite del_at_absent by done. rewrite union_empty_r_L.
  by destruct (weight x).
Qed.

(** *** [Link] *)

Lemma wf_Link x key links : wf x → wf (Link x key links).
Proof.
  intros Hwf. unfold Link. destruct links as [|l0 links]; [done|].
  generalize (l0 :: links) at 2. intros ls.
  pose proof (wf_link_at x key (l0 :: links) Hwf) as Hwf1.
  revert Hwf1. generalize (link_at x key (l0 :: links)). clear.
  induction ls as [|a ls IH]; intros x Hwf; simpl; [done|].
  apply IH. by apply wf_link_at.
Qed.

Lemma adj_link_back x key ls k :
  wf x →
  adj (foldl (λ x0 (s : string), link_at x0 s [key]) x ls) k =
    adj x k ∪ (if decide (k ∈ ls) then {[key]} else ∅).
Proof.
  revert x. induction ls as [|a ls IH]; intros x Hwf; cbn [foldl].
  - destruct (decide (k ∈ [])); set_solver.
  - rewrite IH by by apply wf_link_at. rewrite adj_link_at by done.
    destruct (decide (k = a)), (decide (k ∈ ls)), (decide (k ∈ a :: ls));
      set_solver.
Qed.

Lemma adj_Link x key links k :
  wf x →
  adj (Link x key links) k =
    adj x k ∪ (if decide (k = key) then list_to_set links else ∅)
            ∪ (if decide (k ∈ links) then {[key]} else ∅).
Proof.
  intros Hwf. unfold Link. destruct links as [|l0 links].
  - destruct (decide (k ∈ [])), (decide (k = key)); set_solver.
  - rewrite adj_link_back by by apply wf_link_at. by rewrite adj_link_at.
Qed.

(** *** Symmetry *)

Lemma symmetric_Link x key links :
  wf x → symmetric x → symmetric (Link x key links).
Proof.
  intros Hwf Hsym a b. rewrite !adj_Link by done.
  specialize (Hsym a b).
  destruct (decide (a = key)), (decide (b = key)),
    (decide (a ∈ links)), (decide (b ∈ links)); set_solver.
Qed.

Lemma adj_Del (ro : RangeOrder) x k a :
  wf x →
  adj (Del ro x k).2 a = if decide (a ∈ (Del ro x k).1) then ∅ else adj x a.
Proof.
  intros Hwf. destruct (Del ro x k) as [D x'] eqn:Hdel.
  apply Del_spec in Hdel as (_ & _ & _ & Hlk & _); [|done].
  simpl. unfold adj. rewrite Hlk. by destruct (decide (a ∈ D)).
Qed.

Lemma symmetric_Del (ro : RangeOrder) x k :
  wf x → symmetric x → symmetric (Del ro x k).2.
Proof.
  intros Hwf Hsym a b. rewrite !adj_Del by done.
  destruct (Del ro x k) as [D x'] eqn:Hdel.
  apply Del_spec in Hdel as (_ & _ & _ & _ & Hcl & _); [|done]. simpl.
  specialize (Hsym a b).
  destruct (decide (a ∈ D)) as [Ha|Ha], (decide (b ∈ D)) as [Hb|Hb]; try done.
  - split; [set_solver|]. intros Hab. destruct Hb. apply (Hcl a b Ha). by apply Hsym.
  - split; [|set_solver]. intros Hab. destruct Ha. apply (Hcl b a Hb). by apply Hsym.
Qed.

Lemma wf_Del (ro : RangeOrder) x k : wf x → wf (Del ro x k).2.
Proof.
  intros Hwf. destruct (Del ro x k) as [D x'] eqn:Hdel.
  by apply Del_spec in Hdel as (? & _).
Qed.

Lemma wf_New num x : New num = Some x → wf x.
Proof.
  unfold New. destruct (Z.leb_spec num 0); [done|]. intros [= <-].
  split; simpl; [done|]. by rewrite length_replicate.
Qed.

Lemma adj_New num x k : New num = Some x → adj x k = ∅.
Proof.
  unfold New. destruct (Z.leb_spec num 0); [done|]. intros [= <-].
  unfold adj, lookup. simpl.
  destruct (replicate _ _ !! _) as [lk|] eqn:Hlk; [|done].
  apply lookup_replicate in Hlk as [-> _]. done.
Qed.

End link_facts.

(** * Facts about the shard LRU *)

Section expirable_facts.
Import Expirable.
Context {P S : Type}.
Implicit Types (c : LRU P S) (l : list (entry P)) (e : entry P) (key : string).

Lemma with_list_id c : with_list c (evictList c) = c.
Proof. by destruct c. Qed.

Lemma find_cons e l key :
  find (e :: l) key = if decide (ekey e = key) then Some e else find l key.
Proof.
  unfold find. rewrite filter_cons. by destruct (decide (ekey e = key)).
Qed.

Lemma find_key l key e : find l key = Some e → ekey e = key.
Proof.
  unfold find. intros He%head_Some_elem_of.
  by apply list_elem_of_filter in He as [? _].
Qed.

Lemma find_remove l key key' :
  find (remove l key) key' = if decide (key' = key) then None else find l key'.
Proof.
  unfold find, remove. induction l as [|e l IH].
  - by destruct (decide (key' = key)).
  - rewrite !filter_cons.
    destruct (decide (ekey e ≠ key)) as [Hne|Heq%dec_stable].
    + rewrite filter_cons. destruct (decide (ekey e = key')) as [He|He].
      * rewrite decide_False by congruence. done.
      * done.
    + rewrite IH. destruct (decide (key' = key)) as [->|Hne]; [done|].
      by rewrite decide_False by congruence.
Qed.

Lemma remove_absent l key : find l key = None → remove l key = l.
Proof.
  unfold find, remove. induction l as [|e l IH]; [done|].
  rewrite !filter_cons. destruct (decide (ekey e = key)) as [He|He]; [done|].
  intros Hl. rewrite decide_True by done. by rewrite IH.
Qed.

Lemma find_reverse_tail l key old r :
  find l key = None → reverse l = old :: r → find (reverse r) key = None.
Proof.
  intros Hl Hr. assert (l = reverse r ++ [old]) as ->.
  { rewrite <- (reverse_involutive l), Hr. by rewrite reverse_cons. }
  unfold find in *. rewrite filter_app in Hl.
  destruct (filter _ (reverse r)); [done|discriminate].
Qed.

Lemma same_config_Get c now key s : same_config c (Get c now key s).1.2.
Proof.
  unfold Get. destruct (find _ _) as [e|]; [|done].
  by destruct (expiresAt e <? now).
Qed.

Lemma same_config_Add c now key p s : same_config c (Add c now key p s).1.
Proof.
  unfold Add. destruct (find _ _) as [e|]; [done|].
  destruct (size c <? _); [|done]. by destruct (reverse _).
Qed.

Lemma same_config_Remove c key : same_config c (Remove c key).2.
Proof. unfold Remove. by destruct (find _ _). Qed.

Lemma Remove_eq c key :
  Remove c key =
    (bool_decide (is_Some (find (evictList c) key)),
     with_list c (remove (evictList c) key)).
Proof.
  unfold Remove. destruct (find _ _) eqn:Hf.
  - by rewrite bool_decide_true by eauto.
  - rewrite bool_decide_false by (by intros [? ?]).
    by rewrite remove_absent, with_list_id.
Qed.

(** [Add] of an absent key to a core of capacity at least one: the new
    entry is the most recent one, and the callback runs at most once,
    on another entry. *)
Lemma Add_absent c now key p s :
  find (evictList c) key = None → 1 ≤ size c →
  ∃ l, (Add c now key p s).1 =
         with_list c ({| ekey := key; evalue := p; expiresAt := now + ttl c |} :: l) ∧
       find l key = None ∧
       ((Add c now key p s).2 = s ∨ ∃ old, (Add c now key p s).2 = fire c old s).
Proof.
  intros Hf Hsz. unfold Add. rewrite Hf.
  destruct (size c <? _) eqn:Hcap; [|by eauto].
  rewrite reverse_cons.
  destruct (reverse (evictList c)) as [|old r] eqn:Hr.
  { apply (f_equal reverse) in Hr. rewrite reverse_involutive in Hr.
    apply Z.ltb_lt in Hcap. rewrite Hr in Hcap. simpl in Hcap. lia. }
  simpl. rewrite reverse_app. simpl.
  exists (reverse r). split_and!; [done| |by eauto].
  by eapply find_reverse_tail.
Qed.

End expirable_facts.

Section plain_facts.
Import Plain.
Context {P S : Type}.
Implicit Types (c : LRU P S) (l : list (entry P)) (e : entry P) (key : string).

Lemma plain_with_list_id c : with_list c (evictList c) = c.
Proof. by destruct c. Qed.

Lemma plain_find_cons e l key :
  find (e :: l) key = if decide (ekey e = key) then Some e else find l key.
Proof.
  unfold find. rewrite filter_cons. by destruct (decide (ekey e = key)).
Qed.

Lemma plain_find_key l key e : find l key = Some e → ekey e = key.
Proof.
  unfold find. intros He%head_Some_elem_of.
  by apply list_elem_of_filter in He as [? _].
Qed.

Lemma plain_find_remove l key key' :
  find (remove l key) key' = if decide (key' = key) then None else find l key'.
Proof.
  unfold find, remove. induction l as [|e l IH].
  - by destruct (decide (key' = key)).
  - rewrite !filter_cons.
    destruct (decide (ekey e ≠ key)) as [Hne|Heq%dec_stable].
    + rewrite filter_cons. destruct (decide (ekey e = key')) as [He|He].
      * rewrite decide_False by congruence. done.
      * done.
    + rewrite IH. destruct (decide (key' = key)) as [->|Hne]; [done|].
      by rewrite decide_False by congruence.
Qed.

Lemma plain_remove_absent l key : find l key = None → remove l key = l.
Proof.
  unfold find, remove. induction l as [|e l IH]; [done|].
  rewrite !filter_cons. destruct (decide (ekey e = key)) as [He|He]; [done|].
  intros Hl. rewrite decide_True by done. by rewrite IH.
Qed.

Lemma plain_find_reverse_tail l key old r :
  find l key = None → reverse l = old :: r → find (reverse r) key = None.
Proof.
  intros Hl Hr. assert (l = reverse r ++ [old]) as ->.
  { rewrite <- (reverse_involutive l), Hr. by rewrite reverse_cons. }
  unfold find in *. rewrite filter_app in Hl.
  destruct (filter _ (reverse r)); [done|discriminate].
Qed.

Lemma plain_same_config_Get c key : same_config c (Get c key).2.
Proof. unfold Get. by destruct (find _ _). Qed.

Lemma plain_same_config_Add c key p s : same_config c (Add c key p s).1.
Proof.
  unfold Add. destruct (find _ _) as [e|]; [done|].
  destruct (size c <? _); [|done]. by destruct (reverse _).
Qed.

Lemma plain_Remove_eq c key :
  Remove c key =
    (bool_decide (is_Some (find (evictList c) key)),
     with_list c (remove (evictList c) key)).
Proof.
  unfold Remove. destruct (find _ _) eqn:Hf.
  - by rewrite bool_decide_true by eauto.
  - rewrite bool_decide_false by (by intros [? ?]).
    by rewrite plain_remove_absent, plain_with_list_id.
Qed.

(** [Add] of an absent key to a plain LRU of capacity at least one: the
    new entry is the most recent one, and the callback runs at most
    once, on another entry. *)
Lemma plain_Add_absent c key p s :
  find (evictList c) key = None → 1 ≤ size c →
  ∃ l, (Add c key p s).1 = with_list c ({| ekey := key; evalue := p |} :: l) ∧
       find l key = None ∧
       ((Add c key p s).2 = s ∨ ∃ old, (Add c key p s).2 = fire c old s).
Proof.
  intros Hf Hsz. unfold Add. rewrite Hf.
  destruct (size c <? _) eqn:Hcap; [|by eauto].
  rewrite reverse_cons.
  destruct (reverse (evictList c)) as [|old r] eqn:Hr.
  { apply (f_equal reverse) in Hr. rewrite reverse_involutive in Hr.
    apply Z.ltb_lt in Hcap. rewrite Hr in Hcap. simpl in Hcap. lia. }
  simpl. rewrite reverse_app. simpl.
  exists (reverse r). split_and!; [done| |by eauto].
  by eapply plain_find_reverse_tail.
Qed.

End plain_facts.

Section lru_facts.
Import Lru.
Context {V : Type} (zero : V) {Env : Type}.
Implicit Types (x : ExpirationLRU V Env) (y : LazyLRU V Env) (s : shardLRU V Env)
  (l : LRU V Env) (key : string).

Lemma with_core_id x : with_core x (core x) (items x) = x.
Proof. by destruct x. Qed.

Lemma with_lcore_id y : with_lcore y (lcore y) (litems y) = y.
Proof. by destruct y. Qed.

Lemma shard_remove_absent x key :
  Expirable.find (Expirable.evictList (core x)) key = None → shard_remove x key = x.
Proof.
  intros Hf. unfold shard_remove. rewrite remove_absent by done.
  by rewrite with_list_id, with_core_id.
Qed.

Lemma lazy_remove_absent y key :
  Plain.find (Plain.evictList (lcore y)) key = None → lazy_remove y key = y.
Proof.
  intros Hf. unfold lazy_remove. rewrite plain_remove_absent by done.
  by rewrite plain_with_list_id, with_lcore_id.
Qed.

(** *** The slot of a key in a shard *)

Lemma peek_Expiration_None x key :
  peek zero (Expiration x) key = None ↔
  Expirable.find (Expirable.evictList (core x)) key = None.
Proof. simpl. by destruct (Expirable.find _ _). Qed.

Lemma peek_Lazy_None y key :
  peek zero (Lazy y) key = None ↔ Plain.find (Plain.evictList (lcore y)) key = None.
Proof. simpl. by destruct (Plain.find _ _). Qed.

Lemma peek_without s key key' :
  peek zero (without s key) key' =
    if decide (key' = key) then None else peek zero s key'.
Proof.
  destruct s as [x|y]; simpl.
  - rewrite find_remove. by destruct (decide (key' = key)).
  - rewrite plain_find_remove. by destruct (decide (key' = key)).
Qed.

Lemma without_absent s key : peek zero s key = None → without s key = s.
Proof.
  destruct s as [x|y]; intros Hp; simpl.
  - by rewrite shard_remove_absent by by apply peek_Expiration_None.
  - by rewrite lazy_remove_absent by by apply peek_Lazy_None.
Qed.

(** [Del] of a shard, in closed form: it removes the slot, reports
    whether there was one and counts; it calls nothing else. *)
Lemma shard_Del_eq s key (env : Env) :
  shard_Del s key env =
    (bool_decide (is_Some (peek zero s key)), without s key,
     if bool_decide (is_Some (peek zero s key))
     then IncrDelHit (shard_target s) env
     else IncrDelNotFound (shard_target s) env).
Proof.
  destruct s as [x|y]; simpl.
  - unfold Del. rewrite Remove_eq.
    by destruct (Expirable.find _ _) eqn:Hf.
  - unfold LazyLRU_Del. rewrite plain_Remove_eq.
    by destruct (Plain.find _ _) eqn:Hf.
Qed.

Lemma wf_shard l key : wf l → is_Some (shard l key).
Proof.
  destruct l as [x|hash slots]; simpl; [by eauto|]. intros Hne.
  apply lookup_lt_is_Some. unfold slot_index.
  assert (0 < Z.of_nat (length slots)) as Hlen by (destruct slots; [done|simpl; lia]).
  pose proof (Z.mod_pos_bound (hash key) _ Hlen). lia.
Qed.

Lemma shard_elem_of l key s : shard l key = Some s → s ∈ shards l.
Proof.
  destruct l as [y|hash slots]; simpl.
  - intros [= ->]. by apply list_elem_of_singleton.
  - apply list_elem_of_lookup_2.
Qed.

Lemma wf_set_shard l key s : wf l → wf (set_shard l key s).
Proof.
  destruct l as [y|hash slots]; simpl; [done|].
  intros Hne Hnil. apply (f_equal length) in Hnil.
  rewrite length_insert in Hnil. by destruct slots.
Qed.

Lemma Forall_set_shard (Q : shardLRU V Env → Prop) l key s :
  Forall Q (shards l) → Q s → Forall Q (shards (set_shard l key s)).
Proof.
  destruct l as [y|hash slots]; simpl; intros Hall Hx.
  - by apply Forall_singleton.
  - by apply Forall_insert.
Qed.

Lemma set_shard_id l key s : shard l key = Some s → set_shard l key s = l.
Proof.
  destruct l as [y|hash slots]; simpl.
  - by intros [= ->].
  - intros Hx. by rewrite list_insert_id.
Qed.

(** Reading the shard of [key'] after the shard of [key] was set. *)
Lemma shard_set_shard l key s s' key' :
  shard l key = Some s →
  shard (set_shard l key s') key' = Some s' ∧ shard l key' = Some s ∨
  shard (set_shard l key s') key' = shard l key' ∧ key' ≠ key.
Proof.
  destruct l as [y|hash slots]; simpl.
  - intros [= ->]. by left.
  - intros Hx. unfold slot_index. rewrite length_insert.
    fold (slot_index hash slots key) (slot_index hash slots key').
    destruct (decide (slot_index hash slots key' = slot_index hash slots key))
      as [Heq|Hne].
    + left. rewrite Heq. split; [|done].
      apply list_lookup_insert_eq. by eapply lookup_lt_Some.
    + right. split; [by apply list_lookup_insert_ne|]. by intros ->.
Qed.

Lemma shard_set_shard_eq l key s s' :
  shard l key = Some s → shard (set_shard l key s') key = Some s'.
Proof.
  intros Hx. by destruct (shard_set_shard l key s s' key Hx) as [[? _]|[_ ?]].
Qed.

Lemma lookup_remove_key l key key' :
  lookup zero (remove_key l key) key' =
    if decide (key' = key) then None else lookup zero l key'.
Proof.
  unfold remove_key, lookup.
  destruct (shard l key) as [s|] eqn:Hx.
  - destruct (shard_set_shard l key s (without s key) key' Hx)
      as [[-> ->]|[-> Hne]]; simpl.
    + apply peek_without.
    + by rewrite decide_False.
  - destruct (decide (key' = key)) as [->|]; [|done]. by rewrite Hx.
Qed.

Lemma cached_remove_key l key key' :
  cached zero (remove_key l key) key' =
    if decide (key' = key) then None else cached zero l key'.
Proof.
  unfold cached. rewrite lookup_remove_key. by destruct (decide (key' = key)).
Qed.

Lemma remove_key_absent l key : lookup zero l key = None → remove_key l key = l.
Proof.
  unfold remove_key, lookup. destruct (shard l key) as [s|] eqn:Hx; [|done].
  simpl. intros Hf. rewrite without_absent by done. by apply set_shard_id.
Qed.

(** [ExpirationLRU.Del], case by case. *)
Lemma Del_eq x key env :
  Del x key env =
    match Expirable.find (Expirable.evictList (core x)) key with
    | Some e => (true, shard_remove x key, IncrDelHit (target x) env)
    | None => (false, x, IncrDelNotFound (target x) env)
    end.
Proof.
  unfold Del, Expirable.Remove.
  destruct (Expirable.find _ _) as [e|]; [done|].
  by rewrite with_core_id.
Qed.

(** [ExpirationLRU.Get] on a hit. *)
Lemma Get_hit x now key fetch env e :
  Expirable.find (Expirable.evictList (core x)) key = Some e →
  now ≤ Expirable.expiresAt e →
  Get zero x now key fetch env =
    ((value (deref zero (items x) (Expirable.evalue e)),
      err (deref zero (items x) (Expirable.evalue e))),
     with_core x
       (Expirable.with_list (core x)
          (e :: Expirable.remove (Expirable.evictList (core x)) key)) (items x),
     IncrGetHit (target x) env).
Proof.
  intros Hf Hnow. unfold Get, Expirable.Get. rewrite Hf.
  destruct (Z.ltb_spec (Expirable.expiresAt e) now); [lia|done].
Qed.

End lru_facts.

(** * Facts about the coordinator *)

Section cache_facts.
Import Localcache.
Context {V : Type} (zero : V) {W : Type} (ro : RangeOrder).
Implicit Types (s : shared) (w : W) (e : Env (W := W)) (k key : string)
  (o : option_ W) (l : Lru.LRU V (Env (W := W))) (x : Lru.ExpirationLRU V (Env (W := W)))
  (y : Lru.LazyLRU V (Env (W := W))) (sd : Lru.shardLRU V (Env (W := W))).

(** *** The eviction callback *)

Lemma set_link_id s g : link s = Some g → set_link s g = s.
Proof. destruct s; simpl. by intros ->. Qed.

Lemma onEvict_snd key (v : V) e : (onEvict ro key v e).2 = e.2.
Proof.
  unfold onEvict. destruct (link e.1) as [g|]; [|done].
  destruct (Link.Del ro g key) as [D g']. by repeat case_decide.
Qed.

Lemma onEvict_link_None key (v : V) e : link e.1 = None → onEvict ro key v e = e.
Proof. unfold onEvict. by intros ->. Qed.

Lemma filter_ne_singleton key : filter (λ k, k ≠ key) (ro {[key]}) = [].
Proof.
  apply Permutation_nil_r. rewrite (range_keys_perm ro), elements_singleton.
  rewrite filter_cons. by destruct (decide (key ≠ key)).
Qed.

Lemma filter_ne_singleton_in key :
  filter (λ k, k ∉ ({[key]} ∪ ∅ : gset string)) (ro {[key]}) = [].
Proof.
  apply Permutation_nil_r. rewrite (range_keys_perm ro), elements_singleton.
  rewrite filter_cons. destruct (decide _) as [Hn|]; [set_solver|done].
Qed.

(** Once the linkage of [key] is drained, the callback finds no
    neighbour and changes nothing. *)
Lemma onEvict_drained key (v : V) e : glookup e.1 key = None → onEvict ro key v e = e.
Proof.
  unfold glookup, onEvict. destruct e as [s w]. simpl.
  destruct (link s) as [g|] eqn:Hg; [|done]. simpl. intros Hk.
  rewrite Del_absent by done.
  rewrite decide_True by (rewrite size_singleton; lia).
  rewrite filter_ne_singleton. rewrite decide_False by (simpl; lia).
  by rewrite set_link_id.
Qed.

Lemma onEvict_sh_ok key (v : V) e : sh_ok e.1 → sh_ok (onEvict ro key v e).1.
Proof.
  unfold onEvict, sh_ok. destruct (link e.1) as [g|] eqn:Hg; [|by rewrite Hg].
  intros Hwf. pose proof (wf_Del ro g key Hwf) as Hwf'.
  destruct (Link.Del ro g key) as [D g']. simpl in Hwf'.
  unfold try_send. by repeat case_decide.
Qed.

Lemma onEvict_link_is_None key (v : V) e :
  link (onEvict ro key v e).1 = None ↔ link e.1 = None.
Proof.
  unfold onEvict. destruct (link e.1) as [g|] eqn:Hg; [|by rewrite Hg].
  destruct (Link.Del ro g key) as [D g']. unfold try_send.
  by repeat case_decide.
Qed.

(** The callback of a shard made by [New] is [onEvict]. *)
Lemma fire_shard o x c' (en : Expirable.entry nat) h e :
  shard_ok zero ro o (Lru.Expiration x) → Expirable.same_config (Lru.core x) c' →
  Expirable.fire c' en (h, e) =
    (h, onEvict ro (Expirable.ekey en)
          (Lru.value (Lru.deref zero h (Expirable.evalue en))) e).
Proof.
  intros (_ & _ & _ & Hcb & _) (_ & _ & Hcb'). unfold Expirable.fire.
  by rewrite Hcb', Hcb.
Qed.

Lemma fire_lazy_shard o y c' (en : Plain.entry nat) h e :
  shard_ok zero ro o (Lru.Lazy y) → Plain.same_config (Lru.lcore y) c' →
  Plain.fire c' en (h, e) =
    (h, onEvict ro (Plain.ekey en)
          (Lru.lvalue (Lru.lderef zero h (Plain.evalue en))) e).
Proof.
  intros (_ & _ & Hcb & _) (_ & Hcb'). unfold Plain.fire.
  by rewrite Hcb', Hcb.
Qed.

Lemma same_config_refl {P S} (c : Expirable.LRU P S) : Expirable.same_config c c.
Proof. done. Qed.

Lemma plain_same_config_refl {P S} (c : Plain.LRU P S) : Plain.same_config c c.
Proof. done. Qed.

Lemma shard_ok_with_core o x c' h :
  shard_ok zero ro o (Lru.Expiration x) → Expirable.same_config (Lru.core x) c' →
  shard_ok zero ro o (Lru.Expiration (Lru.with_core x c' h)).
Proof.
  intros (Hm & Hs & Ht & Hcb & Htg) (Hs' & Ht' & Hcb'). unfold shard_ok. simpl.
  split_and!; congruence.
Qed.

Lemma shard_ok_with_lcore o y c' h :
  shard_ok zero ro o (Lru.Lazy y) → Plain.same_config (Lru.lcore y) c' →
  shard_ok zero ro o (Lru.Lazy (Lru.with_lcore y c' h)).
Proof.
  intros (Hm & Hs & Hcb & Hts & Htf & Htg) (Hs' & Hcb'). unfold shard_ok. simpl.
  split_and!; congruence.
Qed.

Lemma shard_ok_without o sd key :
  shard_ok zero ro o sd → shard_ok zero ro o (Lru.without sd key).
Proof.
  destruct sd as [x|y]; intros Hok.
  - by apply shard_ok_with_core.
  - by apply shard_ok_with_lcore.
Qed.

Lemma shard_ok_target o sd :
  shard_ok zero ro o sd → Lru.shard_target sd = lift_target (target o).
Proof. destruct sd as [x|y]; simpl; tauto. Qed.

Lemma lru_ok_set_shard o l key sd :
  lru_ok zero ro o l → shard_ok zero ro o sd → lru_ok zero ro o (Lru.set_shard l key sd).
Proof.
  intros (Hcap & Hwf & Hall) Hx.
  split_and!; [done|by apply wf_set_shard|by apply Forall_set_shard].
Qed.

Lemma lru_ok_shard o l key :
  lru_ok zero ro o l → ∃ sd, Lru.shard l key = Some sd ∧ shard_ok zero ro o sd.
Proof.
  intros (Hcap & Hwf & Hall). destruct (wf_shard l key Hwf) as [x Hx]. exists x.
  split; [done|]. eapply Forall_forall; [done|]. by eapply shard_elem_of.
Qed.

Lemma lru_ok_remove_key o l key :
  lru_ok zero ro o l → lru_ok zero ro o (Lru.remove_key l key).
Proof.
  intros Hok. destruct (lru_ok_shard o l key Hok) as (x & Hx & Hxok).
  unfold Lru.remove_key. rewrite Hx. apply lru_ok_set_shard; [done|].
  by apply shard_ok_without.
Qed.

(** *** Explicit delete on the shard LRU of the cache *)

(** Deleting [key] from the shard LRU removes its entry and counts;
    nothing else changes: the eviction callback is not called. *)
Lemma LRU_Del_eq o l key s w :
  lru_ok zero ro o l →
  Lru.LRU_Del l key (s, w) =
    (bool_decide (is_Some (Lru.lookup zero l key)), Lru.remove_key l key,
     (s, del_count zero o l key w)).
Proof.
  intros Hok. destruct (lru_ok_shard o l key Hok) as (x & Hx & Hxok).
  unfold Lru.LRU_Del, Lru.remove_key, del_count, Lru.lookup. rewrite Hx. simpl.
  rewrite (shard_Del_eq zero), (shard_ok_target o) by done.
  by destruct (Lru.peek zero x key).
Qed.

(** *** The loop of [cache.del] *)

Lemma glookup_set_link s g k : glookup (set_link s g) k = Link.lookup g k.
Proof. done. Qed.

(** One iteration on a key that was not deleted yet. *)
Lemma del_loop_step o fuel deleted curr rest l s w :
  lru_ok zero ro o l → sh_ok s → curr ∉ deleted →
  del_loop ro (S fuel) deleted (curr :: rest) l (s, w) =
    match link s with
    | Some g =>
        del_loop ro fuel ({[curr]} ∪ deleted)
          (rest ++ filter (λ k, k ∉ {[curr]} ∪ deleted) (ro (Link.Del ro g curr).1))
          (Lru.remove_key l curr)
          (set_link s (Link.Del ro g curr).2, del_count zero o l curr w)
    | None =>
        del_loop ro fuel ({[curr]} ∪ deleted) rest (Lru.remove_key l curr)
          (s, del_count zero o l curr w)
    end.
Proof.
  intros Hok Hsh Hnin. cbn [del_loop]. rewrite decide_False by done.
  unfold sh_ok in Hsh. cbn [fst snd]. destruct (link s) as [g|] eqn:Hg.
  - destruct (Link.Del ro g curr) as [D g1] eqn:Hdel.
    by rewrite (LRU_Del_eq o) by done.
  - by rewrite (LRU_Del_eq o) by done.
Qed.

Lemma del_loop_skip fuel deleted curr rest l e :
  curr ∈ deleted →
  del_loop ro (S fuel) deleted (curr :: rest) l e = del_loop ro fuel deleted rest l e.
Proof. intros Hin. cbn [del_loop]. by rewrite decide_True. Qed.

Lemma sh_ok_set_link s g : Link.wf g → sh_ok (set_link s g).
Proof. done. Qed.

(** What the loop guarantees, whatever the fuel: it only removes, it
    never sends on [pendingDel], and every key it took from the queue is
    gone from the shard LRU and from the linkage graph. *)
Lemma del_loop_spec o fuel deleted toDelete l s w l' s' w' rest :
  lru_ok zero ro o l → sh_ok s →
  del_loop ro fuel deleted toDelete l (s, w) = (l', (s', w'), rest) →
  lru_ok zero ro o l' ∧ sh_ok s' ∧
  pendingDel s' = pendingDel s ∧ once s' = once s ∧
  (link s' = None ↔ link s = None) ∧
  (∀ k, Lru.lookup zero l' k = None ∨
        Lru.lookup zero l' k = Lru.lookup zero l k ∧ Lru.cached zero l' k = Lru.cached zero l k) ∧
  (∀ k, glookup s' k = None ∨ glookup s' k = glookup s k) ∧
  (∀ k, k ∈ toDelete →
        k ∈ deleted ∨ k ∈ rest ∨ Lru.lookup zero l' k = None ∧ glookup s' k = None).
Proof.
  revert deleted toDelete l s w.
  induction fuel as [|fuel IH]; intros deleted toDelete l s w Hok Hsh Hrun.
  - assert (l' = l ∧ s' = s ∧ rest = toDelete) as (-> & -> & ->).
    { destruct toDelete; simpl in Hrun; by simplify_eq. }
    split_and!; auto.
  - destruct toDelete as [|curr toDelete].
    { simpl in Hrun. simplify_eq. split_and!; auto. }
    destruct (decide (curr ∈ deleted)) as [Hin|Hnin].
    + rewrite del_loop_skip in Hrun by done.
      apply IH in Hrun as (?&?&?&?&?&?&?&Hq); [|done..].
      split_and!; try done.
      intros k [->|Hk]%elem_of_cons; [by left|by apply Hq].
    + rewrite (del_loop_step o) in Hrun by done.
      pose proof (lru_ok_remove_key o l curr Hok) as Hok1.
      pose proof (lookup_remove_key zero l curr) as Hl1.
      pose proof (cached_remove_key zero l curr) as Hc1.
      unfold sh_ok in Hsh. destruct (link s) as [g|] eqn:Hg.
      * destruct (Link.Del ro g curr) as [D g1] eqn:Hdel.
        apply Del_spec in Hdel as (Hwf1 & _ & Hin & Hlk & _); [|done].
        cbn [fst snd] in Hrun.
        apply IH in Hrun as (?&?&Hpd&Hon&Hln&Hmono&Hgm&Hq); [|done..].
        assert (∀ k, glookup s k = Link.lookup g k) as Hgs.
        { intros k. unfold glookup. by rewrite Hg. }
        split_and!; try done.
        -- rewrite Hln. done.
        -- intros k. destruct (Hmono k) as [?|[-> ->]]; [by left|].
           rewrite Hl1, Hc1. destruct (decide (k = curr)); auto.
        -- intros k. destruct (Hgm k) as [?| ->]; [by left|].
           rewrite glookup_set_link, Hlk, Hgs. destruct (decide (k ∈ D)); auto.
        -- intros k [->|Hk]%elem_of_cons.
           ++ right. right. split.
              ** destruct (Hmono curr) as [?|[-> _]]; [done|].
                 by rewrite Hl1, decide_True.
              ** destruct (Hgm curr) as [?| ->]; [done|].
                 by rewrite glookup_set_link, Hlk, decide_True.
           ++ destruct (Hq k) as [Hd|?]; [set_solver| |by right].
              apply elem_of_union in Hd as [->%elem_of_singleton|?]; [|by left].
              right. right. split.
              ** destruct (Hmono curr) as [?|[-> _]]; [done|].
                 by rewrite Hl1, decide_True.
              ** destruct (Hgm curr) as [?| ->]; [done|].
                 by rewrite glookup_set_link, Hlk, decide_True.
      * apply IH in Hrun as (?&?&Hpd&Hon&Hln&Hmono&Hgm&Hq);
          [|done|by unfold sh_ok; rewrite Hg].
        assert (∀ k, glookup s' k = None) as Hgn.
        { intros k. unfold glookup. by rewrite (proj2 Hln Hg). }
        split_and!; try done.
        -- by rewrite (proj2 Hln Hg).
        -- intros k. destruct (Hmono k) as [?|[-> ->]]; [by left|].
           rewrite Hl1, Hc1. destruct (decide (k = curr)); auto.
        -- intros k [->|Hk]%elem_of_cons.
           ++ right. right. split; [|apply Hgn].
              destruct (Hmono curr) as [?|[-> _]]; [done|].
              by rewrite Hl1, decide_True.
           ++ destruct (Hq k Hk) as [Hd|?]; [|by right].
              apply elem_of_union in Hd as [->%elem_of_singleton|?]; [|by left].
              right. right. split; [|apply Hgn].
              destruct (Hmono curr) as [?|[-> _]]; [done|].
              by rewrite Hl1, decide_True.
Qed.

(** The loop empties its queue when the fuel covers the measure. *)
Lemma del_loop_terminates o fuel deleted toDelete l s w :
  lru_ok zero ro o l → sh_ok s →
  (length toDelete + gweight s ≤ fuel)%nat →
  (del_loop ro fuel deleted toDelete l (s, w)).2 = [].
Proof.
  revert deleted toDelete l s w.
  induction fuel as [|fuel IH]; intros deleted toDelete l s w Hok Hsh Hf.
  - destruct toDelete; [done|simpl in Hf; lia].
  - destruct toDelete as [|curr toDelete]; [done|]. simpl in Hf.
    destruct (decide (curr ∈ deleted)) as [Hin|Hnin].
    + rewrite del_loop_skip by done. apply IH; [done..|lia].
    + rewrite (del_loop_step o) by done.
      pose proof (lru_ok_remove_key o l curr Hok) as Hok1.
      unfold sh_ok in Hsh. unfold gweight in Hf.
      destruct (link s) as [g|] eqn:Hg.
      * destruct (Link.Del ro g curr) as [D g1] eqn:Hdel.
        apply Del_spec in Hdel as (Hwf1 & _ & Hin & _ & _ & _ & Hsz); [|done].
        cbn [fst snd]. apply IH; [done..|].
        rewrite length_app. unfold gweight. simpl.
        assert (length (filter (λ k, k ∉ {[curr]} ∪ deleted) (ro D)) < size D)%nat.
        { pose proof (length_range_opt ro (Some D)) as HL. simpl in HL. rewrite <- HL.
          apply (length_filter_lt _ _ curr); [by apply elem_of_range|set_solver]. }
        lia.
      * apply IH; [done|by unfold sh_ok; rewrite Hg|]. unfold gweight. rewrite Hg. lia.
Qed.

(** The cache the loop leaves does not depend on the caller's state. *)
Lemma del_loop_world o fuel deleted toDelete l s w1 w2 :
  lru_ok zero ro o l → sh_ok s →
  (del_loop ro fuel deleted toDelete l (s, w1)).1.1 =
    (del_loop ro fuel deleted toDelete l (s, w2)).1.1 ∧
  (del_loop ro fuel deleted toDelete l (s, w1)).1.2.1 =
    (del_loop ro fuel deleted toDelete l (s, w2)).1.2.1.
Proof.
  revert deleted toDelete l s w1 w2.
  induction fuel as [|fuel IH]; intros deleted toDelete l s w1 w2 Hok Hsh.
  - by destruct toDelete.
  - destruct toDelete as [|curr toDelete]; [done|].
    destruct (decide (curr ∈ deleted)) as [Hin|Hnin].
    + rewrite !del_loop_skip by done. by apply IH.
    + rewrite !(del_loop_step o) by done.
      pose proof (lru_ok_remove_key o l curr Hok) as Hok1.
      unfold sh_ok in Hsh. destruct (link s) as [g|] eqn:Hg.
      * apply IH; [done|]. apply sh_ok_set_link. by apply wf_Del.
      * apply IH; [done|]. unfold sh_ok. by rewrite Hg.
Qed.

End cache_facts.

Section get_facts.
Import Localcache.
Context {V : Type} (zero : V) {W : Type} (ro : RangeOrder).
Implicit Types (s : shared) (w : W) (e : Env (W := W)) (k key : string)
  (o : option_ W) (l : Lru.LRU V (Env (W := W))) (x : Lru.ExpirationLRU V (Env (W := W)))
  (y : Lru.LazyLRU V (Env (W := W))) (sd : Lru.shardLRU V (Env (W := W)))
  (sl : Lru.slot V).

Implicit Types (fetch : W → (V * option error) * W).

Local Abbreviation zero_item := {| Lru.err := None; Lru.value := zero |}.
Local Abbreviation zero_litem :=
  {| Lru.expires := 0; Lru.lerr := None; Lru.lvalue := zero |}.

Lemma env_step_refl e : env_step e e.
Proof. done. Qed.

Lemma env_step_onEvict key (v : V) e : env_step e (onEvict ro key v e).
Proof.
  split_and!.
  - apply onEvict_snd.
  - apply onEvict_link_None.
  - apply onEvict_sh_ok.
Qed.

Lemma env_step_trans e1 e2 e3 : env_step e1 e2 → env_step e2 e3 → env_step e1 e3.
Proof.
  intros (H1 & H2 & H3) (H1' & H2' & H3'). split_and!.
  - congruence.
  - intros Hn. specialize (H2 Hn). subst e2. auto.
  - auto.
Qed.

Lemma env_step_evicted e e1 :
  (e1 = e ∨ ∃ k (v : V), e1 = onEvict ro k v e) → env_step e e1.
Proof. intros [->|(k & v & ->)]; [apply env_step_refl|apply env_step_onEvict]. Qed.

Lemma env_step_wrap_fetch key fetch links e :
  (wrap_fetch key fetch links e).1 = (fetch e.2).1 ∧
  (wrap_fetch key fetch links e).2.2 = (fetch e.2).2 ∧
  (link e.1 = None → (wrap_fetch key fetch links e).2.1 = e.1) ∧
  (links = [] → (wrap_fetch key fetch links e).2.1 = e.1) ∧
  (sh_ok e.1 → sh_ok (wrap_fetch key fetch links e).2.1).
Proof.
  unfold wrap_fetch. destruct (fetch e.2) as [r w']. simpl.
  split_and!; try done.
  - intros ->. by destruct links.
  - by intros ->.
  - unfold sh_ok. destruct links as [|l0 links]; [done|].
    destruct (link e.1) as [g|] eqn:Hg; [|by rewrite Hg].
    intros Hwf. exact (wf_Link g key (l0 :: links) Hwf).
Qed.

(** *** [Get] of a shard, case by case *)

(** On a cold key, in a shard made by [New] of capacity at least one:
    room is made for the key, which may run the eviction callback once,
    on another key; then the fetcher runs and its outcome is returned.
    A value is stored with the success TTL.  An error is not retained
    by the active-expiry shard, and is stored with the failure TTL by
    the lazy-expiry one. *)
Lemma shard_Get_cold o sd now key (fetchE : Lru.fetcher V (Env (W := W))) e :
  shard_ok zero ro o sd → Lru.peek zero sd key = None → 1 ≤ localSlotSize o →
  ∃ e1 sd', (e1 = e ∨ ∃ k (v : V), e1 = onEvict ro k v e) ∧
    shard_ok zero ro o sd' ∧
    let r := fetchE e1 in
    Lru.shard_Get zero sd now key fetchE e =
      (r.1, sd',
       (r.2.1, match r.1.2 with
               | None => Lru.IncrGetSuccess (target o) r.2.2
               | Some _ => Lru.IncrGetFailed (target o) r.2.2
               end)) ∧
    Lru.peek zero sd' key =
      match r.1.2 with
      | None =>
          Some {| Lru.s_deadline := now + localSuccessTTL o; Lru.s_err := None;
                  Lru.s_value := r.1.1 |}
      | Some m =>
          if expirationEvict o then None
          else Some {| Lru.s_deadline := now + localFailedTTL o; Lru.s_err := Some m;
                       Lru.s_value := r.1.1 |}
      end.
Proof.
  intros Hxok Hp Hcap. destruct sd as [x|y].
  - pose proof Hxok as (Hm & Hs & Ht & Hcb & Htg).
    apply peek_Expiration_None in Hp.
    set (p := length (Lru.items x)).
    set (h0 := Lru.items x ++ [zero_item]).
    destruct (Add_absent (Lru.core x) now key p (h0, e) Hp ltac:(lia))
      as (lst & Hadd1 & Hlst & Hadd2).
    assert (∃ e1, (Expirable.Add (Lru.core x) now key p (h0, e)).2 = (h0, e1) ∧
                  (e1 = e ∨ ∃ k (v : V), e1 = onEvict ro k v e)) as (e1 & Hadd2' & Hstep).
    { destruct Hadd2 as [->|[old ->]]; [by eauto|].
      rewrite (fire_shard zero ro o x) by done. eauto 10. }
    exists e1.
    assert (Lru.shard_Get zero (Lru.Expiration x) now key fetchE e =
              let r := fetchE e1 in
              let h := <[p := {| Lru.err := r.1.2; Lru.value := r.1.1 |}]> h0 in
              match r.1.2 with
              | None =>
                  (r.1,
                   Lru.Expiration
                     (Lru.with_core x
                        (Expirable.with_list (Lru.core x)
                           ({| Expirable.ekey := key; Expirable.evalue := p;
                               Expirable.expiresAt := now + localSuccessTTL o |} :: lst)) h),
                   (r.2.1, Lru.IncrGetSuccess (target o) r.2.2))
              | Some _ =>
                  (r.1,
                   Lru.Expiration
                     (Lru.with_core x (Expirable.with_list (Lru.core x) lst) h),
                   (r.2.1, Lru.IncrGetFailed (target o) r.2.2))
              end) as Hget.
    { cbn [Lru.shard_Get]. unfold Lru.Get, Expirable.Get. rewrite Hp.
      fold p h0. destruct (Expirable.Add (Lru.core x) now key p (h0, e)) as [c1 st1].
      simpl in Hadd1, Hadd2'. subst c1 st1. cbn zeta.
      destruct (fetchE e1) as [[v er] [s2 w2]]. cbn [fst snd].
      rewrite Ht, Htg. destruct er as [m|]; [|done].
      rewrite Remove_eq. cbn [Expirable.evictList Expirable.with_list fst snd].
      unfold Expirable.remove. rewrite filter_cons, decide_False by (simpl; auto).
      fold (Expirable.remove lst key). by rewrite remove_absent by done. }
    cbn zeta in Hget |- *. destruct (fetchE e1) as [[v er] [s2 w2]]. cbn [fst snd] in *.
    destruct er as [m|]; eexists; (split_and!; [done| |exact Hget|]).
    + by apply shard_ok_with_core.
    + simpl. rewrite Hlst. by rewrite Hm.
    + by apply shard_ok_with_core.
    + simpl. rewrite find_cons, decide_True by done. simpl.
      unfold Lru.deref, h0. rewrite list_lookup_insert_eq; [done|].
      rewrite length_app. simpl. lia.
  - pose proof Hxok as (Hm & Hs & Hcb & Hts & Htf & Htg).
    apply peek_Lazy_None in Hp.
    set (p := length (Lru.litems y)).
    set (h0 := Lru.litems y ++ [zero_litem]).
    destruct (plain_Add_absent (Lru.lcore y) key p (h0, e) Hp ltac:(lia))
      as (lst & Hadd1 & Hlst & Hadd2).
    assert (∃ e1, (Plain.Add (Lru.lcore y) key p (h0, e)).2 = (h0, e1) ∧
                  (e1 = e ∨ ∃ k (v : V), e1 = onEvict ro k v e)) as (e1 & Hadd2' & Hstep).
    { destruct Hadd2 as [->|[old ->]]; [by eauto|].
      rewrite (fire_lazy_shard zero ro o y) by done. eauto 10. }
    exists e1.
    assert (Lru.shard_Get zero (Lru.Lazy y) now key fetchE e =
              let r := fetchE e1 in
              let it :=
                {| Lru.expires := now + match r.1.2 with
                                        | None => localSuccessTTL o
                                        | Some _ => localFailedTTL o
                                        end;
                   Lru.lerr := r.1.2; Lru.lvalue := r.1.1 |} in
              (r.1,
               Lru.Lazy
                 (Lru.with_lcore y
                    (Plain.with_list (Lru.lcore y)
                       ({| Plain.ekey := key; Plain.evalue := p |} :: lst))
                    (<[p := it]> h0)),
               (r.2.1, match r.1.2 with
                       | None => Lru.IncrGetSuccess (target o) r.2.2
                       | Some _ => Lru.IncrGetFailed (target o) r.2.2
                       end))) as Hget.
    { cbn [Lru.shard_Get]. unfold Lru.LazyLRU_Get, Plain.Get. rewrite Hp.
      unfold Lru.LazyLRU_miss. fold p h0.
      destruct (Plain.Add (Lru.lcore y) key p (h0, e)) as [c1 st1].
      simpl in Hadd1, Hadd2'. subst c1 st1. cbn zeta.
      destruct (fetchE e1) as [[v er] [s2 w2]]. cbn [fst snd].
      rewrite Hts, Htf, Htg. by destruct er as [m|]. }
    cbn zeta in Hget |- *. eexists. split_and!; [done| |exact Hget|].
    + by apply shard_ok_with_lcore.
    + destruct (fetchE e1) as [[v er] [s2 w2]]. cbn [fst snd] in *.
      simpl. rewrite plain_find_cons, decide_True by done. simpl.
      unfold Lru.lderef, h0. rewrite list_lookup_insert_eq
        by (rewrite length_app; simpl; lia).
      simpl. destruct er as [m|]; [|done]. by rewrite Hm.
Qed.

(** On a key whose slot has not passed its deadline: the outcome of
    the slot is returned, the fetcher and the callback are not called,
    and every slot stays as it is. *)
Lemma shard_Get_hit o sd now key (fetchE : Lru.fetcher V (Env (W := W))) e sl :
  shard_ok zero ro o sd → Lru.peek zero sd key = Some sl → now ≤ Lru.s_deadline sl →
  ∃ sd', shard_ok zero ro o sd' ∧
    Lru.shard_Get zero sd now key fetchE e =
      ((Lru.s_value sl, Lru.s_err sl), sd', (e.1, Lru.IncrGetHit (target o) e.2)) ∧
    ∀ k, Lru.peek zero sd' k = Lru.peek zero sd k.
Proof.
  intros Hxok Hp Hnow. destruct sd as [x|y].
  - pose proof Hxok as (Hm & Hs & Ht & Hcb & Htg). simpl in Hp.
    destruct (Expirable.find _ _) as [en|] eqn:Hf; [|done].
    simpl in Hp. injection Hp as <-. simpl in Hnow.
    eexists. split_and!.
    2:{ cbn [Lru.shard_Get]. rewrite (Get_hit zero x now key _ _ en) by done.
        by rewrite Htg. }
    + by apply shard_ok_with_core.
    + intros k. simpl. rewrite find_cons, find_remove, (find_key _ _ _ Hf).
      destruct (decide (key = k)) as [->|Hne].
      * by rewrite Hf.
      * by rewrite decide_False by congruence.
  - pose proof Hxok as (Hm & Hs & Hcb & Hts & Htf & Htg). simpl in Hp.
    destruct (Plain.find _ _) as [en|] eqn:Hf; [|done].
    simpl in Hp. injection Hp as <-. simpl in Hnow.
    eexists. split_and!.
    2:{ cbn [Lru.shard_Get]. unfold Lru.LazyLRU_Get, Plain.Get. rewrite Hf.
        destruct (Z.ltb_spec (Lru.expires (Lru.lderef zero (Lru.litems y)
                                             (Plain.evalue en))) now); [lia|].
        by rewrite Htg. }
    + by apply shard_ok_with_lcore.
    + intros k. simpl. rewrite plain_find_cons, plain_find_remove, (plain_find_key _ _ _ Hf).
      destruct (decide (key = k)) as [->|Hne].
      * by rewrite Hf.
      * by rewrite decide_False by congruence.
Qed.

(** On a key whose slot is past its deadline: the slot is removed and
    the call goes on as on a cold key.  The active-expiry shard runs
    the eviction callback on the removed slot; the lazy-expiry shard
    does not. *)
Lemma shard_Get_stale o sd now key (fetchE : Lru.fetcher V (Env (W := W))) e sl :
  shard_ok zero ro o sd → Lru.peek zero sd key = Some sl → Lru.s_deadline sl < now →
  Lru.shard_Get zero sd now key fetchE e =
    Lru.shard_Get zero (Lru.without sd key) now key fetchE
      (if expirationEvict o then onEvict ro key (Lru.s_value sl) e else e).
Proof.
  intros Hxok Hp Hexp. destruct sd as [x|y].
  - pose proof Hxok as (Hm & _). rewrite Hm. simpl in Hp.
    destruct (Expirable.find _ _) as [en|] eqn:Hf; [|done].
    simpl in Hp. injection Hp as <-. simpl in Hexp.
    cbn [Lru.shard_Get Lru.without Lru.s_value].
    unfold Lru.Get at 1. unfold Expirable.Get. rewrite Hf.
    destruct (Z.ltb_spec (Expirable.expiresAt en) now); [|lia].
    rewrite (fire_shard zero ro o x) by done. rewrite (find_key _ _ _ Hf).
    unfold Lru.Get, Expirable.Get, Lru.shard_remove. simpl.
    by rewrite find_remove, decide_True.
  - pose proof Hxok as (Hm & _). rewrite Hm. simpl in Hp.
    destruct (Plain.find _ _) as [en|] eqn:Hf; [|done].
    simpl in Hp. injection Hp as <-. simpl in Hexp.
    cbn [Lru.shard_Get Lru.without].
    unfold Lru.LazyLRU_Get at 1. unfold Plain.Get. rewrite Hf.
    destruct (Z.ltb_spec (Lru.expires (Lru.lderef zero (Lru.litems y)
                                         (Plain.evalue en))) now); [|lia].
    rewrite plain_Remove_eq. cbn [Plain.evictList Plain.with_list].
    unfold Lru.LazyLRU_Get, Plain.Get, Lru.lazy_remove.
    cbn [Lru.lcore Lru.with_lcore Plain.evictList Plain.with_list].
    rewrite plain_find_remove, decide_True by done.
    assert (Plain.remove (en :: Plain.remove (Plain.evictList (Lru.lcore y)) key) key =
            Plain.remove (Plain.evictList (Lru.lcore y)) key) as ->.
    { unfold Plain.remove at 1. rewrite filter_cons.
      rewrite decide_False by (rewrite (plain_find_key _ _ _ Hf); auto).
      apply plain_remove_absent. by rewrite plain_find_remove, decide_True. }
    done.
Qed.

Lemma lookup_set_shard_eq l key sd sd' :
  Lru.shard l key = Some sd →
  Lru.lookup zero (Lru.set_shard l key sd') key = Lru.peek zero sd' key.
Proof. intros Hx. unfold Lru.lookup. by rewrite (shard_set_shard_eq l key sd). Qed.

Lemma lookup_set_shard_same l key sd sd' :
  Lru.shard l key = Some sd → (∀ k, Lru.peek zero sd' k = Lru.peek zero sd k) →
  ∀ k, Lru.lookup zero (Lru.set_shard l key sd') k = Lru.lookup zero l k.
Proof.
  intros Hx Hsame k. unfold Lru.lookup.
  destruct (shard_set_shard l key sd sd' k Hx) as [[-> ->]|[-> Hne]]; [|done].
  simpl. apply Hsame.
Qed.

(** [GetLink] on a cold key: the fetcher runs once, on the caller's
    state as the call found it, and its outcome is returned; a value is
    cached until its deadline; an error is not retained in active-expiry
    mode, and is cached for the failure TTL in lazy-expiry mode. *)
Lemma GetLink_miss c l now key fetch links w :
  local c = Some l → lru_ok zero ro (opt c) l → Lru.lookup zero l key = None →
  let res := GetLink zero c now key fetch links w in
  res.1.1 = (fetch w).1 ∧
  opt res.1.2 = opt c ∧
  (∃ l', local res.1.2 = Some l' ∧ lru_ok zero ro (opt c) l') ∧
  (link (sh c) = None → sh res.1.2 = sh c) ∧
  (sh_ok (sh c) → sh_ok (sh res.1.2)) ∧
  res.2 = match (fetch w).1.2 with
          | None => Lru.IncrGetSuccess (target (opt c)) (fetch w).2
          | Some _ => Lru.IncrGetFailed (target (opt c)) (fetch w).2
          end ∧
  lookup zero res.1.2 key =
    match (fetch w).1.2 with
    | None =>
        Some {| Lru.s_deadline := now + localSuccessTTL (opt c); Lru.s_err := None;
                Lru.s_value := (fetch w).1.1 |}
    | Some m =>
        if expirationEvict (opt c) then None
        else Some {| Lru.s_deadline := now + localFailedTTL (opt c);
                     Lru.s_err := Some m; Lru.s_value := (fetch w).1.1 |}
    end.
Proof.
  intros Hl Hok Hk res. subst res.
  destruct (lru_ok_shard zero ro (opt c) l key Hok) as (sd & Hx & Hxok).
  assert (Lru.peek zero sd key = None) as Hf.
  { unfold Lru.lookup in Hk. by rewrite Hx in Hk. }
  destruct (shard_Get_cold (opt c) sd now key (wrap_fetch key fetch links) (sh c, w)
              Hxok Hf ltac:(destruct Hok; lia))
    as (e1 & sd' & Hev & Hok' & Hget & Hpeek).
  destruct (env_step_evicted _ _ Hev) as (Hs1 & Hs2 & Hs3).
  unfold GetLink, Lru.LRU_Get. rewrite Hl, Hx. cbn zeta in Hget, Hpeek. rewrite Hget.
  clear Hget.
  pose proof (env_step_wrap_fetch key fetch links e1) as (Hr1 & Hr2 & Hr3 & _ & Hr5).
  simpl in Hs1, Hs2, Hs3. rewrite Hs1 in Hr1, Hr2.
  destruct (wrap_fetch key fetch links e1) as [[v er] [s2 w2]].
  destruct (fetch w) as [[v' er'] w'']. simpl in Hr1, Hr2, Hr3, Hr5.
  injection Hr1 as -> ->. subst w''. cbn [fst snd] in *.
  split_and!; try done.
  - eexists. split; [done|]. by apply lru_ok_set_shard.
  - intros Hn. specialize (Hs2 Hn). subst e1. simpl in Hr3. by apply Hr3.
  - auto.
  - unfold lookup. simpl. by rewrite (lookup_set_shard_eq l key sd).
Qed.

(** [GetLink] on a hit: the cached outcome is returned, the fetcher is
    not called, and the contents of the cache are the same. *)
Lemma GetLink_hit c l now key fetch links w sl :
  local c = Some l → lru_ok zero ro (opt c) l →
  Lru.lookup zero l key = Some sl → now ≤ Lru.s_deadline sl →
  let res := GetLink zero c now key fetch links w in
  res.1.1 = (Lru.s_value sl, Lru.s_err sl) ∧
  res.2 = Lru.IncrGetHit (target (opt c)) w ∧
  opt res.1.2 = opt c ∧ sh res.1.2 = sh c ∧
  (∃ l', local res.1.2 = Some l' ∧ lru_ok zero ro (opt c) l') ∧
  (∀ k, lookup zero res.1.2 k = lookup zero c k ∧
        cached zero res.1.2 k = cached zero c k).
Proof.
  intros Hl Hok Hk Hnow res. subst res.
  destruct (lru_ok_shard zero ro (opt c) l key Hok) as (sd & Hx & Hxok).
  unfold Lru.lookup in Hk. rewrite Hx in Hk. simpl in Hk.
  destruct (shard_Get_hit (opt c) sd now key (wrap_fetch key fetch links) (sh c, w) sl
              Hxok Hk Hnow) as (sd' & Hok' & Hget & Hsame).
  unfold GetLink, Lru.LRU_Get. rewrite Hl, Hx, Hget. cbn [fst snd].
  split_and!; try done.
  - eexists. split; [done|]. by apply lru_ok_set_shard.
  - intros k. unfold lookup, cached, Lru.cached. rewrite Hl. simpl.
    by rewrite (lookup_set_shard_same l key sd sd').
Qed.

Lemma set_shard_set_shard l key sd sd' :
  Lru.set_shard (Lru.set_shard l key sd) key sd' = Lru.set_shard l key sd'.
Proof.
  destruct l as [y|hash slots]; simpl; [done|].
  unfold Lru.slot_index. rewrite length_insert. by rewrite list_insert_insert_eq.
Qed.

(** [GetLink] on a key whose slot is past its deadline is [GetLink] on
    the cache without that slot: after the eviction callback in
    active-expiry mode, with the shared fields as they are in
    lazy-expiry mode. *)
Lemma GetLink_expired c l now key fetch links w sl :
  local c = Some l → lru_ok zero ro (opt c) l →
  Lru.lookup zero l key = Some sl → Lru.s_deadline sl < now →
  ∃ s', (s', w) = (if expirationEvict (opt c)
                   then onEvict ro key (Lru.s_value sl) (sh c, w) else (sh c, w)) ∧
    env_step (sh c, w) (s', w) ∧
    GetLink zero c now key fetch links w =
      GetLink zero {| opt := opt c; local := Some (Lru.remove_key l key); sh := s' |}
        now key fetch links w.
Proof.
  intros Hl Hok Hk Hexp.
  destruct (lru_ok_shard zero ro (opt c) l key Hok) as (sd & Hx & Hxok).
  unfold Lru.lookup in Hk. rewrite Hx in Hk. simpl in Hk.
  pose proof (shard_Get_stale (opt c) sd now key (wrap_fetch key fetch links)
                (sh c, w) sl Hxok Hk Hexp) as Hget.
  set (e1 := if expirationEvict (opt c)
             then onEvict ro key (Lru.s_value sl) (sh c, w) else (sh c, w)) in *.
  assert (env_step (sh c, w) e1) as Hstep.
  { unfold e1. destruct (expirationEvict (opt c));
      [apply env_step_onEvict|apply env_step_refl]. }
  destruct e1 as [s' w'] eqn:He1.
  assert (w' = w) as -> by (by destruct Hstep as [? _]).
  exists s'. split_and!; [done..|].
  unfold GetLink, Lru.LRU_Get, Lru.remove_key. cbn [local opt sh].
  rewrite Hl, Hx, (shard_set_shard_eq l key sd) by done. rewrite Hget.
  destruct (Lru.shard_Get zero (Lru.without sd key) now key
              (wrap_fetch key fetch links) (s', w)) as [[r x'] e'].
  by rewrite set_shard_set_shard.
Qed.

(** [GetLink] keeps the cache well-formed, and leaves a disabled
    linkage disabled. *)
Lemma GetLink_ok c now key fetch links w :
  cache_ok zero ro c →
  let res := GetLink zero c now key fetch links w in
  cache_ok zero ro res.1.2 ∧ opt res.1.2 = opt c ∧
  (link (sh c) = None → sh res.1.2 = sh c) ∧
  (is_Some (local c) → is_Some (local res.1.2)).
Proof.
  intros [Hlok Hsh] res. subst res. destruct (local c) as [l|] eqn:Hl.
  - destruct (Lru.lookup zero l key) as [sl|] eqn:Hk.
    + destruct (Z.ltb_spec (Lru.s_deadline sl) now) as [Hexp|Hlive].
      * destruct (GetLink_expired c l now key fetch links w sl)
          as (s' & _ & (_ & Hs2 & Hs3) & ->); [done..|].
        edestruct (GetLink_miss {| opt := opt c; local := Some (Lru.remove_key l key);
                                  sh := s' |} (Lru.remove_key l key) now key fetch links w)
          as (_ & Ho & (l' & Hl' & Hok') & Hn & Hshok & _); [done| | |].
        { by apply lru_ok_remove_key. }
        { by rewrite lookup_remove_key, decide_True. }
        simpl in *. split_and!.
        -- unfold cache_ok. rewrite Hl', Ho. simpl. auto.
        -- done.
        -- intros Hnone. specialize (Hs2 Hnone). simplify_eq. auto.
        -- rewrite Hl'. eauto.
      * edestruct (GetLink_hit c l now key fetch links w sl)
          as (_ & _ & Ho & Hs & (l' & Hl' & Hok') & _); [done..|].
        split_and!.
        -- unfold cache_ok. rewrite Hl', Ho, Hs. auto.
        -- done.
        -- done.
        -- rewrite Hl'. eauto.
    + edestruct (GetLink_miss c l now key fetch links w)
        as (_ & Ho & (l' & Hl' & Hok') & Hn & Hshok & _); [done..|].
      split_and!.
      * unfold cache_ok. rewrite Hl', Ho. auto.
      * done.
      * done.
      * rewrite Hl'. eauto.
  - unfold GetLink. rewrite Hl. destruct (fetch w) as [r w']. simpl.
    split_and!; try done.
    unfold cache_ok. by rewrite Hl.
Qed.

(** [New] builds a well-formed cache. *)
Lemma createSimpleLRU_ok o : shard_ok zero ro o (createSimpleLRU zero ro o).
Proof. unfold createSimpleLRU. by destruct (expirationEvict o) eqn:Hm. Qed.

Lemma New_ok o : cache_ok zero ro (New zero ro o).
Proof.
  unfold New, cache_ok.
  destruct (decide (0 < localSlotNum o ∧ 0 < localSlotSize o)) as [[Hn Hs]|]; simpl.
  - split.
    + pose proof (createSimpleLRU_ok o) as Hc.
      destruct (decide (localSlotNum o = 1)).
      * split_and!; [done|done|]. by apply Forall_singleton.
      * split_and!; [done| |].
        -- simpl. intros Hnil. apply (f_equal length) in Hnil.
           rewrite length_replicate in Hnil. simpl in Hnil. lia.
        -- simpl. by apply Forall_replicate.
    + destruct (decide (0 < linkSlotNum o)); simpl; [|done].
      unfold sh_ok. simpl. destruct (Link.New (linkSlotNum o)) eqn:Hnew; [|done].
      by eapply wf_New.
  - done.
Qed.

End get_facts.

Section del_facts.
Import Localcache.
Context {V : Type} (zero : V) {W : Type} (ro : RangeOrder).
Implicit Types (s : shared) (w : W) (k key a : string) (c : cache V W)
  (o : option_ W) (l : Lru.LRU V (Env (W := W))).

Lemma del_no_local (keys : list string) c w :
  local c = None → del ro keys c w = (c, w).
Proof. unfold del. by intros ->. Qed.

(** [cache.del] only removes: what it guarantees for every batch. *)
Lemma del_spec (keys : list string) c l w :
  local c = Some l → lru_ok zero ro (opt c) l → sh_ok (sh c) →
  let r := del ro keys c w in
  opt r.1 = opt c ∧ sh_ok (sh r.1) ∧
  pendingDel (sh r.1) = pendingDel (sh c) ∧ once (sh r.1) = once (sh c) ∧
  (link (sh r.1) = None ↔ link (sh c) = None) ∧
  (∃ l', local r.1 = Some l' ∧ lru_ok zero ro (opt c) l') ∧
  (∀ k, lookup zero r.1 k = None ∨
        lookup zero r.1 k = lookup zero c k ∧ cached zero r.1 k = cached zero c k) ∧
  (∀ k, glookup (sh r.1) k = None ∨ glookup (sh r.1) k = glookup (sh c) k) ∧
  (∀ k, k ∈ keys → lookup zero r.1 k = None ∧ glookup (sh r.1) k = None).
Proof.
  intros Hl Hok Hsh r. subst r. unfold del. rewrite Hl.
  pose proof (del_loop_terminates zero ro (opt c) (del_fuel keys (sh c)) ∅ keys l
                (sh c) w Hok Hsh) as Hterm.
  destruct (del_loop ro (del_fuel keys (sh c)) ∅ keys l (sh c, w))
    as [[l' [s' w']] rest] eqn:Hrun.
  simpl in Hterm. rewrite Hterm in Hrun by (unfold del_fuel, gweight; lia).
  apply (del_loop_spec zero ro (opt c)) in Hrun
    as (Hok' & Hsh' & Hpd & Hon & Hln & Hmono & Hgm & Hq); [|done..].
  simpl. unfold lookup, cached. rewrite Hl. simpl.
  split_and!; try done.
  - eauto.
  - intros k Hk. destruct (Hq k Hk) as [?|[Hn|?]]; [set_solver| |done].
    by apply elem_of_nil in Hn.
Qed.

(** [cache.del] with linkage disabled removes the key and nothing else. *)
Lemma del_single_nolink a c l w :
  local c = Some l → lru_ok zero ro (opt c) l → link (sh c) = None →
  del ro [a] c w =
    ({| opt := opt c; local := Some (Lru.remove_key l a); sh := sh c |},
     del_count zero (opt c) l a w).
Proof.
  intros Hl Hok Hn. unfold del, del_fuel. rewrite Hl, Hn.
  rewrite (del_loop_step zero ro (opt c)) by (try done; by unfold sh_ok; rewrite Hn).
  by rewrite Hn.
Qed.

(** [cache.del] of a key that is neither cached nor linked changes
    nothing in the cache. *)
Lemma del_single_absent a c l w :
  local c = Some l → lru_ok zero ro (opt c) l → sh_ok (sh c) →
  Lru.lookup zero l a = None → glookup (sh c) a = None →
  (del ro [a] c w).1 = c.
Proof.
  intros Hl Hok Hsh Ha Hg. unfold del, del_fuel. rewrite Hl.
  destruct c as [o lc s]. cbn [local opt sh] in *. subst lc.
  destruct (link s) as [g|] eqn:Hlk.
  - rewrite (del_loop_step zero ro o), Hlk by done.
    unfold glookup in Hg. rewrite Hlk in Hg. simpl in Hg.
    rewrite Del_absent by done. cbn [fst snd].
    rewrite (filter_ne_singleton_in ro a). simpl.
    rewrite (remove_key_absent zero), set_link_id by done.
    by destruct (Link.weight g).
  - rewrite (del_loop_step zero ro o), Hlk by done. simpl.
    by rewrite (remove_key_absent zero).
Qed.

(** The cascade: every key that [a] reaches in the linkage graph is
    gone from the shard LRU and from the graph. *)
Lemma del_cascade a c l g w k :
  local c = Some l → lru_ok zero ro (opt c) l → link (sh c) = Some g → Link.wf g →
  rtc (Link.edge g) a k →
  lookup zero (del ro [a] c w).1 k = None ∧ glookup (sh (del ro [a] c w).1) k = None.
Proof.
  intros Hl Hok Hg Hwf Hreach. apply (Del_reach ro g a k Hwf) in Hreach.
  assert (sh_ok (sh c)) as Hsh by (by unfold sh_ok; rewrite Hg).
  unfold del, del_fuel. rewrite Hl, Hg.
  rewrite (del_loop_step zero ro (opt c)), Hg by done.
  destruct (Link.Del ro g a) as [D g1] eqn:Hdel. cbn [fst snd] in *.
  apply Del_spec in Hdel as (Hwf1 & _ & Hin & Hlk & _ & _ & Hsz); [|done].
  set (td := filter (λ k0, k0 ∉ {[a]} ∪ ∅) (ro D)).
  assert (length td < size D)%nat as Hlen.
  { pose proof (length_range_opt ro (Some D)) as HL. simpl in HL. rewrite <- HL.
    apply (length_filter_lt _ _ a); [by apply elem_of_range|set_solver]. }
  pose proof (lru_ok_remove_key zero ro (opt c) l a Hok) as Hok1.
  pose proof (del_loop_terminates zero ro (opt c) (length [a] + Link.weight g)
                ({[a]} ∪ ∅) ([] ++ td) (Lru.remove_key l a) (set_link (sh c) g1)
                (del_count zero (opt c) l a w) Hok1 Hwf1) as Hterm.
  destruct (del_loop ro _ _ _ _ _) as [[l' [s' w']] rest] eqn:Hrun.
  simpl in Hterm. rewrite Hterm in Hrun by (unfold gweight; simpl; lia).
  apply (del_loop_spec zero ro (opt c)) in Hrun
    as (_ & _ & _ & _ & _ & Hmono & Hgm & Hq); [|done..].
  unfold lookup. simpl.
  destruct (decide (k = a)) as [->|Hne].
  - split.
    + destruct (Hmono a) as [?|[-> _]]; [done|].
      by rewrite (lookup_remove_key zero), decide_True.
    + destruct (Hgm a) as [?| ->]; [done|].
      by rewrite glookup_set_link, Hlk, decide_True.
  - destruct (Hq k) as [?|[Hn|?]]; [|set_solver| |done].
    + simpl. apply list_elem_of_filter. split; [set_solver|]. by apply elem_of_range.
    + by apply elem_of_nil in Hn.
Qed.

(** *** The operations keep the cache well-formed *)

Lemma LRU_Del_ok o l key (e : Env (W := W)) :
  lru_ok zero ro o l → sh_ok e.1 →
  lru_ok zero ro o (Lru.LRU_Del l key e).1.2 ∧ sh_ok (Lru.LRU_Del l key e).2.1.
Proof.
  intros Hok Hsh. destruct (lru_ok_shard zero ro o l key Hok) as (x & Hx & Hxok).
  destruct e as [s w]. rewrite (LRU_Del_eq zero ro o) by done. simpl.
  split; [by apply lru_ok_remove_key|done].
Qed.

Lemma del_ok (keys : list string) c w :
  cache_ok zero ro c → cache_ok zero ro (del ro keys c w).1.
Proof.
  intros [Hok Hsh]. destruct (local c) as [l|] eqn:Hl.
  - destruct (del_spec keys c l w Hl Hok Hsh) as (Ho & Hsh' & _ & _ & _ & (l' & Hl' & Hok') & _).
    unfold cache_ok. by rewrite Hl', Ho.
  - rewrite del_no_local by done. simpl. unfold cache_ok. by rewrite Hl.
Qed.

Lemma Del_ok (keys : list string) c w :
  cache_ok zero ro c → cache_ok zero ro (Del ro keys c w).1.
Proof. apply del_ok. Qed.

Lemma processPendingDeletes_step_ok c w :
  cache_ok zero ro c → cache_ok zero ro (processPendingDeletes_step c w).1.
Proof.
  intros [Hok Hsh]. unfold processPendingDeletes_step.
  destruct (local c) as [l|] eqn:Hl;
    [|simpl; unfold cache_ok; by rewrite Hl].
  destruct (pendingDel (sh c)) as [|keys rest] eqn:Hpd;
    [simpl; unfold cache_ok; by rewrite Hl|].
  set (s := {| link := link (sh c); pendingDel := rest; once := once (sh c) |}).
  assert (sh_ok s) as Hs by done.
  assert (∀ (st : Lru.LRU V (Env (W := W)) * Env (W := W)),
            lru_ok zero ro (opt c) st.1 → sh_ok st.2.1 →
            let st' := foldl (λ (st : Lru.LRU V Env * Env) key,
                                let '(_, l, e) := Lru.LRU_Del st.1 key st.2 in (l, e))
                             st keys in
            lru_ok zero ro (opt c) st'.1 ∧ sh_ok st'.2.1) as Hfold.
  { clear Hpd. induction keys as [|k keys IH]; intros [l0 e0] Hl0 He0; simpl; [done|].
    simpl in Hl0, He0.
    destruct (LRU_Del_ok (opt c) l0 k e0 Hl0 He0) as [Hl1 He1].
    destruct (Lru.LRU_Del l0 k e0) as [[ok l1] e1]. by apply IH. }
  specialize (Hfold (l, (s, w)) Hok Hs). simpl in Hfold.
  destruct (foldl _ _ keys) as [l' e']. exact Hfold.
Qed.

End del_facts.

(** * The claims *)

(** ** The linkage graph *)

(** C2, as the code has it.  [Del(k)] returns the set of the keys that
    [k] reaches through adjacency entries, [k] included, and removes the
    adjacency entry of every key of that set; the adjacency entry of
    every other key is unchanged. *)
Theorem C2_del_returns_reachable (ro : RangeOrder) (x : Link.slot) (k : string) :
  Link.wf x →
  let r := Link.Del ro x k in
  (∀ k', k' ∈ r.1 ↔ rtc (Link.edge x) k k') ∧
  (∀ k', Link.lookup r.2 k' = if decide (k' ∈ r.1) then None else Link.lookup x k') ∧
  Link.wf r.2.
Proof.
  intros Hwf r. split_and!.
  - intros k'. by apply Del_reach.
  - subst r. destruct (Link.Del ro x k) as [D x'] eqn:Hdel.
    by apply Del_spec in Hdel as (_ & _ & _ & Hlk & _).
  - by apply wf_Del.
Qed.

Lemma C2_del_returns_reachable_witness :
  let r := Link.Del elements_order Examples.graph_abc "a" in
  (∀ k', k' ∈ r.1 ↔ rtc (Link.edge Examples.graph_abc) "a" k') ∧
  (∀ k', Link.lookup r.2 k' =
         if decide (k' ∈ r.1) then None else Link.lookup Examples.graph_abc k') ∧
  Link.wf r.2.
Proof.
  apply (C2_del_returns_reachable elements_order Examples.graph_abc "a").
  split; reflexivity.
Defined.

(** C2, as the claim states it, fails: after [Link("a", "b")] and
    [Link("b", "c")], [Del("a")] returns ["c"], which is not a direct
    neighbour of ["a"], and removes the adjacency entry of ["b"]. *)
Lemma C2_counterexample :
  let r := Link.Del elements_order Examples.graph_abc "a" in
  (("c" : string) ∈ r.1) ∧ (("c" : string) ∉ Link.adj Examples.graph_abc "a") ∧
  is_Some (Link.lookup Examples.graph_abc "b") ∧ Link.lookup r.2 "b" = None.
Proof.
  split_and!.
  - apply elem_of_elements. vm_compute. set_solver.
  - intros H%elem_of_elements. vm_compute in H. set_solver.
  - vm_compute. eauto.
  - vm_compute. reflexivity.
Qed.

(** C6, as the code has it.  [Del] of a key that has no adjacency entry
    returns the set that holds this key only, and leaves the graph as it
    is. *)
Theorem C6_del_absent (ro : RangeOrder) (x : Link.slot) (k : string) :
  Link.lookup x k = None → Link.Del ro x k = ({[k]}, x).
Proof. apply Del_absent. Qed.

Lemma C6_del_absent_witness :
  Link.Del elements_order Examples.graph0 "non_existent_key" =
    ({["non_existent_key"]}, Examples.graph0).
Proof.
  apply (C6_del_absent elements_order Examples.graph0 "non_existent_key").
  reflexivity.
Defined.

(** C6, as the claim states it, fails: on the empty graph, the set that
    [Del("non_existent_key")] returns is not empty. *)
Lemma C6_counterexample :
  Link.New 10 = Some Examples.graph0 ∧
  (Link.Del elements_order Examples.graph0 "non_existent_key").1 ≠ ∅.
Proof.
  split; [reflexivity|]. rewrite Del_absent by reflexivity. simpl.
  intros H. apply (f_equal (λ s : gset string, size s)) in H.
  by rewrite size_singleton, size_empty in H.
Qed.

(** C7.  Starting from the graph that [New] builds, after every finite
    sequence of [Link] and [Del] operations the adjacency mapping is
    symmetric: [b] is in [adj a] if and only if [a] is in [adj b]. *)
Theorem C7_symmetry (num : Z) (x0 : Link.slot) (ops : list Link.op) :
  Link.New num = Some x0 → Link.symmetric (Link.run x0 ops).
Proof.
  intros Hnew.
  assert (Link.wf (Link.run x0 ops) ∧ Link.symmetric (Link.run x0 ops)) as [_ ?];
    [|done].
  unfold Link.run. induction ops as [|o ops IH] using rev_ind.
  - split; [by eapply wf_New|]. intros a b. simpl.
    by rewrite !(adj_New num x0).
  - rewrite foldl_app. simpl. destruct IH as [Hwf Hsym].
    destruct o as [key link|ro key]; simpl.
    + split; [by apply wf_Link|by apply symmetric_Link].
    + split; [by apply wf_Del|by apply symmetric_Del].
Qed.

Lemma C7_symmetry_witness :
  Link.symmetric
    (Link.run Examples.graph0
       [Link.OpLink "a" ["b"; "c"]; Link.OpLink "c" ["d"];
        Link.OpDel elements_order "d"; Link.OpLink "b" ["b"; "e"]]).
Proof. apply (C7_symmetry 10). reflexivity. Defined.

(** ** The shard LRU *)


(** On a shard LRU that logs the keys its eviction callback is called
    with and that holds ["k"], [Del("k")] is a hit and the log stays
    empty. *)
Lemma Del_leaves_log_empty :
  Lru.Del Examples.logging_lru_k "k" [] =
    (true, Lru.shard_remove Examples.logging_lru_k "k", []).
Proof. reflexivity. Qed.

(** ** The coordinator *)

(** The concrete caches are well-formed: they come from [New] by [Get]
    and [GetLink]. *)
Lemma Get_keeps_ok {V W : Type} (zero : V) (ro : RangeOrder)
    (c : Localcache.cache V W) now key fetch links w :
  Localcache.cache_ok zero ro c ∧ is_Some (Localcache.local c) →
  Localcache.cache_ok zero ro (Localcache.GetLink zero c now key fetch links w).1.2 ∧
  is_Some (Localcache.local (Localcache.GetLink zero c now key fetch links w).1.2).
Proof.
  intros [Hok Hsome].
  destruct (GetLink_ok zero ro c now key fetch links w Hok) as (? & _ & _ & Hs). auto.
Qed.

Lemma new_cache_ok nlink :
  Localcache.cache_ok EmptyString elements_order (Examples.new_cache 3 nlink) ∧
  is_Some (Localcache.local (Examples.new_cache 3 nlink)).
Proof. split; [apply New_ok|by eexists]. Qed.

Lemma cache_bc_ok :
  Localcache.cache_ok EmptyString elements_order Examples.cache_bc ∧
  is_Some (Localcache.local Examples.cache_bc).
Proof. repeat apply Get_keeps_ok. apply new_cache_ok. Qed.

Lemma cache_ab_linked_ok :
  Localcache.cache_ok EmptyString elements_order Examples.cache_ab_linked ∧
  is_Some (Localcache.local Examples.cache_ab_linked).
Proof. repeat apply Get_keeps_ok. apply new_cache_ok. Qed.

Lemma lru_abcd_ok :
  Localcache.lru_ok EmptyString elements_order (Examples.opts 3 10) Examples.lru_abcd.
Proof.
  assert (Localcache.cache_ok EmptyString elements_order Examples.cache_abcd ∧
          is_Some (Localcache.local Examples.cache_abcd)) as [[Hok _] [l Hl]]
    by (repeat apply Get_keeps_ok; apply new_cache_ok).
  unfold Examples.lru_abcd. rewrite Hl in Hok |- *. exact Hok.
Qed.

(** C1.  On a cache with local caching enabled and a shard capacity of
    at least one, in either eviction mode, a first [Get] of a cold key [k] whose fetcher returns
    [v] returns [v] and has run the fetcher once, on the caller's state
    as the call found it; a following [Get] of [k] before the success TTL
    has elapsed returns [v] and has not run its fetcher: it only counts a
    hit. *)
Theorem C1_miss_then_hit {V W : Type} (zero : V) (ro : RangeOrder)
    (c : Localcache.cache V W) (now1 now2 : Z) (k : string)
    (fetch1 fetch2 : W → (V * option error) * W) (w : W) (v : V) :
  Localcache.cache_ok zero ro c →
  is_Some (Localcache.local c) →
  1 ≤ Localcache.localSlotSize (Localcache.opt c) →
  Localcache.lookup zero c k = None →
  (fetch1 w).1 = (v, None) →
  now1 ≤ now2 ≤ now1 + Localcache.localSuccessTTL (Localcache.opt c) →
  let r1 := Localcache.Get zero c now1 k fetch1 w in
  let r2 := Localcache.Get zero r1.1.2 now2 k fetch2 r1.2 in
  r1.1.1 = (v, None) ∧
  r1.2 = Lru.IncrGetSuccess (Localcache.target (Localcache.opt c)) (fetch1 w).2 ∧
  r2.1.1 = (v, None) ∧
  r2.2 = Lru.IncrGetHit (Localcache.target (Localcache.opt c)) r1.2.
Proof.
  intros [Hok _] [l Hl] _ Hk Hf Hnow r1 r2. subst r1 r2. rewrite Hl in Hok.
  unfold Localcache.lookup in Hk. rewrite Hl in Hk. simpl in Hk.
  unfold Localcache.Get.
  destruct (GetLink_miss zero ro c l now1 k fetch1 [] w Hl Hok Hk)
    as (Hr & Ho & (l' & Hl' & Hok') & _ & _ & Hw & Hen).
  rewrite Hf in Hw, Hen. simpl in Hw, Hen.
  unfold Localcache.lookup in Hen. rewrite Hl' in Hen.
  simpl in Hen. rewrite <- Ho in Hok'.
  destruct (GetLink_hit zero ro _ l' now2 k fetch2 []
              (Localcache.GetLink zero c now1 k fetch1 [] w).2 _ Hl' Hok' Hen
              ltac:(simpl; lia)) as (Hr2 & Hw2 & _).
  rewrite Ho in Hw2. split_and!; [congruence|done|done|done].
Qed.

Lemma C1_miss_then_hit_witness :
  let r1 := Localcache.Get EmptyString (Examples.new_lazy_cache 3 10) 0 "k"
              (Examples.fetch_ok "v") Examples.w0 in
  let r2 := Localcache.Get EmptyString r1.1.2 60 "k" (Examples.fetch_ok "w") r1.2 in
  r1.1.1 = ("v"%string, None) ∧
  r1.2 = Lru.IncrGetSuccess Examples.counting_target
           (Examples.fetch_ok "v" Examples.w0).2 ∧
  r2.1.1 = ("v"%string, None) ∧
  r2.2 = Lru.IncrGetHit Examples.counting_target r1.2.
Proof.
  apply (C1_miss_then_hit EmptyString elements_order (Examples.new_lazy_cache 3 10) 0 60 "k"
           (Examples.fetch_ok "v") (Examples.fetch_ok "w") Examples.w0 "v"%string).
  - apply New_ok.
  - by eexists.
  - simpl. lia.
  - reflexivity.
  - reflexivity.
  - simpl. lia.
Defined.

(** C4.  In active-expiry mode (the option [expirationEvict] is set) a
    fetch failure is not retained: a [Get] of a cold key [k] whose
    fetcher fails returns the error of the fetcher unchanged and leaves
    no entry for [k], so a following [Get] of [k] runs its fetcher and
    returns its value. *)
Theorem C4_failure_not_retained {V W : Type} (zero : V) (ro : RangeOrder)
    (c : Localcache.cache V W) (now1 now2 : Z) (k : string)
    (fetch_err fetch_ok : W → (V * option error) * W) (w : W)
    (v0 v : V) (ERR : error) :
  Localcache.cache_ok zero ro c →
  is_Some (Localcache.local c) →
  Localcache.expirationEvict (Localcache.opt c) = true →
  Localcache.lookup zero c k = None →
  (fetch_err w).1 = (v0, Some ERR) →
  (∀ w', (fetch_ok w').1 = (v, None)) →
  let r1 := Localcache.Get zero c now1 k fetch_err w in
  let r2 := Localcache.Get zero r1.1.2 now2 k fetch_ok r1.2 in
  r1.1.1 = (v0, Some ERR) ∧
  r1.2 = Lru.IncrGetFailed (Localcache.target (Localcache.opt c)) (fetch_err w).2 ∧
  Localcache.lookup zero r1.1.2 k = None ∧
  r2.1.1 = (v, None) ∧
  r2.2 = Lru.IncrGetSuccess (Localcache.target (Localcache.opt c)) (fetch_ok r1.2).2.
Proof.
  intros [Hok _] [l Hl] Hmode Hk Hf Hf2 r1 r2. subst r1 r2. rewrite Hl in Hok.
  unfold Localcache.lookup in Hk. rewrite Hl in Hk. simpl in Hk.
  unfold Localcache.Get.
  destruct (GetLink_miss zero ro c l now1 k fetch_err [] w Hl Hok Hk)
    as (Hr & Ho & (l' & Hl' & Hok') & _ & _ & Hw & Hgone).
  rewrite Hf in Hw, Hgone. rewrite Hmode in Hgone. simpl in Hw, Hgone.
  pose proof Hgone as Hgone'.
  unfold Localcache.lookup in Hgone'. rewrite Hl' in Hgone'. simpl in Hgone'.
  rewrite <- Ho in Hok'.
  destruct (GetLink_miss zero ro _ l' now2 k fetch_ok [] (Localcache.GetLink zero c now1
              k fetch_err [] w).2 Hl' Hok' Hgone')
    as (Hr2 & _ & _ & _ & _ & Hw2 & _).
  rewrite Hf2 in Hw2. simpl in Hw2.
  rewrite Ho in Hw2. split_and!; [congruence|done|done|congruence|done].
Qed.

Lemma C4_failure_not_retained_witness :
  let r1 := Localcache.Get EmptyString (Examples.new_cache 1 10) 0 "k"
              (Examples.fetch_err "ERR") Examples.w0 in
  let r2 := Localcache.Get EmptyString r1.1.2 0 "k" (Examples.fetch_ok "v") r1.2 in
  r1.1.1 = (EmptyString, Some "ERR"%string) ∧
  r1.2 = Lru.IncrGetFailed Examples.counting_target
           (Examples.fetch_err "ERR" Examples.w0).2 ∧
  Localcache.lookup EmptyString r1.1.2 "k" = None ∧
  r2.1.1 = ("v"%string, None) ∧
  r2.2 = Lru.IncrGetSuccess Examples.counting_target (Examples.fetch_ok "v" r1.2).2.
Proof.
  apply (C4_failure_not_retained EmptyString elements_order (Examples.new_cache 1 10) 0 0 "k"
           (Examples.fetch_err "ERR") (Examples.fetch_ok "v") Examples.w0
           EmptyString "v"%string "ERR"%string).
  - apply New_ok.
  - by eexists.
  - reflexivity.
  - reflexivity.
  - reflexivity.
  - reflexivity.
Defined.

(** C9.  With linkage disabled, in either eviction mode,
    [GetLink(a, _, b, c)] followed by [Del(a)] removes only [a]: no link
    is registered and nothing is queued, and every other key, [b] and [c]
    among them, keeps its slot and the outcome cached in it, so that a
    later [Get] of such a key before its deadline hits and does not run
    its fetcher. *)
Theorem C9_disabled_linkage_inert {V W : Type} (zero : V) (ro : RangeOrder)
    (c : Localcache.cache V W) (now : Z) (a b c' : string)
    (fa : W → (V * option error) * W) (w : W) :
  Localcache.cache_ok zero ro c →
  is_Some (Localcache.local c) →
  Localcache.link (Localcache.sh c) = None →
  let r1 := Localcache.GetLink zero c now a fa [b; c'] w in
  let r2 := Localcache.Del ro [a] r1.1.2 r1.2 in
  Localcache.sh r2.1 = Localcache.sh c ∧
  Localcache.lookup zero r2.1 a = None ∧
  (∀ k, k ≠ a →
        Localcache.lookup zero r2.1 k = Localcache.lookup zero r1.1.2 k ∧
        Localcache.cached zero r2.1 k = Localcache.cached zero r1.1.2 k) ∧
  (∀ k sl now' fetch w',
        k ≠ a →
        Localcache.lookup zero r1.1.2 k = Some sl →
        now' ≤ Lru.s_deadline sl →
        let r3 := Localcache.Get zero r2.1 now' k fetch w' in
        r3.1.1 = (Lru.s_value sl, Lru.s_err sl) ∧
        r3.2 = Lru.IncrGetHit (Localcache.target (Localcache.opt c)) w').
Proof.
  intros Hok Hsome Hnone r1 r2.
  destruct (GetLink_ok zero ro c now a fa [b; c'] w Hok) as ([Hok1 Hsh1] & Ho & Hs & Hloc).
  fold r1 in Hok1, Hsh1, Ho, Hs, Hloc. specialize (Hs Hnone).
  destruct (Hloc Hsome) as [l1 Hl1]. rewrite Hl1 in Hok1.
  assert (Localcache.link (Localcache.sh r1.1.2) = None) as Hnone1 by congruence.
  assert (r2.1 = {| Localcache.opt := Localcache.opt r1.1.2;
                    Localcache.local := Some (Lru.remove_key l1 a);
                    Localcache.sh := Localcache.sh r1.1.2 |}) as Hr2.
  { subst r2. unfold Localcache.Del. by rewrite (del_single_nolink zero ro a _ l1). }
  assert (∀ k, Localcache.lookup zero r2.1 k =
               if decide (k = a) then None else Localcache.lookup zero r1.1.2 k) as Hlk.
  { intros k. rewrite Hr2. unfold Localcache.lookup. rewrite Hl1. simpl.
    apply lookup_remove_key. }
  assert (∀ k, Localcache.cached zero r2.1 k =
               if decide (k = a) then None else Localcache.cached zero r1.1.2 k) as Hca.
  { intros k. rewrite Hr2. unfold Localcache.cached. rewrite Hl1. simpl.
    apply cached_remove_key. }
  split_and!.
  - rewrite Hr2. simpl. done.
  - by rewrite Hlk, decide_True.
  - intros k Hk. by rewrite Hlk, Hca, !decide_False.
  - intros k sl now' fetch w' Hk Hen Hnow r3. subst r3.
    assert (Localcache.lookup zero r2.1 k = Some sl) as Hen2
      by (by rewrite Hlk, decide_False).
    assert (Localcache.local r2.1 = Some (Lru.remove_key l1 a)) as Hl2
      by (by rewrite Hr2).
    assert (Localcache.opt r2.1 = Localcache.opt c) as Ho2 by (by rewrite Hr2).
    unfold Localcache.lookup in Hen2.
    rewrite Hl2 in Hen2. simpl in Hen2. unfold Localcache.Get.
    destruct (GetLink_hit zero ro r2.1 _ now' k fetch [] w' sl Hl2) as (E1 & E2 & _);
      try done.
    + rewrite Ho2, <- Ho. by apply lru_ok_remove_key.
    + by rewrite <- Ho2.
Qed.

Lemma C9_disabled_linkage_inert_witness :
  let r1 := Localcache.GetLink EmptyString Examples.cache_bc 0 "a"
              (Examples.fetch_ok "va") ["b"; "c"] Examples.w0 in
  let r2 := Localcache.Del elements_order ["a"] r1.1.2 r1.2 in
  Localcache.sh r2.1 = Localcache.sh Examples.cache_bc ∧
  Localcache.lookup EmptyString r2.1 "a" = None ∧
  (∀ k, k ≠ "a"%string →
        Localcache.lookup EmptyString r2.1 k = Localcache.lookup EmptyString r1.1.2 k ∧
        Localcache.cached EmptyString r2.1 k = Localcache.cached EmptyString r1.1.2 k) ∧
  (∀ k sl now' fetch w',
        k ≠ "a"%string →
        Localcache.lookup EmptyString r1.1.2 k = Some sl →
        now' ≤ Lru.s_deadline sl →
        let r3 := Localcache.Get EmptyString r2.1 now' k fetch w' in
        r3.1.1 = (Lru.s_value sl, Lru.s_err sl) ∧
        r3.2 = Lru.IncrGetHit
                 (Localcache.target (Localcache.opt Examples.cache_bc)) w').
Proof.
  apply (C9_disabled_linkage_inert EmptyString elements_order Examples.cache_bc 0
           "a" "b" "c" (Examples.fetch_ok "va") Examples.w0).
  - apply cache_bc_ok.
  - apply cache_bc_ok.
  - vm_compute. reflexivity.
Defined.

(** C3.  With linkage enabled and the links of [Link(a, b)], [Link(b, c)]
    and [Link(c, d)] in the graph, a single [Del(a)] of the coordinator
    removes [a], [b], [c] and [d] from the shard LRU, in either eviction
    mode: none of them has an entry left, and a later [Get] of any of
    them runs its fetcher and returns what it returns. *)
Theorem C3_transitive_cascade {V W : Type} (zero : V) (ro : RangeOrder)
    (o : Localcache.option_ W) (l : Lru.LRU V (Localcache.Env (W := W)))
    (g : Link.slot) (pending : list (list string)) (started : bool)
    (a b c d : string) (w : W) :
  Localcache.lru_ok zero ro o l →
  Link.wf g →
  let g' := Link.Link (Link.Link (Link.Link g a [b]) b [c]) c [d] in
  let cch := {| Localcache.opt := o; Localcache.local := Some l;
                Localcache.sh := {| Localcache.link := Some g';
                                    Localcache.pendingDel := pending;
                                    Localcache.once := started |} |} in
  let r := Localcache.Del ro [a] cch w in
  ∀ k, k ∈ [a; b; c; d] →
    Localcache.lookup zero r.1 k = None ∧
    ∀ now fetch w',
      let r' := Localcache.Get zero r.1 now k fetch w' in
      r'.1.1 = (fetch w').1 ∧
      r'.2 = match (fetch w').1.2 with
             | None => Lru.IncrGetSuccess (Localcache.target o) (fetch w').2
             | Some _ => Lru.IncrGetFailed (Localcache.target o) (fetch w').2
             end.
Proof.
  intros Hok Hwf g' cch r k Hk.
  assert (Link.wf g') as Hwf' by (by repeat apply wf_Link).
  assert (Link.edge g' a b ∧ Link.edge g' b c ∧ Link.edge g' c d) as (Hab & Hbc & Hcd).
  { unfold Link.edge, g'. rewrite !adj_Link by (by repeat apply wf_Link).
    split_and!; repeat case_decide; set_solver. }
  assert (rtc (Link.edge g') a k) as Hreach.
  { rewrite !elem_of_cons in Hk.
    destruct Hk as [->|[->|[->|[->|Hk]]]]; [| | | |by apply elem_of_nil in Hk].
    - done.
    - by apply rtc_once.
    - by eapply rtc_l; [|apply rtc_once].
    - eapply rtc_l; [done|]. by eapply rtc_l; [|apply rtc_once]. }
  set (w1 := foldl (λ w0 fn, fn [a] w0) w (Localcache.delFn o)).
  assert (r = Localcache.del ro [a] cch w1) as Hr by done.
  destruct (del_cascade zero ro a cch l g' w1 k) as [Hgone _]; try done.
  destruct (del_spec zero ro [a] cch l w1) as (Ho & _ & _ & _ & _ & (l' & Hl' & Hok') & _);
    try done.
  rewrite Hr. split; [done|]. intros now fetch w' r'. subst r'.
  unfold Localcache.lookup in Hgone. rewrite Hl' in Hgone. simpl in Hgone.
  rewrite <- Ho in Hok'. unfold Localcache.Get.
  destruct (GetLink_miss zero ro _ l' now k fetch [] w' Hl' Hok' Hgone)
    as (Hres & _ & _ & _ & _ & Hw & _).
  split; [done|]. by rewrite Ho in Hw.
Qed.

Lemma C3_transitive_cascade_witness :
  let o := Examples.opts 3 10 in
  let g' := Link.Link (Link.Link (Link.Link Examples.graph0 "a" ["b"]) "b" ["c"]) "c" ["d"] in
  let cch := {| Localcache.opt := o;
                Localcache.local := Some Examples.lru_abcd;
                Localcache.sh := {| Localcache.link := Some g';
                                    Localcache.pendingDel := [];
                                    Localcache.once := false |} |} in
  let r := Localcache.Del elements_order ["a"] cch Examples.w0 in
  Localcache.lookup EmptyString r.1 "d" = None ∧
  ∀ now fetch w',
    let r' := Localcache.Get EmptyString r.1 now "d" fetch w' in
    r'.1.1 = (fetch w').1 ∧
    r'.2 = match (fetch w').1.2 with
           | None => Lru.IncrGetSuccess (Localcache.target o) (fetch w').2
           | Some _ => Lru.IncrGetFailed (Localcache.target o) (fetch w').2
           end.
Proof.
  apply (C3_transitive_cascade EmptyString elements_order (Examples.opts 3 10)
           Examples.lru_abcd Examples.graph0 [] false "a" "b" "c" "d" Examples.w0).
  - apply lru_abcd_ok.
  - split; reflexivity.
  - set_solver.
Defined.

(** C8.  Cascade idempotence, in either eviction mode: a second
    [Del(a)] of the coordinator leaves the cache (the shard LRU with its
    entries and its items, the linkage graph and the pending deletions)
    as the first one left it, and [Del(a, a)] leaves the cache as
    [Del(a)] does. *)
Theorem C8_cascade_idempotent {V W : Type} (zero : V) (ro : RangeOrder)
    (c : Localcache.cache V W) (a : string) (w : W) :
  Localcache.cache_ok zero ro c →
  (∀ w', (Localcache.Del ro [a] (Localcache.Del ro [a] c w).1 w').1 =
         (Localcache.Del ro [a] c w).1) ∧
  (Localcache.Del ro [a; a] c w).1 = (Localcache.Del ro [a] c w).1.
Proof.
  intros [Hok Hsh]. unfold Localcache.Del.
  set (w1 := foldl (λ w0 fn, fn [a] w0) w (Localcache.delFn (Localcache.opt c))).
  set (w2 := foldl (λ w0 fn, fn [a; a] w0) w (Localcache.delFn (Localcache.opt c))).
  destruct (Localcache.local c) as [l|] eqn:Hl.
  2:{ rewrite !del_no_local by done. simpl. split; [intros w'|];
      by rewrite ?del_no_local. }
  split.
  - intros w'.
    destruct (del_spec zero ro [a] c l w1 Hl Hok Hsh)
      as (Ho & Hsh' & _ & _ & _ & (l' & Hl' & Hok') & _ & _ & Hq).
    destruct (Hq a) as [Hgone Hgg]; [set_solver|].
    unfold Localcache.lookup in Hgone. rewrite Hl' in Hgone. simpl in Hgone.
    rewrite <- Ho in Hok'.
    by apply (del_single_absent zero ro a _ l').
  - unfold Localcache.del, Localcache.del_fuel. rewrite Hl. simpl length.
    rewrite !(del_loop_step zero ro (Localcache.opt c)) by done.
    pose proof (lru_ok_remove_key zero ro _ l a Hok) as Hok1.
    unfold Localcache.sh_ok in Hsh.
    destruct (Localcache.link (Localcache.sh c)) as [g|] eqn:Hg.
    + change (2 + Link.weight g)%nat with (S (1 + Link.weight g)).
      cbn [app]. rewrite del_loop_skip by set_solver.
      edestruct (del_loop_world zero ro (Localcache.opt c) (1 + Link.weight g)
                   ({[a]} ∪ ∅)
                   (filter (λ k, k ∉ ({[a]} ∪ ∅ : gset string)) (ro (Link.Del ro g a).1))
                   (Lru.remove_key l a)
                   (Localcache.set_link (Localcache.sh c) (Link.Del ro g a).2)
                   (Localcache.del_count zero (Localcache.opt c) l a w2)
                   (Localcache.del_count zero (Localcache.opt c) l a w1)) as [E1 E2];
        [exact Hok1|apply sh_ok_set_link; by apply wf_Del|].
      destruct (Localcache.del_loop ro (1 + Link.weight g) _ _ _
                  (_, Localcache.del_count zero (Localcache.opt c) l a w2))
        as [[l2 [s2 w2']] rest2].
      destruct (Localcache.del_loop ro (1 + Link.weight g) _ _ _
                  (_, Localcache.del_count zero (Localcache.opt c) l a w1))
        as [[l1 [s1 w1']] rest1].
      cbn [fst snd] in *. by subst.
    + change (2 + 0)%nat with (S (1 + 0)).
      rewrite del_loop_skip by set_solver. reflexivity.
Qed.

Lemma C8_cascade_idempotent_witness :
  (∀ w', (Localcache.Del elements_order ["a"]
            (Localcache.Del elements_order ["a"] Examples.cache_ab_linked Examples.w0).1
            w').1 =
         (Localcache.Del elements_order ["a"] Examples.cache_ab_linked Examples.w0).1) ∧
  (Localcache.Del elements_order ["a"; "a"] Examples.cache_ab_linked Examples.w0).1 =
    (Localcache.Del elements_order ["a"] Examples.cache_ab_linked Examples.w0).1.
Proof.
  apply (C8_cascade_idempotent EmptyString elements_order Examples.cache_ab_linked "a"
           Examples.w0).
  apply cache_ab_linked_ok.
Defined.

(** * Further properties of the linkage graph *)

Section link_more.
Import Link.
Implicit Types (x : slot) (k key : string).

(** More fuel than the measure does not change what the loop of
    [delKey] computes. *)
Lemma delKey_loop_fuel (ro : RangeOrder) fuel fuel' x del stack :
  (length stack + weight x ≤ fuel)%nat → (fuel ≤ fuel')%nat →
  delKey_loop ro fuel' x del stack = delKey_loop ro fuel x del stack.
Proof.
  revert fuel' x del stack.
  induction fuel as [|fuel IH]; intros fuel' x del stack Hm Hle.
  - destruct stack; [by destruct fuel'|simpl in Hm; lia].
  - destruct fuel' as [|fuel']; [lia|].
    destruct stack as [|curr stack]; [done|]. simpl in *.
    destruct (decide (curr ∈ del)); [apply IH; lia|].
    destruct (del_at x curr) as [childKeys x1] eqn:Hdel.
    pose proof (weight_del_at x curr) as Hw1. rewrite Hdel in Hw1. simpl in Hw1.
    apply IH; [|lia]. rewrite length_app, length_reverse, length_range_opt. lia.
Qed.

(** Keys are stored in the shard that [index] gives them. *)
Lemma placed_link_at x key links :
  placed x → placed (link_at x key links).
Proof.
  intros Hp i lk k. unfold link_at. simpl.
  change (index {| n := n x; slots := _ |} k) with (index x k).
  destruct (decide (i = index x key)) as [->|Hne].
  - destruct (slots x !! index x key) as [lk0|] eqn:Hlk0.
    + rewrite list_lookup_alter_eq, Hlk0. simpl. intros [= <-].
      unfold linkKey_link. destruct (decide (k = key)) as [->|Hk]; [done|].
      rewrite lookup_insert_ne by done. by apply Hp.
    + rewrite list_lookup_alter_eq, Hlk0. done.
  - rewrite list_lookup_alter_ne by done. apply Hp.
Qed.

Lemma placed_del_at x key : placed x → placed (del_at x key).2.
Proof.
  intros Hp i lk k. unfold index. rewrite n_del_at. fold (index x k).
  unfold del_at, linkKey_del.
  destruct (slots x !! index x key) as [lk0|] eqn:Hlk0; [|apply Hp].
  destruct (lk0 !! key) as [ks|] eqn:Hks; simpl.
  - destruct (decide (i = index x key)) as [->|Hne].
    + rewrite list_lookup_insert_eq by by eapply lookup_lt_Some.
      intros [= <-] [v Hv]. apply lookup_delete_Some in Hv as [_ Hv].
      by eapply Hp.
    + rewrite list_lookup_insert_ne by done. apply Hp.
  - rewrite list_insert_id by done. apply Hp.
Qed.

Lemma placed_delKey_loop (ro : RangeOrder) fuel x del stack :
  placed x → placed (delKey_loop ro fuel x del stack).1.2.
Proof.
  revert x del stack. induction fuel as [|fuel IH]; intros x del stack Hp.
  - by destruct stack.
  - destruct stack as [|curr stack]; [done|]. simpl.
    destruct (decide (curr ∈ del)); [by apply IH|].
    pose proof (placed_del_at x curr Hp) as Hp1.
    destruct (del_at x curr) as [childKeys x1]. by apply IH.
Qed.

Lemma placed_Link x key links : placed x → placed (Link x key links).
Proof.
  intros Hp. unfold Link. destruct links as [|l0 links]; [done|].
  generalize (l0 :: links) at 2. intros ls.
  pose proof (placed_link_at x key (l0 :: links) Hp) as Hp1.
  revert Hp1. generalize (link_at x key (l0 :: links)). clear.
  induction ls as [|a ls IH]; intros x Hp; simpl; [done|].
  apply IH. by apply placed_link_at.
Qed.

Lemma placed_New num x : New num = Some x → placed x.
Proof.
  unfold New. destruct (Z.leb_spec num 0); [done|]. intros [= <-] i lk k. simpl.
  intros [-> _]%lookup_replicate [v Hv]. unfold newLinkKey in Hv.
  by rewrite lookup_empty in Hv.
Qed.

Lemma n_Link x key links : n (Link x key links) = n x.
Proof.
  unfold Link. destruct links as [|l0 links]; [done|].
  generalize (l0 :: links) at 2. intros ls.
  change (n x) with (n (link_at x key (l0 :: links))).
  generalize (link_at x key (l0 :: links)). clear.
  induction ls as [|a ls IH]; intros x; simpl; [done|]. by rewrite IH.
Qed.

(** What every sequence of operations keeps. *)
Lemma run_keeps num x0 (ops : list op) :
  New num = Some x0 →
  wf (run x0 ops) ∧ n (run x0 ops) = num ∧ placed (run x0 ops).
Proof.
  intros Hnew. unfold run. induction ops as [|o ops IH] using rev_ind.
  - split_and!; [by eapply wf_New| |by eapply placed_New].
    unfold New in Hnew. destruct (num <=? 0); by simplify_eq.
  - rewrite foldl_app. simpl. destruct IH as (Hwf & Hn & Hp).
    destruct o as [key link|ro key]; simpl.
    + split_and!; [by apply wf_Link|by rewrite n_Link|by apply placed_Link].
    + split_and!; [by apply wf_Del| |by apply placed_delKey_loop].
      destruct (Del ro _ key) as [D x'] eqn:Hdel.
      apply Del_spec in Hdel as (_ & Hn' & _); [|done]. simpl. congruence.
Qed.

(** With every entry in its shard, a graph is determined by its
    adjacency entries. *)
Lemma slot_ext x y :
  wf x → wf y → placed x → placed y → n x = n y →
  (∀ k, lookup x k = lookup y k) → x = y.
Proof.
  intros [_ Hlx] [_ Hly] Hpx Hpy Hn Hlk.
  assert (∀ k, index y k = index x k) as Hidx by (intros k; unfold index; by rewrite Hn).
  destruct x as [nx sx], y as [ny sy]. simpl in *. subst ny. f_equal.
  apply list_eq. intros i.
  destruct (sx !! i) as [lk|] eqn:Hx, (sy !! i) as [lk'|] eqn:Hy.
  - f_equal. apply map_eq. intros k.
    destruct (decide (index {| n := nx; slots := sx |} k = i)) as [Hi|Hi].
    + specialize (Hlk k). unfold lookup in Hlk. rewrite Hidx, Hi in Hlk. simpl in Hlk.
      by rewrite Hx, Hy in Hlk.
    + destruct (lk !! k) eqn:E1.
      { destruct Hi. eapply Hpx; [exact Hx|by rewrite E1]. }
      destruct (lk' !! k) eqn:E2; [|done].
      destruct Hi. rewrite <- Hidx. eapply Hpy; [exact Hy|by rewrite E2].
  - apply lookup_lt_Some in Hx. apply lookup_ge_None in Hy. lia.
  - apply lookup_lt_Some in Hy. apply lookup_ge_None in Hx. lia.
  - done.
Qed.

Lemma lookup_link_back x key ls k :
  wf x →
  lookup (foldl (λ x0 (s : string), link_at x0 s [key]) x ls) k =
    if decide (k ∈ ls) then Some ({[key]} ∪ adj x k) else lookup x k.
Proof.
  revert x. induction ls as [|a ls IH]; intros x Hwf; cbn [foldl].
  - by destruct (decide (k ∈ [])) as [?%elem_of_nil|].
  - rewrite IH by by apply wf_link_at. rewrite adj_link_at, lookup_link_at by done.
    destruct (decide (k = a)) as [->|Hne].
    + rewrite (decide_True (P := a ∈ a :: ls)) by set_solver.
      destruct (decide (a ∈ ls)); f_equal; set_solver.
    + destruct (decide (k ∈ ls)).
      * rewrite decide_True by set_solver. f_equal. set_solver.
      * rewrite decide_False by set_solver. done.
Qed.

(** The adjacency entries after [Link], entry by entry. *)
Lemma lookup_Link x key links k :
  wf x → links ≠ [] →
  lookup (Link x key links) k =
    if decide (k = key ∨ k ∈ links) then Some (adj (Link x key links) k)
    else lookup x k.
Proof.
  intros Hwf Hne. rewrite adj_Link by done. unfold Link.
  destruct links as [|l0 links]; [done|].
  rewrite lookup_link_back by by apply wf_link_at.
  rewrite adj_link_at, lookup_link_at by done.
  destruct (decide (k ∈ l0 :: links)) as [Hin|Hin].
  - rewrite (decide_True (P := k = key ∨ k ∈ l0 :: links)) by by right.
    f_equal. destruct (decide (k = key)); set_solver.
  - destruct (decide (k = key)) as [->|Hk].
    + rewrite (decide_True (P := key = key ∨ key ∈ l0 :: links)) by by left.
      f_equal. set_solver.
    + rewrite (decide_False (P := k = key ∨ k ∈ l0 :: links)) by (by intros [?|?]).
      done.
Qed.

Lemma placed_Del (ro : RangeOrder) x k : placed x → placed (Del ro x k).2.
Proof. apply placed_delKey_loop. Qed.

(** Two sequences of operations that leave the same adjacency entries
    leave the same graph. *)
Lemma Del_ext (ro ro' : RangeOrder) x y k k' :
  wf x → placed x → wf y → placed y → n x = n y →
  (Del ro x k).1 = (Del ro' y k').1 →
  (∀ a, a ∉ (Del ro x k).1 → lookup x a = lookup y a) →
  (Del ro x k).2 = (Del ro' y k').2.
Proof.
  intros Hwx Hpx Hwy Hpy Hn HD Hlk.
  pose proof (placed_Del ro x k Hpx) as Hp1.
  pose proof (placed_Del ro' y k' Hpy) as Hp2.
  destruct (Del ro x k) as [D x'] eqn:E1, (Del ro' y k') as [D' y'] eqn:E2.
  simpl in *. subst D'.
  apply Del_spec in E1 as (Hw1 & Hn1 & _ & Hl1 & _); [|done].
  apply Del_spec in E2 as (Hw2 & Hn2 & _ & Hl2 & _); [|done].
  apply slot_ext; try done; [congruence|].
  intros a. rewrite Hl1, Hl2. destruct (decide (a ∈ D)); [done|by apply Hlk].
Qed.

End link_more.

(** ** The linkage graph: further properties *)

(** X1.  [Link(key, links)] adds every link to the adjacency entry of
    [key] and [key] to the adjacency entry of every link, and changes no
    other adjacency: the neighbours of a key afterwards are its
    neighbours before, the links when it is [key], and [key] when it is
    one of the links. *)
Theorem Link_adds_both_directions (x : Link.slot) (key : string) (links : list string) :
  Link.wf x →
  ∀ a, Link.adj (Link.Link x key links) a =
         Link.adj x a ∪ (if decide (a = key) then list_to_set links else ∅)
                      ∪ (if decide (a ∈ links) then {[key]} else ∅).
Proof. intros Hwf a. by apply adj_Link. Qed.

Lemma Link_adds_both_directions_witness :
  Link.wf Examples.graph0 ∧
  ∀ a, Link.adj (Link.Link Examples.graph0 "a" ["b"; "c"]) a =
         Link.adj Examples.graph0 a
           ∪ (if decide (a = "a") then list_to_set ["b"; "c"] else ∅)
           ∪ (if decide (a ∈ ["b"; "c"]) then {["a"]} else ∅).
Proof.
  assert (Link.wf Examples.graph0) as Hwf by (split; reflexivity).
  split; [exact Hwf|].
  exact (Link_adds_both_directions Examples.graph0 "a" ["b"; "c"] Hwf).
Defined.

(** X2.  On a graph that [New] and any sequence of [Link] and [Del]
    operations produced, [Link] is idempotent, and the order of the links
    and their repetitions do not matter: two link lists with the same
    elements give the same graph. *)
Theorem Link_idempotent_unordered (num : Z) (x0 : Link.slot) (ops : list Link.op)
    (key : string) (links links' : list string) :
  Link.New num = Some x0 →
  (∀ k, k ∈ links ↔ k ∈ links') →
  let x := Link.run x0 ops in
  Link.Link (Link.Link x key links) key links = Link.Link x key links ∧
  Link.Link x key links' = Link.Link x key links.
Proof.
  intros Hnew Hsame x.
  destruct (run_keeps num x0 ops Hnew) as (Hwf & Hn & Hp). fold x in Hwf, Hn, Hp.
  assert (list_to_set links' = (list_to_set links : gset string)) as Hset by set_solver.
  split.
  - destruct links as [|l0 links]; [done|].
    apply slot_ext; try by repeat first [apply wf_Link|apply placed_Link].
    { by rewrite !n_Link. }
    intros k. rewrite !lookup_Link by (done || by apply wf_Link).
    rewrite !adj_Link by (done || by apply wf_Link).
    destruct (decide (k = key ∨ k ∈ l0 :: links)) as [Hk|Hk]; [|done].
    f_equal. destruct (decide (k = key)), (decide (k ∈ l0 :: links)); set_solver.
  - destruct links as [|l0 links], links' as [|l0' links']; try done.
    { specialize (Hsame l0'). set_solver. }
    { specialize (Hsame l0). set_solver. }
    apply slot_ext; try by repeat first [apply wf_Link|apply placed_Link].
    { by rewrite !n_Link. }
    intros k. rewrite !lookup_Link by done. rewrite !adj_Link by done. rewrite Hset.
    pose proof (Hsame k) as Hk.
    destruct (decide (k = key ∨ k ∈ l0' :: links')),
      (decide (k = key ∨ k ∈ l0 :: links)),
      (decide (k ∈ l0' :: links')), (decide (k ∈ l0 :: links));
      first [done | exfalso; tauto].
Qed.

Lemma Link_idempotent_unordered_witness :
  let x := Link.run Examples.graph0 [Link.OpLink "a" ["b"]] in
  Link.Link (Link.Link x "k" ["a"; "c"]) "k" ["a"; "c"] = Link.Link x "k" ["a"; "c"] ∧
  Link.Link x "k" ["c"; "a"; "c"] = Link.Link x "k" ["a"; "c"].
Proof.
  apply (Link_idempotent_unordered 10 Examples.graph0 [Link.OpLink "a" ["b"]]
           "k" ["a"; "c"] ["c"; "a"; "c"]).
  - reflexivity.
  - intros k. set_solver.
Defined.

(** X3.  The order in which Go ranges over the neighbour sets does not
    show in the result of [Del]: on a graph that [New] and any sequence
    of operations produced, two runs of [Del(k)] under different
    iteration orders return the same set and leave the same graph. *)
Theorem Del_iteration_order_irrelevant (num : Z) (x0 : Link.slot) (ops : list Link.op)
    (ro ro' : RangeOrder) (k : string) :
  Link.New num = Some x0 →
  Link.Del ro (Link.run x0 ops) k = Link.Del ro' (Link.run x0 ops) k.
Proof.
  intros Hnew. destruct (run_keeps num x0 ops Hnew) as (Hwf & Hn & Hp).
  assert ((Link.Del ro (Link.run x0 ops) k).1 = (Link.Del ro' (Link.run x0 ops) k).1) as HD.
  { apply set_eq. intros a. by rewrite !Del_reach. }
  pose proof (Del_ext ro ro' _ _ k k Hwf Hp Hwf Hp eq_refl HD (λ a _, eq_refl)) as Hx.
  destruct (Link.Del ro _ k), (Link.Del ro' _ k). simpl in *. by subst.
Qed.

Lemma Del_iteration_order_irrelevant_witness :
  Link.Del elements_order
    (Link.run Examples.graph0 [Link.OpLink "a" ["b"; "c"]; Link.OpLink "c" ["d"]]) "a" =
  Link.Del Examples.reverse_order
    (Link.run Examples.graph0 [Link.OpLink "a" ["b"; "c"]; Link.OpLink "c" ["d"]]) "a".
Proof. apply (Del_iteration_order_irrelevant 10). reflexivity. Defined.

(** X4.  Round trip.  When [key] and the links have no adjacency entry,
    [Link(key, links)] followed by [Del(key)] returns [key] and the
    links, and leaves the graph exactly as it was before the [Link]. *)
Theorem Link_then_Del_restores (num : Z) (x0 : Link.slot) (ops : list Link.op)
    (ro : RangeOrder) (key : string) (links : list string) :
  Link.New num = Some x0 →
  let x := Link.run x0 ops in
  Link.lookup x key = None →
  (∀ l, l ∈ links → Link.lookup x l = None) →
  Link.Del ro (Link.Link x key links) key = ({[key]} ∪ list_to_set links, x).
Proof.
  intros Hnew x Hkey Hlinks.
  destruct (run_keeps num x0 ops Hnew) as (Hwf & Hn & Hp). fold x in Hwf, Hn, Hp.
  destruct (decide (links = [])) as [->|Hne].
  { simpl. rewrite Del_absent by done. f_equal. set_solver. }
  rename links into ls.
  assert (Link.adj x key = ∅) as Hak by (unfold Link.adj; by rewrite Hkey).
  assert (∀ l, l ∈ ls → Link.adj x l = ∅) as Hal
    by (intros l Hl; unfold Link.adj; by rewrite Hlinks).
  pose proof (wf_Link x key ls Hwf) as Hwf1.
  pose proof (placed_Link x key ls Hp) as Hp1.
  assert ((Link.Del ro (Link.Link x key ls) key).1 = {[key]} ∪ list_to_set ls) as HD.
  { apply set_eq. intros a. rewrite Del_reach by done. split.
    - intros Hr. eapply (rtc_ind_r (λ y, y ∈ ({[key]} ∪ list_to_set ls : gset string)) key);
        [set_solver| |exact Hr].
      intros b c _ Hbc Hb. unfold Link.edge in Hbc. rewrite adj_Link in Hbc by done.
      apply elem_of_union in Hb as [->%elem_of_singleton|Hb%elem_of_list_to_set].
      + rewrite Hak in Hbc.
        destruct (decide (key = key)), (decide (key ∈ ls)); set_solver.
      + rewrite (Hal b Hb) in Hbc.
        destruct (decide (b = key)), (decide (b ∈ ls)); set_solver.
    - intros [->%elem_of_singleton|Ha%elem_of_list_to_set]%elem_of_union; [done|].
      apply rtc_once. unfold Link.edge. rewrite adj_Link by done.
      destruct (decide (key = key)); [|done]. set_solver. }
  pose proof (placed_Del ro _ key Hp1) as Hp2.
  destruct (Link.Del ro (Link.Link x key ls) key) as [D x'] eqn:Hdel. simpl in HD. subst D.
  f_equal. simpl in Hp2.
  apply Del_spec in Hdel as (Hw2 & Hn2 & _ & Hl2 & _); [|done].
  apply slot_ext; try done.
  { by rewrite Hn2, n_Link. }
  intros a. rewrite Hl2. destruct (decide (a ∈ {[key]} ∪ list_to_set ls)) as [Ha|Ha].
  - apply elem_of_union in Ha as [->%elem_of_singleton|Ha%elem_of_list_to_set];
      [by rewrite Hkey|by rewrite Hlinks].
  - rewrite lookup_Link by done.
    destruct (decide (a = key ∨ a ∈ ls)) as [[?|?]|?]; [set_solver..|done].
Qed.

Lemma Link_then_Del_restores_witness :
  let x := Link.run Examples.graph0 [Link.OpLink "a" ["b"]] in
  Link.lookup x "k" = None ∧
  Link.Del elements_order (Link.Link x "k" ["l"; "m"]) "k" =
    ({["k"]} ∪ list_to_set ["l"; "m"], x).
Proof.
  split; [reflexivity|].
  apply (Link_then_Del_restores 10 Examples.graph0 [Link.OpLink "a" ["b"]]
           elements_order "k" ["l"; "m"]).
  - reflexivity.
  - reflexivity.
  - intros l Hl.
    assert (l = "l" ∨ l = "m") as [-> | ->] by set_solver; reflexivity.
Defined.

(** X5.  After [Del(k)], a [Del] of any key it returned returns that key
    only and changes nothing: the first [Del] left no adjacency entry for
    any key of its set. *)
Theorem Del_again_is_inert (ro ro' : RangeOrder) (x : Link.slot) (k k' : string) :
  Link.wf x →
  k' ∈ (Link.Del ro x k).1 →
  Link.Del ro' (Link.Del ro x k).2 k' = ({[k']}, (Link.Del ro x k).2).
Proof.
  intros Hwf Hk'. apply Del_absent.
  destruct (Link.Del ro x k) as [D x'] eqn:Hdel.
  apply Del_spec in Hdel as (_ & _ & _ & Hlk & _); [|done].
  simpl in *. by rewrite Hlk, decide_True.
Qed.

Lemma Del_again_is_inert_witness :
  Link.Del elements_order (Link.Del elements_order Examples.graph_abc "a").2 "c" =
    ({["c"]}, (Link.Del elements_order Examples.graph_abc "a").2).
Proof.
  apply (Del_again_is_inert elements_order elements_order Examples.graph_abc "a" "c").
  - split; reflexivity.
  - apply Del_reach; [split; reflexivity|].
    eapply (rtc_l _ _ "b"); [|apply rtc_once]; unfold Link.edge;
      apply elem_of_elements; vm_compute; set_solver.
Defined.

(** X6.  The traversal of [delKey] ends: on a well-formed graph the loop
    empties its stack within one iteration more than the number of stored
    neighbours, and a larger bound on the iterations gives the same
    result.  The set it returns has at most that many keys. *)
Theorem delKey_terminates (ro : RangeOrder) (x : Link.slot) (k : string) (fuel : nat) :
  Link.wf x →
  (S (Link.weight x) ≤ fuel)%nat →
  Link.delKey_loop ro fuel x ∅ [k] = (Link.delKey ro x k, []) ∧
  (size (Link.delKey ro x k).1 ≤ S (Link.weight x))%nat.
Proof.
  intros Hwf Hfuel. split.
  - rewrite (delKey_loop_fuel ro (S (Link.weight x)) fuel) by (simpl; lia).
    unfold Link.delKey.
    pose proof (delKey_loop_terminates ro (S (Link.weight x)) x ∅ [k]) as Ht.
    destruct (Link.delKey_loop ro (S (Link.weight x)) x ∅ [k]) as [r rest].
    simpl in *. rewrite Ht by lia. done.
  - change (Link.delKey ro x k) with (Link.Del ro x k).
    destruct (Link.Del ro x k) as [D x'] eqn:Hdel.
    apply Del_spec in Hdel as (_ & _ & _ & _ & _ & _ & Hsz); [|done]. simpl. lia.
Qed.

Lemma delKey_terminates_witness :
  Link.delKey_loop elements_order 100 Examples.graph_abc ∅ ["a"] =
    (Link.delKey elements_order Examples.graph_abc "a", []) ∧
  (size (Link.delKey elements_order Examples.graph_abc "a").1
     ≤ S (Link.weight Examples.graph_abc))%nat.
Proof.
  apply (delKey_terminates elements_order Examples.graph_abc "a" 100).
  - split; reflexivity.
  - vm_compute. lia.
Defined.

(** X7.  No operation indexes the shards out of range or moves an
    entry to a wrong shard: on every graph that [New] and a sequence of
    [Link] and [Del] operations produce, the number of shards is the one
    given to [New], [index] is below it for every key, and a key that has
    an adjacency entry has it in the shard that [index] names. *)
Theorem shards_stay_in_range (num : Z) (x0 : Link.slot) (ops : list Link.op) :
  Link.New num = Some x0 →
  let x := Link.run x0 ops in
  length (Link.slots x) = Z.to_nat num ∧
  (∀ k, (Link.index x k < length (Link.slots x))%nat) ∧
  (∀ i lk k, Link.slots x !! i = Some lk → is_Some (lk !! k) → i = Link.index x k).
Proof.
  intros Hnew x. destruct (run_keeps num x0 ops Hnew) as (Hwf & Hn & Hp).
  fold x in Hwf, Hn, Hp. split_and!.
  - destruct Hwf as [_ ->]. by rewrite Hn.
  - intros k. by apply index_lt.
  - intros i lk k Hi Hk. symmetry. by eapply Hp.
Qed.

Lemma shards_stay_in_range_witness :
  let x := Link.run Examples.graph0
             [Link.OpLink "a" ["b"; "c"]; Link.OpDel elements_order "b"] in
  length (Link.slots x) = Z.to_nat 10 ∧
  (∀ k, (Link.index x k < length (Link.slots x))%nat) ∧
  (∀ i lk k, Link.slots x !! i = Some lk → is_Some (lk !! k) → i = Link.index x k).
Proof. apply (shards_stay_in_range 10). reflexivity. Defined.



(** * Further facts about the shard LRU *)

Section expirable_more.
Import Expirable.
Context {P S : Type}.
Implicit Types (c : LRU P S) (l : list (entry P)) (e : entry P) (key : string).

Lemma submseteq_NoDup {A} (l k : list A) : l ⊆+ k → NoDup k → NoDup l.
Proof.
  intros [k' Hk]%submseteq_Permutation Hnd. rewrite Hk in Hnd.
  by apply NoDup_app in Hnd as [? _].
Qed.

Lemma submseteq_Forall {A} (Q : A → Prop) (l k : list A) :
  l ⊆+ k → Forall Q k → Forall Q l.
Proof.
  rewrite !Forall_forall. intros Hs HQ x Hx. apply HQ. by eapply elem_of_submseteq.
Qed.

Lemma remove_submseteq l key : remove l key ⊆+ l.
Proof. apply sublist_submseteq, sublist_filter. Qed.

Lemma remove_no_key l key e : e ∈ remove l key → ekey e ≠ key.
Proof. unfold remove. by intros [? _]%list_elem_of_filter. Qed.

Lemma find_elem_of l key e : find l key = Some e → e ∈ l.
Proof.
  unfold find. intros He%head_Some_elem_of.
  by apply list_elem_of_filter in He as [_ ?].
Qed.

Lemma hit_submseteq l key e : find l key = Some e → e :: remove l key ⊆+ l.
Proof.
  induction l as [|a l IH]; [done|]. rewrite find_cons. unfold remove.
  rewrite filter_cons. destruct (decide (ekey a = key)) as [Ha|Ha].
  - intros [= ->]. rewrite decide_False by (by intros ?).
    apply submseteq_skip, remove_submseteq.
  - intros Hf. rewrite decide_True by done.
    etrans; [apply Permutation_submseteq, Permutation_swap|].
    apply submseteq_skip, IH, Hf.
Qed.

Lemma hit_length l key e :
  find l key = Some e → (length (remove l key) < length l)%nat.
Proof.
  intros Hf. pose proof (submseteq_length _ _ (hit_submseteq l key e Hf)) as H.
  simpl in H. lia.
Qed.

(** The entries after each operation of the core. *)
Lemma Get_list c now key s : evictList (Get c now key s).1.2 ⊆+ evictList c.
Proof.
  unfold Get. destruct (find _ _) as [e|] eqn:Hf; [|done].
  destruct (_ <? _); simpl; [apply remove_submseteq|by apply hit_submseteq].
Qed.

Lemma Remove_list c key : evictList (Remove c key).2 ⊆+ evictList c.
Proof.
  unfold Remove. destruct (find _ _) as [e|] eqn:Hf; [|done].
  apply remove_submseteq.
Qed.

Lemma Remove_no_key c key e :
  e ∈ evictList (Remove c key).2 → ekey e ≠ key.
Proof.
  unfold Remove. destruct (find _ _) as [e'|] eqn:Hf; simpl.
  - apply remove_no_key.
  - intros He <-. unfold find in Hf. apply head_None in Hf.
    assert (e ∈ filter (λ e0, ekey e0 = ekey e) (evictList c)) as Hin
      by by apply list_elem_of_filter.
    rewrite Hf in Hin. by apply elem_of_nil in Hin.
Qed.

Lemma Add_list c now key p s :
  evictList (Add c now key p s).1 ⊆+
    {| ekey := key; evalue := p; expiresAt := now + ttl c |} :: remove (evictList c) key.
Proof.
  unfold Add. destruct (find _ _) as [e|] eqn:Hf; simpl; [done|].
  rewrite (remove_absent _ _ Hf). destruct (size c <? _); [|done].
  rewrite reverse_cons. destruct (reverse (evictList c)) as [|old r] eqn:Hr; simpl.
  - apply submseteq_nil_l.
  - rewrite reverse_app. simpl. apply submseteq_skip.
    rewrite <- (reverse_involutive (evictList c)), Hr, reverse_cons.
    by apply submseteq_inserts_r.
Qed.

Lemma Add_length c now key p s :
  1 ≤ size c → Z.of_nat (length (evictList c)) ≤ size c →
  Z.of_nat (length (evictList (Add c now key p s).1)) ≤ size c.
Proof.
  intros Hsz Hlen. unfold Add. destruct (find _ _) as [e|] eqn:Hf; simpl.
  - pose proof (hit_length _ _ _ Hf). lia.
  - destruct (size c <? _) eqn:Hcap;
      [apply Z.ltb_lt in Hcap|apply Z.ltb_ge in Hcap; simpl in *; lia].
    rewrite reverse_cons. destruct (reverse (evictList c)) as [|old r] eqn:Hr; simpl.
    + lia.
    + rewrite length_reverse, length_app. cbn [length].
      apply (f_equal length) in Hr. rewrite length_reverse in Hr. cbn [length] in Hr.
      lia.
Qed.

(** An insert below the capacity evicts nothing and runs no callback. *)
Lemma Add_room c now key p s :
  Z.of_nat (length (evictList c)) < size c →
  Add c now key p s =
    (with_list c ({| ekey := key; evalue := p; expiresAt := now + ttl c |}
                    :: remove (evictList c) key), s).
Proof.
  intros Hlen. unfold Add. destruct (find _ _) as [e|] eqn:Hf; [done|].
  rewrite (remove_absent _ _ Hf).
  destruct (size c <? _) eqn:Hcap; [|done].
  apply Z.ltb_lt in Hcap. simpl in Hcap. lia.
Qed.

(** An insert of a present key refreshes it and runs no callback. *)
Lemma Add_present c now key p s :
  is_Some (find (evictList c) key) →
  Add c now key p s =
    (with_list c ({| ekey := key; evalue := p; expiresAt := now + ttl c |}
                    :: remove (evictList c) key), s).
Proof. intros [e Hf]. unfold Add. by rewrite Hf. Qed.

(** After an insert into a core of capacity at least one, the key has
    the new entry. *)
Lemma find_Add c now key p s :
  1 ≤ size c →
  find (evictList (Add c now key p s).1) key =
    Some {| ekey := key; evalue := p; expiresAt := now + ttl c |}.
Proof.
  intros Hsz. destruct (find (evictList c) key) as [e|] eqn:Hf.
  - rewrite Add_present by done. simpl. by rewrite find_cons, decide_True.
  - destruct (Add_absent c now key p s Hf Hsz) as (l & -> & _). simpl.
    by rewrite find_cons, decide_True.
Qed.

Lemma bounded_same c c' :
  same_config c c' → evictList c' ⊆+ evictList c → bounded c → bounded c'.
Proof.
  intros (Hs & _) Hl (Hsz & Hlen & Hnd). unfold bounded. rewrite Hs.
  split_and!; [done| |].
  - apply submseteq_length in Hl. lia.
  - eapply submseteq_NoDup; [|done]. by apply fmap_submseteq.
Qed.

Lemma bounded_Get c now key s : bounded c → bounded (Get c now key s).1.2.
Proof. apply bounded_same; [apply same_config_Get|apply Get_list]. Qed.

Lemma bounded_Remove c key : bounded c → bounded (Remove c key).2.
Proof. apply bounded_same; [apply same_config_Remove|apply Remove_list]. Qed.

Lemma bounded_Add c now key p s : bounded c → bounded (Add c now key p s).1.
Proof.
  intros (Hsz & Hlen & Hnd).
  destruct (same_config_Add c now key p s) as (Hs & _).
  unfold bounded. rewrite Hs. split_and!; [done|by apply Add_length|].
  eapply submseteq_NoDup; [apply fmap_submseteq, Add_list|].
  rewrite fmap_cons. simpl. apply NoDup_cons. split.
  - intros (e & He & Hin)%list_elem_of_fmap. by apply remove_no_key in Hin.
  - eapply submseteq_NoDup; [apply fmap_submseteq, remove_submseteq|done].
Qed.

End expirable_more.

Section lru_more.
Import Lru.
Context {V : Type} (zero : V) {Env : Type}.
Implicit Types (x : ExpirationLRU V Env) (key : string)
  (c : Expirable.LRU nat (list (expirationLruItem V) * Env))
  (h : list (expirationLruItem V)) (e : Expirable.entry nat).

Lemma wrapped_same c c' :
  Expirable.same_config c c' → wrapped zero c → wrapped zero c'.
Proof. intros (_ & _ & Hcb) [f Hf]. exists f. by rewrite Hcb. Qed.

(** The wrapper of [NewExpirationLRU] reads the items and does not
    change them. *)
Lemma fire_heap c e (s : list (expirationLruItem V) * Env) :
  wrapped zero c → (Expirable.fire c e s).1 = s.1.
Proof. intros [f Hf]. unfold Expirable.fire. rewrite Hf. by destruct f. Qed.

Lemma Get_heap c now key (s : list (expirationLruItem V) * Env) :
  wrapped zero c → (Expirable.Get c now key s).2.1 = s.1.
Proof.
  intros Hw. unfold Expirable.Get. destruct (Expirable.find _ _) as [e|]; [|done].
  destruct (_ <? _); [|done]. by apply fire_heap.
Qed.

Lemma Add_heap c now key p (s : list (expirationLruItem V) * Env) :
  wrapped zero c → (Expirable.Add c now key p s).2.1 = s.1.
Proof.
  intros Hw. unfold Expirable.Add. destruct (Expirable.find _ _) as [e|]; [done|].
  destruct (_ <? _); [|done]. destruct (reverse _); [done|]. by apply fire_heap.
Qed.

Lemma deref_app_l h it p : (p < length h)%nat → deref zero (h ++ [it]) p = deref zero h p.
Proof. intros Hp. unfold deref. by rewrite lookup_app_l. Qed.

Lemma deref_app_r h it : deref zero (h ++ [it]) (length h) = it.
Proof. unfold deref. by rewrite list_lookup_middle. Qed.

Lemma item_ok_app h it e : item_ok zero h e → item_ok zero (h ++ [it]) e.
Proof.
  intros [Hp He]. split; [rewrite length_app; lia|]. by rewrite deref_app_l.
Qed.

Lemma item_ok_insert h p it e :
  item_ok zero h e → Expirable.evalue e ≠ p → item_ok zero (<[p:=it]> h) e.
Proof.
  intros [Hp He] Hne. split; [by rewrite length_insert|].
  unfold deref in *. by rewrite list_lookup_insert_ne.
Qed.

(** *** Properties of the core alone, carried to the shard LRU *)
Section closed.
Variable Q : Expirable.LRU nat (list (expirationLruItem V) * Env) → Prop.
Hypothesis QGet : ∀ c now key s, Q c → Q (Expirable.Get c now key s).1.2.
Hypothesis QAdd : ∀ c now key p s, Q c → Q (Expirable.Add c now key p s).1.
Hypothesis QRemove : ∀ c key, Q c → Q (Expirable.Remove c key).2.

Lemma closed_Get x now key fetch env :
  Q (core x) → Q (core (Get zero x now key fetch env).1.2).
Proof.
  intros HQ. unfold Get.
  pose proof (QGet (core x) now key (items x, env) HQ) as H1.
  destruct (Expirable.Get _ _ _ _) as [[r c1] [h1 env1]]. simpl in H1.
  destruct r as [p|]; [done|].
  pose proof (QAdd c1 now key (length h1)
                (h1 ++ [{| err := None; value := zero |}], env1) H1) as H2.
  destruct (Expirable.Add _ _ _ _ _) as [c2 [h2 env2]]. simpl in H2.
  destruct (fetch env2) as [[v e] env3]. destruct e as [msg|]; [|done].
  pose proof (QRemove c2 key H2) as H3.
  by destruct (Expirable.Remove _ _) as [ok c3].
Qed.

Lemma closed_Del x key env : Q (core x) → Q (core (Del x key env).1.2).
Proof.
  intros HQ. unfold Del.
  pose proof (QRemove (core x) key HQ) as H1.
  by destruct (Expirable.Remove _ _) as [ok c1].
Qed.

Lemma closed_Set x now key v env : Q (core x) → Q (core (Set_ x now key v env).1).
Proof.
  intros HQ. unfold Set_.
  pose proof (QAdd (core x) now key (length (items x))
                (items x ++ [{| err := None; value := v |}], env) HQ) as H1.
  by destruct (Expirable.Add _ _ _ _ _) as [c1 [h1 env1]].
Qed.

Lemma closed_SetHas x now key v env :
  Q (core x) → Q (core (SetHas x now key v env).1.2).
Proof.
  intros HQ. unfold SetHas. destruct (Expirable.Contains _ _); [|done].
  pose proof (QAdd (core x) now key (length (items x))
                (items x ++ [{| err := None; value := v |}], env) HQ) as H1.
  by destruct (Expirable.Add _ _ _ _ _) as [c1 [h1 env1]].
Qed.

Lemma closed_scan1 now (b : batch V Env) key :
  Q (core (b_lru b)) → Q (core (b_lru (GetBatch_scan1 zero now b key))).
Proof.
  intros HQ. unfold GetBatch_scan1.
  pose proof (QGet (core (b_lru b)) now key (items (b_lru b), b_env b) HQ) as H1.
  destruct (Expirable.Get _ _ _ _) as [[r c1] [h1 env1]]. by destruct r.
Qed.

Lemma closed_scan now keys (b : batch V Env) :
  Q (core (b_lru b)) → Q (core (b_lru (foldl (GetBatch_scan1 zero now) b keys))).
Proof.
  revert b. induction keys as [|k keys IH]; intros b HQ; simpl; [done|].
  by apply IH, closed_scan1.
Qed.

Lemma closed_store now values er queries x env (res : gmap string V) :
  Q (core x) →
  Q (core (foldl (GetBatch_store1 now values er) (x, env, res) queries).1.1).
Proof.
  revert x env res. induction queries as [|k queries IH]; intros x env res HQ;
    simpl; [done|].
  destruct (values !! k) as [val|]; [|by apply IH].
  pose proof (QAdd (core x) now k (length (items x))
                (items x ++ [{| err := None; value := val |}], env) HQ) as H1.
  destruct (Expirable.Add _ _ _ _ _) as [c1 [h1 env1]]. by apply IH.
Qed.

Lemma closed_GetBatch x now keys fetch env :
  Q (core x) → Q (core (GetBatch zero x now keys fetch env).1.2).
Proof.
  intros HQ. unfold GetBatch, GetBatch_scan.
  pose proof (closed_scan now keys
    {| b_lru := x; b_env := env; b_res := ∅; b_err := None; b_queries := [] |} HQ)
    as Hb.
  destruct (foldl _ _ keys) as [x1 env1 res1 err1 queries1].
  cbn [b_lru b_env b_res b_err b_queries] in *.
  destruct queries1 as [|q queries1]; [done|].
  generalize (q :: queries1). intros qs.
  destruct (fetch _ _) as [[values fetchErr] env2].
  pose proof (closed_store now values (once_err err1 fetchErr) qs
                x1 env2 res1 Hb) as Hs.
  destruct (foldl _ _ qs) as [[x2 env3] res2]. simpl in Hs.
  by destruct fetchErr.
Qed.
End closed.

(** *** No failure stays cached *)

Lemma elem_of_Add c now key p (s : list (expirationLruItem V) * Env) e :
  e ∈ Expirable.evictList (Expirable.Add c now key p s).1 →
  e = {| Expirable.ekey := key; Expirable.evalue := p;
         Expirable.expiresAt := now + Expirable.ttl c |} ∨
  e ∈ Expirable.evictList c ∧ Expirable.ekey e ≠ key.
Proof.
  intros He. eapply elem_of_submseteq in He; [|apply Add_list].
  apply elem_of_cons in He as [->|He]; [by left|right]. split.
  - eapply elem_of_submseteq; [exact He|apply remove_submseteq].
  - by eapply remove_no_key.
Qed.

(** Storing a value: [Add] of a fresh item that holds no error. *)
Lemma sound_store x now key v env c1 h1 env1 :
  sound zero x →
  Expirable.Add (core x) now key (length (items x))
    (items x ++ [{| err := None; value := v |}], env) = (c1, (h1, env1)) →
  sound zero (with_core x c1 h1) ∧ h1 = items x ++ [{| err := None; value := v |}].
Proof.
  intros [Hw Hall] HA.
  pose proof (same_config_Add (core x) now key (length (items x))
                (items x ++ [{| err := None; value := v |}], env)) as Hsc.
  pose proof (Add_heap (core x) now key (length (items x))
                (items x ++ [{| err := None; value := v |}], env) Hw) as Hh.
  pose proof (λ e, elem_of_Add (core x) now key (length (items x))
                (items x ++ [{| err := None; value := v |}], env) e) as Hin.
  rewrite HA in Hsc, Hh, Hin. simpl in Hsc, Hh, Hin. subst h1. split; [|done].
  split; [by eapply wrapped_same|]. unfold entries. simpl.
  apply Forall_forall. intros e [->|[He _]]%Hin.
  - split; simpl; [rewrite length_app; simpl; lia|]. by rewrite deref_app_r.
  - apply item_ok_app. rewrite Forall_forall in Hall. by apply Hall.
Qed.

Lemma sound_Get x now key fetch env :
  sound zero x → sound zero (Get zero x now key fetch env).1.2.
Proof.
  intros [Hw Hall]. unfold Get.
  pose proof (same_config_Get (core x) now key (items x, env)) as Hsc1.
  pose proof (Get_heap (core x) now key (items x, env) Hw) as Hh1.
  pose proof (Get_list (core x) now key (items x, env)) as HL1.
  destruct (Expirable.Get _ _ _ _) as [[r c1] [h1 env1]]. simpl in Hsc1, Hh1, HL1.
  subst h1.
  assert (wrapped zero c1) as Hw1 by by eapply wrapped_same.
  assert (Forall (item_ok zero (items x)) (Expirable.evictList c1)) as Hall1
    by by eapply submseteq_Forall.
  destruct r as [p|]; [by split|].
  set (h2 := items x ++ [{| err := None; value := zero |}]).
  pose proof (same_config_Add c1 now key (length (items x)) (h2, env1)) as Hsc2.
  pose proof (Add_heap c1 now key (length (items x)) (h2, env1) Hw1) as Hh2.
  pose proof (λ e, elem_of_Add c1 now key (length (items x)) (h2, env1) e) as Hin2.
  destruct (Expirable.Add _ _ _ _ _) as [c2 [h2' env2]]. simpl in Hsc2, Hh2, Hin2.
  subst h2'.
  assert (wrapped zero c2) as Hw2 by by eapply wrapped_same.
  destruct (fetch env2) as [[v e] env3].
  rewrite Forall_forall in Hall1.
  assert (∀ it en, en ∈ Expirable.evictList c1 →
            item_ok zero (<[length (items x):=it]> h2) en) as Hold.
  { intros it en Hen. apply item_ok_insert; [by apply item_ok_app, Hall1|].
    destruct (Hall1 _ Hen) as [Hlt _]. lia. }
  destruct e as [msg|].
  - pose proof (same_config_Remove c2 key) as Hsc3.
    pose proof (Remove_list c2 key) as HL3.
    pose proof (λ en, Remove_no_key c2 key en) as Hnk.
    destruct (Expirable.Remove _ _) as [ok c3].
    simpl in Hsc3, HL3, Hnk.
    split; [by eapply wrapped_same|]. unfold entries. simpl.
    apply Forall_forall. intros en Hen. pose proof (Hnk _ Hen) as Hne.
    eapply elem_of_submseteq in Hen; [|exact HL3].
    apply Hin2 in Hen as [->|[Hen _]]; [done|]. by apply Hold.
  - split; [done|]. unfold entries. simpl.
    apply Forall_forall. intros en [->|[Hen _]]%Hin2; [|by apply Hold].
    split; simpl.
    + rewrite length_insert. unfold h2. rewrite length_app. simpl. lia.
    + unfold deref. rewrite list_lookup_insert_eq; [done|].
      unfold h2. rewrite length_app. simpl. lia.
Qed.

Lemma sound_Del x key env : sound zero x → sound zero (Del x key env).1.2.
Proof.
  intros [Hw Hall]. unfold Del.
  pose proof (same_config_Remove (core x) key) as Hsc.
  pose proof (Remove_list (core x) key) as HL.
  destruct (Expirable.Remove _ _) as [ok c1]. simpl in *.
  split; [by eapply wrapped_same|]. by eapply submseteq_Forall.
Qed.

Lemma sound_Set x now key v env : sound zero x → sound zero (Set_ x now key v env).1.
Proof.
  intros Hs. unfold Set_.
  destruct (Expirable.Add _ _ _ _ _) as [c1 [h1 env1]] eqn:HA.
  by destruct (sound_store x now key v env c1 h1 env1 Hs HA).
Qed.

Lemma sound_SetHas x now key v env :
  sound zero x → sound zero (SetHas x now key v env).1.2.
Proof.
  intros Hs. unfold SetHas. destruct (Expirable.Contains _ _); [|done].
  destruct (Expirable.Add _ _ _ _ _) as [c1 [h1 env1]] eqn:HA.
  by destruct (sound_store x now key v env c1 h1 env1 Hs HA).
Qed.

(** *** What a read finds *)

Lemma view_with_core_id x now key :
  view zero (with_core x (core x) (items x)) now key = view zero x now key.
Proof. by rewrite with_core_id. Qed.

(** One key of the first pass of [GetBatch]. *)
Lemma scan1_spec now (b : batch V Env) key :
  sound zero (b_lru b) →
  let b' := GetBatch_scan1 zero now b key in
  sound zero (b_lru b') ∧ target (b_lru b') = target (b_lru b) ∧
  (∀ k, view zero (b_lru b') now k = view zero (b_lru b) now k) ∧
  b_err b' = b_err b ∧
  match view zero (b_lru b) now key with
  | Some v =>
      b_res b' = <[key := v]> (b_res b) ∧ b_queries b' = b_queries b ∧
      b_env b' = IncrGetHit (target (b_lru b)) (b_env b)
  | None => b_res b' = b_res b ∧ b_queries b' = b_queries b ++ [key]
  end.
Proof.
  intros [Hw Hall]. unfold GetBatch_scan1, view, entries, Expirable.Get.
  destruct (Expirable.find (Expirable.evictList (core (b_lru b))) key) as [e|] eqn:Hf.
  - destruct (Expirable.expiresAt e <? now) eqn:Hexp.
    + pose proof (fire_heap (core (b_lru b)) e (items (b_lru b), b_env b) Hw) as Hh.
      destruct (Expirable.fire _ _ _) as [h1 env1]. simpl in Hh. subst h1. simpl.
      split_and!; try done.
      * split; [done|]. unfold entries. simpl.
        eapply submseteq_Forall; [apply remove_submseteq|done].
      * intros k. rewrite find_remove. destruct (decide (k = key)) as [->|]; [|done].
        by rewrite Hf, Hexp.
    + simpl. rewrite Forall_forall in Hall.
      destruct (Hall e (find_elem_of _ _ _ Hf)) as [_ He]. rewrite He.
      split_and!; try done.
      * split; [done|]. unfold entries. simpl. apply Forall_forall.
        intros en Hen. apply Hall. eapply elem_of_submseteq; [exact Hen|].
        by apply hit_submseteq.
      * intros k. rewrite find_cons, find_remove, (find_key _ _ _ Hf).
        destruct (decide (key = k)) as [<-|Hne].
        { by rewrite Hf, Hexp. }
        by rewrite decide_False by done.
  - simpl. by split_and!.
Qed.

(** The first pass of [GetBatch]. *)
Lemma scan_spec now keys (b : batch V Env) :
  sound zero (b_lru b) →
  let b' := foldl (GetBatch_scan1 zero now) b keys in
  sound zero (b_lru b') ∧ target (b_lru b') = target (b_lru b) ∧
  (∀ k, view zero (b_lru b') now k = view zero (b_lru b) now k) ∧
  b_err b' = b_err b ∧
  b_queries b' =
    b_queries b ++ filter (λ k, ¬ is_Some (view zero (b_lru b) now k)) keys ∧
  (∀ k, b_res b' !! k =
          match (if decide (k ∈ keys) then view zero (b_lru b) now k else None) with
          | Some v => Some v
          | None => b_res b !! k
          end) ∧
  ((∀ k, k ∈ keys → is_Some (view zero (b_lru b) now k)) →
   b_env b' = foldl (λ env _, IncrGetHit (target (b_lru b)) env) (b_env b) keys).
Proof.
  revert b. induction keys as [|key keys IH]; intros b Hs; simpl.
  - rewrite app_nil_r. by split_and!.
  - destruct (scan1_spec now b key Hs) as (Hs1 & Ht1 & Hv1 & He1 & Hm).
    destruct (IH _ Hs1) as (Hs2 & Ht2 & Hv2 & He2 & Hq2 & Hr2 & Hn2).
    split_and!; [done|congruence|by intros k; rewrite Hv2, Hv1|congruence| | |].
    + rewrite Hq2. rewrite filter_cons.
      rewrite (list_filter_iff _ (λ k, ¬ is_Some (view zero (b_lru b) now k)))
        by (intros k; by rewrite Hv1).
      destruct (view zero (b_lru b) now key) as [v|] eqn:Hv.
      * destruct Hm as (_ & -> & _). rewrite decide_False; [done|].
        intros Hn. apply Hn. by eexists.
      * destruct Hm as (_ & ->). rewrite decide_True by (by intros [? ?]).
        by rewrite <- app_assoc.
    + intros k. rewrite Hr2, Hv1.
      destruct (decide (k = key)) as [->|Hne].
      * rewrite (decide_True (P := key ∈ key :: keys)) by set_solver.
        destruct (view zero (b_lru b) now key) as [v|] eqn:Hv.
        { destruct Hm as (-> & _). rewrite lookup_insert_eq.
          by destruct (decide (key ∈ keys)). }
        destruct Hm as (-> & _). by destruct (decide (key ∈ keys)).
      * assert (b_res (GetBatch_scan1 zero now b key) !! k = b_res b !! k) as ->.
        { destruct (view zero (b_lru b) now key); destruct Hm as (-> & _); [|done].
          by rewrite lookup_insert_ne. }
        destruct (decide (k ∈ keys)).
        { by rewrite (decide_True (P := k ∈ key :: keys)) by set_solver. }
        by rewrite (decide_False (P := k ∈ key :: keys)) by set_solver.
    + intros Hlive. rewrite Hn2, Ht1.
      * destruct (Hlive key) as [v Hv]; [set_solver|]. rewrite Hv in Hm.
        by destruct Hm as (_ & _ & ->).
      * intros k Hk. rewrite Hv1. apply Hlive. set_solver.
Qed.

(** The result map of the second pass of [GetBatch] depends on the
    fetched values only. *)
Lemma store_res now values er queries x env (res : gmap string V) k :
  (foldl (GetBatch_store1 now values er) (x, env, res) queries).2 !! k =
    match (if decide (k ∈ queries) then values !! k else None) with
    | Some v => Some v
    | None => res !! k
    end.
Proof.
  revert x env res. induction queries as [|q queries IH]; intros x env res; simpl.
  - by destruct (decide (k ∈ [])) as [?%elem_of_nil|].
  - destruct (values !! q) as [val|] eqn:Hq.
    + destruct (Expirable.Add _ _ _ _ _) as [c1 [h1 env1]]. rewrite IH.
      destruct (decide (k = q)) as [->|Hne].
      * rewrite (decide_True (P := q ∈ q :: queries)) by set_solver.
        rewrite Hq, lookup_insert_eq. by destruct (decide (q ∈ queries)); rewrite ?Hq.
      * rewrite lookup_insert_ne by done.
        destruct (decide (k ∈ queries)).
        { by rewrite (decide_True (P := k ∈ q :: queries)) by set_solver. }
        by rewrite (decide_False (P := k ∈ q :: queries)) by set_solver.
    + rewrite IH. destruct (decide (k = q)) as [->|Hne].
      * rewrite (decide_True (P := q ∈ q :: queries)) by set_solver.
        rewrite Hq. by destruct (decide (q ∈ queries)); rewrite ?Hq.
      * destruct (decide (k ∈ queries)).
        { by rewrite (decide_True (P := k ∈ q :: queries)) by set_solver. }
        by rewrite (decide_False (P := k ∈ q :: queries)) by set_solver.
Qed.

Lemma sound_store1 now values er x env (res : gmap string V) q :
  sound zero x → sound zero (GetBatch_store1 now values er (x, env, res) q).1.1.
Proof.
  intros Hs. simpl. destruct (values !! q) as [val|]; [|done].
  destruct (Expirable.Add _ _ _ _ _) as [c1 [h1 env1]] eqn:HA.
  by destruct (sound_store x now q val env c1 h1 env1 Hs HA).
Qed.

Lemma sound_store_loop now values er queries x env (res : gmap string V) :
  sound zero x →
  sound zero (foldl (GetBatch_store1 now values er) (x, env, res) queries).1.1.
Proof.
  revert x env res. induction queries as [|q queries IH]; intros x env res Hs;
    [done|].
  cbn [foldl].
  pose proof (sound_store1 now values er x env res q Hs) as H1.
  destruct (GetBatch_store1 now values er (x, env, res) q) as [[x1 env1] res1].
  by apply IH.
Qed.

Lemma sound_GetBatch x now keys fetch env :
  sound zero x → sound zero (GetBatch zero x now keys fetch env).1.2.
Proof.
  intros Hs. unfold GetBatch, GetBatch_scan.
  destruct (scan_spec now keys
    {| b_lru := x; b_env := env; b_res := ∅; b_err := None; b_queries := [] |} Hs)
    as (Hb & _).
  destruct (foldl _ _ keys) as [x1 env1 res1 err1 queries1].
  cbn [b_lru b_env b_res b_err b_queries] in *.
  destruct queries1 as [|q queries1]; [done|].
  generalize (q :: queries1). intros qs.
  destruct (fetch _ _) as [[values fetchErr] env2].
  pose proof (sound_store_loop now values (once_err err1 fetchErr) qs
                x1 env2 res1 Hb) as Hst.
  destruct (foldl _ _ qs) as [[x2 env3] res2]. simpl in Hst.
  by destruct fetchErr.
Qed.

(** *** States reached from [NewExpirationLRU] *)

Lemma sound_New size sTTL fTTL tg cb :
  sound zero (NewExpirationLRU zero (Env := Env) size sTTL fTTL tg cb).
Proof. split; [by exists cb; destruct cb|]. by apply Forall_nil. Qed.

Lemma bounded_New size sTTL fTTL tg cb :
  1 ≤ size → bounded (NewExpirationLRU zero (Env := Env) size sTTL fTTL tg cb).
Proof. intros Hsz. split_and!; [done|simpl; lia|simpl; constructor]. Qed.

Lemma sound_run (st : ExpirationLRU V Env * Env) ops :
  sound zero st.1 → sound zero (run zero st ops).1.
Proof.
  unfold run. revert st. induction ops as [|o ops IH]; intros st Hs; [done|].
  cbn [foldl]. apply IH. destruct o; simpl.
  - by apply sound_Get.
  - by apply sound_GetBatch.
  - by apply sound_Del.
  - by apply sound_Set.
  - by apply sound_SetHas.
Qed.

Lemma same_config_trans {P S} (c1 c2 c3 : Expirable.LRU P S) :
  Expirable.same_config c1 c2 → Expirable.same_config c2 c3 →
  Expirable.same_config c1 c3.
Proof. intros (? & ? & ?) (? & ? & ?). split_and!; congruence. Qed.

(** The capacity is respected, no key has two entries, and the
    capacity, the TTL and the callback of the core are those of [c0]. *)
Lemma bounded_run c0 (st : ExpirationLRU V Env * Env) ops :
  bounded st.1 ∧ Expirable.same_config c0 (core st.1) →
  bounded (run zero st ops).1 ∧ Expirable.same_config c0 (core (run zero st ops).1).
Proof.
  set (Q := λ c : Expirable.LRU nat (list (expirationLruItem V) * Env),
              Expirable.bounded c ∧ Expirable.same_config c0 c).
  assert (∀ c now key s, Q c → Q (Expirable.Get c now key s).1.2) as QGet.
  { intros c now key s [Hb Hc]. split; [by apply bounded_Get|].
    eapply same_config_trans; [done|apply same_config_Get]. }
  assert (∀ c now key p s, Q c → Q (Expirable.Add c now key p s).1) as QAdd.
  { intros c now key p s [Hb Hc]. split; [by apply bounded_Add|].
    eapply same_config_trans; [done|apply same_config_Add]. }
  assert (∀ c key, Q c → Q (Expirable.Remove c key).2) as QRemove.
  { intros c key [Hb Hc]. split; [by apply bounded_Remove|].
    eapply same_config_trans; [done|apply same_config_Remove]. }
  change (Q (core st.1) → Q (core (run zero st ops).1)).
  unfold run. revert st. induction ops as [|o ops IH]; intros st Hs; [done|].
  cbn [foldl]. apply IH. destruct o; simpl.
  - by apply closed_Get.
  - by apply closed_GetBatch.
  - by apply closed_Del.
  - by apply closed_Set.
  - by apply closed_SetHas.
Qed.

(** A read that finds a value is a hit of [Get]. *)
Lemma view_Get_hit x now key v fetch env :
  sound zero x → view zero x now key = Some v →
  (Get zero x now key fetch env).1.1 = (v, None) ∧
  (Get zero x now key fetch env).2 = IncrGetHit (target x) env ∧
  ∀ k, view zero (Get zero x now key fetch env).1.2 now k = view zero x now k.
Proof.
  intros [Hw Hall] Hv. unfold view, entries in Hv.
  destruct (Expirable.find _ _) as [e|] eqn:Hf; [|done].
  destruct (Z.ltb_spec (Expirable.expiresAt e) now) as [|Hexp]; [done|].
  simplify_eq. rewrite (Get_hit zero x now key fetch env e Hf Hexp). simpl.
  rewrite Forall_forall in Hall.
  destruct (Hall e (find_elem_of _ _ _ Hf)) as [_ ->].
  split_and!; [done..|]. intros k. unfold view, entries. simpl.
  rewrite find_cons, find_remove, (find_key _ _ _ Hf).
  destruct (decide (key = k)) as [<-|Hne]; [by rewrite Hf|].
  by rewrite decide_False by done.
Qed.

(** What a read finds after a store of [v] under [key] that evicts
    nothing. *)
Lemma view_stored x now key v now' k :
  sound zero x →
  view zero
    (with_core x
       (Expirable.with_list (core x)
          ({| Expirable.ekey := key; Expirable.evalue := length (items x);
              Expirable.expiresAt := now + Expirable.ttl (core x) |}
             :: Expirable.remove (entries x) key))
       (items x ++ [{| err := None; value := v |}])) now' k =
    if decide (k = key)
    then if now + Expirable.ttl (core x) <? now' then None else Some v
    else view zero x now' k.
Proof.
  intros [_ Hall]. unfold view, entries. simpl. rewrite find_cons. simpl.
  destruct (decide (key = k)) as [<-|Hne].
  - rewrite decide_True by done. simpl. by rewrite deref_app_r.
  - rewrite decide_False by done. rewrite find_remove, decide_False by done.
    destruct (Expirable.find _ k) as [e|] eqn:Hf; [|done].
    rewrite Forall_forall in Hall.
    destruct (Hall e (find_elem_of _ _ _ Hf)) as [Hlt _].
    by rewrite deref_app_l.
Qed.

(** The first pass of [GetBatch] adds no entry. *)
Lemma scan_length now keys (b : batch V Env) :
  let b' := foldl (GetBatch_scan1 zero now) b keys in
  (length (entries (b_lru b')) ≤ length (entries (b_lru b)))%nat ∧
  Expirable.same_config (core (b_lru b)) (core (b_lru b')).
Proof.
  revert b. induction keys as [|key keys IH]; intros b; simpl; [done|].
  destruct (IH (GetBatch_scan1 zero now b key)) as [Hl Hc].
  assert ((length (entries (b_lru (GetBatch_scan1 zero now b key)))
             ≤ length (entries (b_lru b)))%nat ∧
          Expirable.same_config (core (b_lru b))
            (core (b_lru (GetBatch_scan1 zero now b key)))) as [Hl1 Hc1].
  { unfold GetBatch_scan1.
    pose proof (same_config_Get (core (b_lru b)) now key (items (b_lru b), b_env b))
      as Hsc.
    pose proof (Get_list (core (b_lru b)) now key (items (b_lru b), b_env b)) as HL.
    destruct (Expirable.Get _ _ _ _) as [[r c1] [h1 env1]]. simpl in Hsc, HL.
    apply submseteq_length in HL. by destruct r. }
  split; [lia|by eapply same_config_trans].
Qed.

(** What a read finds after the second pass of [GetBatch], when the
    capacity leaves room for every queried key. *)
Lemma store_view now now' values er queries x env (res : gmap string V) k :
  sound zero x →
  Z.of_nat (length (entries x) + length queries) ≤ Expirable.size (core x) →
  now' ≤ now + Expirable.ttl (core x) →
  view zero (foldl (GetBatch_store1 now values er) (x, env, res) queries).1.1 now' k =
    match (if decide (k ∈ queries) then values !! k else None) with
    | Some v => Some v
    | None => view zero x now' k
    end.
Proof.
  revert x env res. induction queries as [|q queries IH];
    intros x env res Hs Hroom Hnow; cbn [foldl].
  - by destruct (decide (k ∈ [])) as [?%elem_of_nil|].
  - cbn [length] in Hroom. unfold GetBatch_store1 at 2.
    destruct (values !! q) as [val|] eqn:Hq.
    + rewrite Add_room by (unfold entries in Hroom; lia).
      set (x1 := with_core x _ _).
      assert (sound zero x1) as Hs1.
      { destruct (sound_store x now q val env (core x1) (items x1) env Hs) as [? _];
          [|done]. apply Add_room. unfold entries in Hroom. lia. }
      rewrite IH; [|done| |done].
      * unfold x1. rewrite view_stored by done.
        destruct (Z.ltb_spec (now + Expirable.ttl (core x)) now'); [lia|].
        destruct (decide (k = q)) as [->|Hne].
        { rewrite (decide_True (P := q ∈ q :: queries)) by set_solver.
          rewrite Hq. by destruct (decide (q ∈ queries)); rewrite ?Hq. }
        destruct (decide (k ∈ queries)).
        { by rewrite (decide_True (P := k ∈ q :: queries)) by set_solver. }
        by rewrite (decide_False (P := k ∈ q :: queries)) by set_solver.
      * unfold x1, entries. simpl.
        pose proof (length_filter (λ e, Expirable.ekey e ≠ q)
                      (Expirable.evictList (core x))) as Hle.
        unfold entries in Hroom. unfold Expirable.remove. lia.
    + rewrite IH by (done || lia).
      destruct (decide (k = q)) as [->|Hne].
      * rewrite (decide_True (P := q ∈ q :: queries)) by set_solver.
        rewrite Hq. by destruct (decide (q ∈ queries)); rewrite ?Hq.
      * destruct (decide (k ∈ queries)).
        { by rewrite (decide_True (P := k ∈ q :: queries)) by set_solver. }
        by rewrite (decide_False (P := k ∈ q :: queries)) by set_solver.
Qed.

End lru_more.

(** ** The shard LRU: further properties *)

(** X9.  The capacity is never exceeded.  Every shard LRU that a
    sequence of [Get], [GetBatch], [Del], [Set] and [SetHas] makes of the
    one that [NewExpirationLRU] builds with a capacity of at least one
    holds at most that many entries, and no key has two entries; the
    capacity and the TTL stay those given to [NewExpirationLRU]. *)
Theorem capacity_never_exceeded {V Env : Type} (zero : V) (size sTTL fTTL : Z)
    (tg : Lru.Target Env) (cb : option (Lru.EvictCallback V Env)) (env : Env)
    (ops : list (Lru.op V Env)) :
  1 ≤ size →
  let x := (Lru.run zero (Lru.NewExpirationLRU zero size sTTL fTTL tg cb, env) ops).1 in
  Z.of_nat (length (Lru.entries x)) ≤ size ∧
  NoDup (Expirable.ekey <$> Lru.entries x) ∧
  Expirable.size (Lru.core x) = size ∧ Expirable.ttl (Lru.core x) = sTTL.
Proof.
  intros Hsz x.
  destruct (bounded_run zero
              (Lru.core (Lru.NewExpirationLRU zero size sTTL fTTL tg cb))
              (Lru.NewExpirationLRU zero size sTTL fTTL tg cb, env) ops)
    as [(_ & Hlen & Hnd) (Hs & Ht & _)].
  { split; [by apply bounded_New|done]. }
  fold x in Hlen, Hnd, Hs, Ht. simpl in Hs, Ht. rewrite Hs in Hlen. done.
Qed.

Lemma capacity_never_exceeded_witness :
  let x := (Lru.run EmptyString
              (Lru.NewExpirationLRU EmptyString 1 60 5 Examples.silent_target
                 (Some Examples.log_evict), [])
              [Lru.OpSet 0 "a" "va"; Lru.OpSet 1 "b" "vb";
               Lru.OpGet 2 "c" (λ e, (("vc", None), e))]).1 in
  Z.of_nat (length (Lru.entries x)) ≤ 1 ∧
  NoDup (Expirable.ekey <$> Lru.entries x) ∧
  Expirable.size (Lru.core x) = 1 ∧ Expirable.ttl (Lru.core x) = 60.
Proof.
  apply (capacity_never_exceeded EmptyString 1 60 5 Examples.silent_target
           (Some Examples.log_evict) []). lia.
Defined.

(** X10.  No failure stays cached.  In every shard LRU that a sequence
    of operations makes of the one that [NewExpirationLRU] builds, every
    entry points to an allocated item whose error is nil; so a read that
    finds a value is a hit of [Get] that returns this value with a nil
    error, counts a hit and does not run the fetcher. *)
Theorem no_failure_stays_cached {V Env : Type} (zero : V) (size sTTL fTTL : Z)
    (tg : Lru.Target Env) (cb : option (Lru.EvictCallback V Env)) (env : Env)
    (ops : list (Lru.op V Env)) :
  let x := (Lru.run zero (Lru.NewExpirationLRU zero size sTTL fTTL tg cb, env) ops).1 in
  Forall (Lru.item_ok zero (Lru.items x)) (Lru.entries x) ∧
  ∀ now key v fetch env',
    Lru.view zero x now key = Some v →
    (Lru.Get zero x now key fetch env').1.1 = (v, None) ∧
    (Lru.Get zero x now key fetch env').2 = Lru.IncrGetHit (Lru.target x) env'.
Proof.
  intros x.
  assert (Lru.sound zero x) as Hs by apply sound_run, sound_New.
  split; [apply Hs|]. intros now key v fetch env' Hv.
  by destruct (view_Get_hit zero x now key v fetch env' Hs Hv) as (? & ? & _).
Qed.

(** X11.  [Set] then [Get].  After [Set(key, v)] on a shard LRU of
    capacity at least one, a [Get] of [key] before the TTL has elapsed
    returns [v] with a nil error, counts a hit and does not run the
    fetcher. *)
Theorem Set_then_Get {V Env : Type} (zero : V) (x : Lru.ExpirationLRU V Env)
    (now now' : Z) (key : string) (v : V) (fetch : Lru.fetcher V Env) (env env' : Env) :
  Lru.wrapped zero (Lru.core x) →
  1 ≤ Expirable.size (Lru.core x) →
  now' ≤ now + Expirable.ttl (Lru.core x) →
  let x' := (Lru.Set_ x now key v env).1 in
  Lru.Get zero x' now' key fetch env' = 
    ((v, None), (Lru.Get zero x' now' key fetch env').1.2,
     Lru.IncrGetHit (Lru.target x) env').
Proof.
  intros Hw Hsz Hnow x'. subst x'. unfold Lru.Set_.
  pose proof (find_Add (Lru.core x) now key (length (Lru.items x))
                (Lru.items x ++ [{| Lru.err := None; Lru.value := v |}], env) Hsz) as Hf.
  pose proof (Add_heap zero (Lru.core x) now key (length (Lru.items x))
                (Lru.items x ++ [{| Lru.err := None; Lru.value := v |}], env) Hw) as Hh.
  destruct (Expirable.Add _ _ _ _ _) as [c1 [h1 env1]]. simpl in Hf, Hh. subst h1.
  cbn [fst].
  rewrite (Get_hit zero
             (Lru.with_core x c1 (Lru.items x ++ [{| Lru.err := None; Lru.value := v |}]))
             now' key fetch env' _ Hf) by (simpl; lia).
  simpl. by rewrite deref_app_r.
Qed.

Lemma Set_then_Get_witness :
  let x' := (Lru.Set_ Examples.logging_lru 0 "k" "v" []).1 in
  Lru.Get EmptyString x' 60 "k" (λ e, (("other", None), e)) [] =
    (("v", None),
     (Lru.Get EmptyString x' 60 "k" (λ e, (("other", None), e)) []).1.2,
     Lru.IncrGetHit (Lru.target Examples.logging_lru) []).
Proof.
  apply (Set_then_Get EmptyString Examples.logging_lru 0 60 "k" "v").
  - by exists (Some Examples.log_evict).
  - simpl. lia.
  - simpl. lia.
Defined.

(** X12.  [SetHas] stores only under a key that has an entry.  It never
    runs the eviction callback or a counter.  For a key without an entry
    it returns false and changes nothing.  For a key with an entry, even
    one past its deadline, it returns true, the number of entries does
    not grow, a read of the key finds the new value until the new
    deadline, and a read of any other key finds what it found before. *)
Theorem SetHas_replaces_only {V Env : Type} (zero : V) (x : Lru.ExpirationLRU V Env)
    (now : Z) (key : string) (v : V) (env : Env) :
  Lru.sound zero x →
  let r := Lru.SetHas x now key v env in
  r.2 = env ∧
  match Expirable.find (Lru.entries x) key with
  | None => r = (false, x, env)
  | Some _ =>
      r.1.1 = true ∧
      (length (Lru.entries r.1.2) ≤ length (Lru.entries x))%nat ∧
      ∀ now' k,
        Lru.view zero r.1.2 now' k =
          if decide (k = key)
          then if now + Expirable.ttl (Lru.core x) <? now' then None else Some v
          else Lru.view zero x now' k
  end.
Proof.
  intros Hs r. subst r. unfold Lru.SetHas, Expirable.Contains, Lru.entries.
  destruct (Expirable.find (Expirable.evictList (Lru.core x)) key) as [e|] eqn:Hf.
  - rewrite bool_decide_eq_true_2 by by eexists.
    rewrite Add_present by by rewrite Hf. simpl. split_and!; [done..| |].
    + pose proof (hit_length _ _ _ Hf). lia.
    + intros now' k. by rewrite <- (view_stored zero x now key v now' k Hs).
  - rewrite bool_decide_eq_false_2 by (by intros [? ?]). done.
Qed.

Lemma SetHas_replaces_only_witness :
  let r := Lru.SetHas Examples.logging_lru_k 7 "k" "v2" [] in
  r.2 = [] ∧
  match Expirable.find (Lru.entries Examples.logging_lru_k) "k" with
  | None => r = (false, Examples.logging_lru_k, [])
  | Some _ =>
      r.1.1 = true ∧
      (length (Lru.entries r.1.2) ≤ length (Lru.entries Examples.logging_lru_k))%nat ∧
      ∀ now' k,
        Lru.view EmptyString r.1.2 now' k =
          if decide (k = "k")
          then if 7 + Expirable.ttl (Lru.core Examples.logging_lru_k) <? now'
               then None else Some "v2"
          else Lru.view EmptyString Examples.logging_lru_k now' k
  end.
Proof.
  apply (SetHas_replaces_only EmptyString Examples.logging_lru_k 7 "k" "v2" []).
  apply sound_Get, sound_New.
Defined.

(** X13.  The first pass of [GetBatch] splits the keys: the keys whose
    read finds a value go to the result map with that value, the others
    are collected for the fetch, in the order of the input and as often
    as they occur in it.  The pass sets no error, and a read of any key
    finds afterwards what it found before. *)
Theorem GetBatch_first_pass {V Env : Type} (zero : V) (x : Lru.ExpirationLRU V Env)
    (now : Z) (keys : list string) (env : Env) :
  Lru.sound zero x →
  let b := Lru.GetBatch_scan zero x now keys env in
  Lru.b_queries b = filter (λ k, ¬ is_Some (Lru.view zero x now k)) keys ∧
  (∀ k, Lru.b_res b !! k = if decide (k ∈ keys) then Lru.view zero x now k else None) ∧
  Lru.b_err b = None ∧
  (∀ k, Lru.view zero (Lru.b_lru b) now k = Lru.view zero x now k).
Proof.
  intros Hs b. subst b. unfold Lru.GetBatch_scan.
  destruct (scan_spec zero now keys
    {| Lru.b_lru := x; Lru.b_env := env; Lru.b_res := ∅; Lru.b_err := None;
       Lru.b_queries := [] |} Hs) as (_ & _ & Hv & He & Hq & Hr & _).
  simpl in *. split_and!; [done| |done|done].
  intros k. rewrite Hr, lookup_empty.
  by destruct (decide (k ∈ keys)); [destruct (Lru.view zero x now k)|].
Qed.

Lemma GetBatch_first_pass_witness :
  let b := Lru.GetBatch_scan EmptyString Examples.logging_lru_k 1 ["q"; "k"; "q"] [] in
  Lru.b_queries b =
    filter (λ k, ¬ is_Some (Lru.view EmptyString Examples.logging_lru_k 1 k))
      ["q"; "k"; "q"] ∧
  (∀ k, Lru.b_res b !! k =
          if decide (k ∈ ["q"; "k"; "q"])
          then Lru.view EmptyString Examples.logging_lru_k 1 k else None) ∧
  Lru.b_err b = None ∧
  (∀ k, Lru.view EmptyString (Lru.b_lru b) 1 k =
        Lru.view EmptyString Examples.logging_lru_k 1 k).
Proof.
  apply (GetBatch_first_pass EmptyString Examples.logging_lru_k 1 ["q"; "k"; "q"] []).
  apply sound_Get, sound_New.
Defined.

(** X14.  When a read finds a value for every key, [GetBatch] does not
    call the fetcher: it returns these values with a nil error and counts
    one hit per key, whatever the fetcher is. *)
Theorem GetBatch_all_hits_no_fetch {V Env : Type} (zero : V)
    (x : Lru.ExpirationLRU V Env) (now : Z) (keys : list string)
    (fetch fetch' : Lru.batch_fetcher V Env) (env : Env) :
  Lru.sound zero x →
  (∀ k, k ∈ keys → is_Some (Lru.view zero x now k)) →
  let r := Lru.GetBatch zero x now keys fetch env in
  r.1.1.2 = None ∧
  (∀ k, r.1.1.1 !! k = if decide (k ∈ keys) then Lru.view zero x now k else None) ∧
  r.2 = foldl (λ e _, Lru.IncrGetHit (Lru.target x) e) env keys ∧
  Lru.GetBatch zero x now keys fetch' env = r.
Proof.
  intros Hs Hlive r. subst r. unfold Lru.GetBatch, Lru.GetBatch_scan.
  destruct (scan_spec zero now keys
    {| Lru.b_lru := x; Lru.b_env := env; Lru.b_res := ∅; Lru.b_err := None;
       Lru.b_queries := [] |} Hs) as (_ & _ & _ & He & Hq & Hr & Hn).
  cbn [Lru.b_lru Lru.b_env Lru.b_res Lru.b_err Lru.b_queries] in *.
  specialize (Hn Hlive).
  assert (filter (λ k, ¬ is_Some (Lru.view zero x now k)) keys = []) as Hnil.
  { destruct (filter _ keys) as [|a l'] eqn:E; [done|].
    assert (a ∈ filter (λ k, ¬ is_Some (Lru.view zero x now k)) keys) as Ha
      by (rewrite E; left).
    apply list_elem_of_filter in Ha as [Hno Hin]. destruct Hno. by apply Hlive. }
  rewrite Hnil in Hq.
  destruct (foldl _ _ keys) as [x1 env1 res1 err1 queries1].
  cbn [Lru.b_lru Lru.b_env Lru.b_res Lru.b_err Lru.b_queries] in *. subst.
  simpl. split_and!; [done| |done|done].
  intros k. rewrite Hr, lookup_empty.
  by destruct (decide (k ∈ keys)); [destruct (Lru.view zero x now k)|].
Qed.

Lemma GetBatch_all_hits_no_fetch_witness :
  let r := Lru.GetBatch EmptyString Examples.logging_lru_k 1 ["k"; "k"]
             (λ _ e, ((∅, Some "unreachable"), e)) [] in
  r.1.1.2 = None ∧
  (∀ k, r.1.1.1 !! k =
          if decide (k ∈ ["k"; "k"])
          then Lru.view EmptyString Examples.logging_lru_k 1 k else None) ∧
  r.2 = foldl (λ e _, Lru.IncrGetHit (Lru.target Examples.logging_lru_k) e) []
          ["k"; "k"] ∧
  Lru.GetBatch EmptyString Examples.logging_lru_k 1 ["k"; "k"]
    (λ _ e, ((∅, None), e)) [] = r.
Proof.
  apply (GetBatch_all_hits_no_fetch EmptyString Examples.logging_lru_k 1 ["k"; "k"]).
  - apply sound_Get, sound_New.
  - intros k Hk. assert (k = "k") as -> by set_solver. by eexists.
Defined.

(** X15.  The result of [GetBatch].  The map it returns gives, for every
    key of the input, the value a read found, or else the value the
    fetcher returned for it, if any; it has no other key.  The error is
    nil when the fetcher was not called, and the error of the fetcher
    otherwise. *)
Theorem GetBatch_result {V Env : Type} (zero : V) (x : Lru.ExpirationLRU V Env)
    (now : Z) (keys : list string) (fetch : Lru.batch_fetcher V Env) (env : Env) :
  Lru.sound zero x →
  let b := Lru.GetBatch_scan zero x now keys env in
  let f := fetch (Lru.b_queries b) (Lru.b_env b) in
  let r := Lru.GetBatch zero x now keys fetch env in
  (∀ k, r.1.1.1 !! k =
          if decide (k ∈ keys)
          then match Lru.view zero x now k with
               | Some v => Some v
               | None => f.1.1 !! k
               end
          else None) ∧
  r.1.1.2 = match Lru.b_queries b with [] => None | _ => f.1.2 end.
Proof.
  intros Hs b f r. subst r f b. unfold Lru.GetBatch, Lru.GetBatch_scan.
  destruct (scan_spec zero now keys
    {| Lru.b_lru := x; Lru.b_env := env; Lru.b_res := ∅; Lru.b_err := None;
       Lru.b_queries := [] |} Hs) as (_ & _ & _ & He & Hq & Hr & _).
  destruct (foldl _ _ keys) as [x1 env1 res1 err1 queries1].
  cbn [Lru.b_lru Lru.b_env Lru.b_res Lru.b_err Lru.b_queries app] in *. subst err1.
  assert (∀ k, k ∈ queries1 ↔ k ∈ keys ∧ Lru.view zero x now k = None) as Hin.
  { intros k. rewrite Hq, list_elem_of_filter.
    destruct (Lru.view zero x now k) as [v|]; split.
    - intros [Hn _]. destruct Hn. by eexists.
    - by intros [_ ?].
    - by intros [_ ?].
    - intros [? _]. split; [by intros [? ?]|done]. }
  destruct queries1 as [|q queries1].
  { simpl. split; [|done]. intros k. rewrite Hr, lookup_empty.
    destruct (decide (k ∈ keys)) as [Hk|]; [|done].
    destruct (Lru.view zero x now k) as [v|] eqn:Hv; [done|].
    exfalso. eapply elem_of_nil, Hin. split; [exact Hk|exact Hv]. }
  revert Hin. generalize (q :: queries1). intros qs Hin.
  pose proof (store_res now (fetch qs env1).1.1
                (Lru.once_err None (fetch qs env1).1.2) qs x1 (fetch qs env1).2 res1)
    as Hst.
  destruct (fetch qs env1) as [[values fetchErr] env2]. cbn [fst snd] in *.
  destruct (foldl _ _ qs) as [[x2 env3] res2]. cbn [fst snd] in *.
  split; [|done].
  intros k. rewrite Hst, Hr, lookup_empty.
  destruct (decide (k ∈ qs)) as [Hk|Hk].
  - apply Hin in Hk as [Hk Hv]. rewrite Hv.
    repeat case_decide; try done. by destruct (values !! k).
  - repeat case_decide; try done.
    destruct (Lru.view zero x now k) as [v|] eqn:Hv; [done|].
    destruct Hk. apply Hin. by split.
Qed.

Lemma GetBatch_result_witness :
  let b := Lru.GetBatch_scan EmptyString Examples.logging_lru_k 1 ["q"; "k"] [] in
  let f := Examples.batch_fetch_q (Lru.b_queries b) (Lru.b_env b) in
  let r := Lru.GetBatch EmptyString Examples.logging_lru_k 1 ["q"; "k"]
             Examples.batch_fetch_q [] in
  (∀ k, r.1.1.1 !! k =
          if decide (k ∈ ["q"; "k"])
          then match Lru.view EmptyString Examples.logging_lru_k 1 k with
               | Some v => Some v
               | None => f.1.1 !! k
               end
          else None) ∧
  r.1.1.2 = match Lru.b_queries b with [] => None | _ => f.1.2 end.
Proof.
  apply (GetBatch_result EmptyString Examples.logging_lru_k 1 ["q"; "k"]
           Examples.batch_fetch_q []).
  apply sound_Get, sound_New.
Defined.

(** X16.  [GetBatch] caches what it fetched.  When the capacity leaves
    room for the keys of the batch, every value that the fetcher returned
    for a queried key is found by a read of that key until the TTL has
    elapsed. *)
Theorem GetBatch_caches_fetched {V Env : Type} (zero : V)
    (x : Lru.ExpirationLRU V Env) (now now' : Z) (keys : list string)
    (fetch : Lru.batch_fetcher V Env) (env : Env) :
  Lru.sound zero x →
  Z.of_nat (length (Lru.entries x) + length keys) ≤ Expirable.size (Lru.core x) →
  now' ≤ now + Expirable.ttl (Lru.core x) →
  let b := Lru.GetBatch_scan zero x now keys env in
  let f := fetch (Lru.b_queries b) (Lru.b_env b) in
  let r := Lru.GetBatch zero x now keys fetch env in
  ∀ k v, k ∈ Lru.b_queries b → f.1.1 !! k = Some v →
         Lru.view zero r.1.2 now' k = Some v.
Proof.
  intros Hs Hroom Hnow b f r k v Hk Hv. subst r f b.
  revert Hk Hv. unfold Lru.GetBatch, Lru.GetBatch_scan.
  destruct (scan_spec zero now keys
    {| Lru.b_lru := x; Lru.b_env := env; Lru.b_res := ∅; Lru.b_err := None;
       Lru.b_queries := [] |} Hs) as (Hs1 & _ & _ & _ & Hq & _).
  destruct (scan_length zero now keys
    {| Lru.b_lru := x; Lru.b_env := env; Lru.b_res := ∅; Lru.b_err := None;
       Lru.b_queries := [] |}) as (Hlen & Hsz & Httl & _).
  destruct (foldl _ _ keys) as [x1 env1 res1 err1 queries1].
  cbn [Lru.b_lru Lru.b_env Lru.b_res Lru.b_err Lru.b_queries app] in *.
  assert (length queries1 ≤ length keys)%nat as Hql
    by (rewrite Hq; apply length_filter).
  clear Hq. destruct queries1 as [|q queries1]; [by intros ?%elem_of_nil|].
  revert Hql. generalize (q :: queries1). intros qs Hql Hk Hv.
  pose proof (store_view zero now now' (fetch qs env1).1.1
                (Lru.once_err err1 (fetch qs env1).1.2) qs x1 (fetch qs env1).2 res1 k Hs1)
    as Hview.
  rewrite decide_True, Hv in Hview by done.
  destruct (fetch qs env1) as [[values fetchErr] env2]. cbn [fst snd] in *.
  destruct (foldl _ _ qs) as [[x2 env3] res2]. cbn [fst snd] in *.
  apply Hview; [rewrite Hsz; lia|rewrite Httl; lia].
Qed.

Lemma GetBatch_caches_fetched_witness :
  let r := Lru.GetBatch EmptyString Examples.logging_lru 1 ["q"; "k"]
             Examples.batch_fetch_q [] in
  Lru.view EmptyString r.1.2 61 "q" = Some "vq"%string.
Proof.
  apply (GetBatch_caches_fetched EmptyString Examples.logging_lru 1 61 ["q"; "k"]
           Examples.batch_fetch_q [] (sound_New _ _ _ _ _ _)).
  - simpl. lia.
  - simpl. lia.
  - vm_compute. left.
  - reflexivity.
Defined.

(** * Further facts about the coordinator *)

Section cache_more.
Import Localcache.
Context {V : Type} (zero : V) {W : Type} (ro : RangeOrder).
Implicit Types (s : shared) (w : W) (e : Env (W := W)) (k key a : string)
  (c : cache V W) (o : option_ W) (l : Lru.LRU V (Env (W := W)))
  (sd : Lru.shardLRU V (Env (W := W))).

(** *** The linkage graph of the cache *)

Lemma gedge_link s g a b : link s = Some g → gedge s a b ↔ Link.edge g a b.
Proof. intros Hg. unfold gedge, glookup, Link.edge, Link.adj. by rewrite Hg. Qed.

Lemma rtc_gedge_link s g a b :
  link s = Some g → rtc (gedge s) a b ↔ rtc (Link.edge g) a b.
Proof.
  intros Hg. split; apply rtc_subrel; intros ??; by apply gedge_link.
Qed.

Lemma rtc_gedge_none s a k : glookup s a = None → rtc (gedge s) a k → k = a.
Proof.
  intros Hn Hr. destruct Hr as [|a b k Hab _]; [done|].
  unfold gedge in Hab. rewrite Hn in Hab. set_solver.
Qed.

(** After [Del(curr)], a path of the old graph either ends in the
    deleted set or is a path of the new graph. *)
Lemma rtc_after_Del g curr a k :
  Link.wf g →
  rtc (Link.edge g) a k →
  k ∈ (Link.Del ro g curr).1 ∨ rtc (Link.edge (Link.Del ro g curr).2) a k.
Proof.
  intros Hwf Hr. induction Hr as [a|a b k Hab Hbk IH]; [by right|].
  destruct IH as [?|IH]; [by left|].
  destruct (decide (a ∈ (Link.Del ro g curr).1)) as [Ha|Ha].
  - left. apply Del_reach; [done|]. apply (Del_reach ro g curr a Hwf) in Ha.
    etrans; [exact Ha|]. by eapply rtc_l.
  - right. eapply rtc_l; [|exact IH]. unfold Link.edge.
    rewrite adj_Del, decide_False by done. exact Hab.
Qed.

Lemma rtc_before_Del g curr a k :
  Link.wf g → rtc (Link.edge (Link.Del ro g curr).2) a k → rtc (Link.edge g) a k.
Proof.
  intros Hwf. apply rtc_subrel. intros x y. unfold Link.edge.
  rewrite adj_Del by done. destruct (decide _); set_solver.
Qed.

(** *** The loop of [cache.del] *)

(** More fuel than the measure does not change what the loop computes. *)
Lemma del_loop_fuel o fuel fuel' deleted toDelete l s w :
  lru_ok zero ro o l → sh_ok s →
  (length toDelete + gweight s ≤ fuel)%nat → (fuel ≤ fuel')%nat →
  del_loop ro fuel' deleted toDelete l (s, w) = del_loop ro fuel deleted toDelete l (s, w).
Proof.
  revert fuel' deleted toDelete l s w.
  induction fuel as [|fuel IH]; intros fuel' deleted toDelete l s w Hok Hsh Hf Hle.
  - destruct toDelete; [by destruct fuel'|simpl in Hf; lia].
  - destruct fuel' as [|fuel']; [lia|].
    destruct toDelete as [|curr toDelete]; [done|]. simpl in Hf.
    destruct (decide (curr ∈ deleted)) as [Hin|Hnin].
    + rewrite !del_loop_skip by done. apply IH; [done..|lia|lia].
    + rewrite !(del_loop_step zero ro o) by done.
      pose proof (lru_ok_remove_key zero ro o l curr Hok) as Hok1.
      unfold sh_ok in Hsh. unfold gweight in Hf.
      destruct (link s) as [g|] eqn:Hg.
      * destruct (Link.Del ro g curr) as [D g1] eqn:Hdel.
        apply Del_spec in Hdel as (Hwf1 & _ & Hin & _ & _ & _ & Hsz); [|done].
        cbn [fst snd]. apply IH; [done..| |lia].
        rewrite length_app. unfold gweight. simpl.
        assert (length (filter (λ k, k ∉ {[curr]} ∪ deleted) (ro D)) < size D)%nat.
        { pose proof (length_range_opt ro (Some D)) as HL. simpl in HL. rewrite <- HL.
          apply (length_filter_lt _ _ curr); [by apply elem_of_range|set_solver]. }
        lia.
      * apply IH; [done|by unfold sh_ok; rewrite Hg| |lia].
        unfold gweight. rewrite Hg. lia.
Qed.

(** The keys that the batch does not reach keep their entry, their
    item and their adjacency entry. *)
Lemma del_loop_frame o fuel deleted toDelete l s w l' s' w' rest k :
  lru_ok zero ro o l → sh_ok s →
  del_loop ro fuel deleted toDelete l (s, w) = (l', (s', w'), rest) →
  ¬ reaches s toDelete k →
  Lru.lookup zero l' k = Lru.lookup zero l k ∧ Lru.cached zero l' k = Lru.cached zero l k ∧
  glookup s' k = glookup s k.
Proof.
  revert deleted toDelete l s w.
  induction fuel as [|fuel IH]; intros deleted toDelete l s w Hok Hsh Hrun Hnr.
  - destruct toDelete; simpl in Hrun; by simplify_eq.
  - destruct toDelete as [|curr toDelete]; [simpl in Hrun; by simplify_eq|].
    destruct (decide (curr ∈ deleted)) as [Hin|Hnin].
    + rewrite del_loop_skip in Hrun by done.
      apply (IH _ _ _ _ _ Hok Hsh Hrun).
      intros (a & Ha & Hr). apply Hnr. exists a. split; [by right|done].
    + rewrite (del_loop_step zero ro o) in Hrun by done.
      pose proof (lru_ok_remove_key zero ro o l curr Hok) as Hok1.
      assert (k ≠ curr) as Hk.
      { intros ->. apply Hnr. exists curr. split; [by left|done]. }
      unfold sh_ok in Hsh. destruct (link s) as [g|] eqn:Hg.
      * assert (k ∉ (Link.Del ro g curr).1) as HkD.
        { intros HD%Del_reach; [|done]. apply Hnr. exists curr. split; [by left|].
          by apply (rtc_gedge_link s g). }
        pose proof (wf_Del ro g curr Hsh) as Hwf1.
        pose proof (λ k', Del_reach ro g curr k' Hsh) as Hreach.
        pose proof (λ a, rtc_before_Del g curr a k Hsh) as Hback.
        destruct (Link.Del ro g curr) as [D g1] eqn:Hdel. cbn [fst snd] in *.
        apply Del_spec in Hdel as (_ & _ & _ & Hlk & _); [|done].
        destruct (IH _ _ _ _ _ Hok1 ltac:(by apply sh_ok_set_link) Hrun)
          as (E1 & E2 & E3).
        { intros (a & Ha & Hr).
          apply (rtc_gedge_link (set_link s g1) g1) in Hr; [|done].
          apply Hback in Hr. apply Hnr.
          apply elem_of_app in Ha as [Ha|Ha].
          - exists a. split; [by right|]. by apply (rtc_gedge_link s g).
          - apply list_elem_of_filter in Ha as [_ Ha%elem_of_range].
            exists curr. split; [by left|]. apply (rtc_gedge_link s g); [done|].
            etrans; [|exact Hr]. by apply Hreach. }
        rewrite E1, E2, E3, lookup_remove_key, cached_remove_key, glookup_set_link.
        rewrite !decide_False by done. rewrite Hlk, decide_False by done.
        unfold glookup. by rewrite Hg.
      * destruct (IH _ _ _ _ _ Hok1 ltac:(by unfold sh_ok; rewrite Hg) Hrun)
          as (E1 & E2 & E3).
        { intros (a & Ha & Hr). apply Hnr. exists a. split; [by right|done]. }
        rewrite E1, E2, E3, lookup_remove_key, cached_remove_key.
        by rewrite !decide_False by done.
Qed.

(** The keys that the batch reaches are removed, with their adjacency
    entries, when the loop runs to its end. *)
Lemma del_loop_closure o fuel deleted toDelete l s w l' s' w' k :
  lru_ok zero ro o l → sh_ok s →
  (∀ a, a ∈ deleted → Lru.lookup zero l a = None ∧ glookup s a = None) →
  del_loop ro fuel deleted toDelete l (s, w) = (l', (s', w'), []) →
  reaches s toDelete k →
  Lru.lookup zero l' k = None ∧ glookup s' k = None.
Proof.
  revert deleted toDelete l s w.
  induction fuel as [|fuel IH]; intros deleted toDelete l s w Hok Hsh Hdel Hrun Hr.
  - destruct toDelete; simpl in Hrun; simplify_eq.
    destruct Hr as (a & Ha%elem_of_nil & _). done.
  - destruct toDelete as [|curr toDelete].
    { destruct Hr as (a & Ha%elem_of_nil & _). done. }
    assert (∀ l1 s1 w1 dl td,
              lru_ok zero ro o l1 → sh_ok s1 →
              del_loop ro fuel dl td l1 (s1, w1) = (l', (s', w'), []) →
              Lru.lookup zero l1 k = None ∧ glookup s1 k = None →
              Lru.lookup zero l' k = None ∧ glookup s' k = None) as Hmono.
    { intros l1 s1 w1 dl td Hok1 Hsh1 Hrun1 [Hl1 Hg1].
      apply (del_loop_spec zero ro o) in Hrun1
        as (_ & _ & _ & _ & _ & Hm & Hgm & _); [|done..].
      split.
      - destruct (Hm k) as [?|[-> _]]; done.
      - destruct (Hgm k) as [?| ->]; done. }
    destruct (decide (curr ∈ deleted)) as [Hin|Hnin].
    + rewrite del_loop_skip in Hrun by done.
      destruct Hr as (a & [->|Ha]%elem_of_cons & Hr).
      * destruct (Hdel _ Hin) as [Hl Hg].
        apply rtc_gedge_none in Hr as ->; [|done]. by eapply Hmono.
      * eapply IH; [done..|]. by exists a.
    + rewrite (del_loop_step zero ro o) in Hrun by done.
      pose proof (lru_ok_remove_key zero ro o l curr Hok) as Hok1.
      unfold sh_ok in Hsh. destruct (link s) as [g|] eqn:Hg.
      * pose proof (wf_Del ro g curr Hsh) as Hwf1.
        pose proof (λ k', Del_reach ro g curr k' Hsh) as Hreach.
        pose proof (λ a, rtc_after_Del g curr a k Hsh) as Hsplit.
        destruct (Link.Del ro g curr) as [D g1] eqn:HD. cbn [fst snd] in *.
        apply Del_spec in HD as (_ & _ & HcD & Hlk & _); [|done].
        set (s1 := set_link s g1) in *.
        assert (sh_ok s1) as Hsh1 by by apply sh_ok_set_link.
        assert (∀ a, a ∈ {[curr]} ∪ deleted →
                  Lru.lookup zero (Lru.remove_key l curr) a = None ∧ glookup s1 a = None)
          as Hdel1.
        { intros a Ha. unfold s1. rewrite lookup_remove_key, glookup_set_link, Hlk.
          destruct (decide (a = curr)) as [->|Hne].
          - by rewrite decide_True.
          - assert (a ∈ deleted) as Had by set_solver.
            destruct (Hdel _ Had) as [Hl1 Hg1]. unfold glookup in Hg1.
            rewrite Hg in Hg1. simpl in Hg1. split; [done|].
            by destruct (decide (a ∈ D)). }
        assert (k ∈ D → Lru.lookup zero l' k = None ∧ glookup s' k = None) as HinD.
        { intros HkD. destruct (decide (k ∈ {[curr]} ∪ deleted)) as [Hkd|Hkd].
          - eapply Hmono; [exact Hok1|exact Hsh1|exact Hrun|]. by apply Hdel1.
          - eapply IH; [exact Hok1|exact Hsh1|exact Hdel1|exact Hrun|].
            exists k. split; [|done]. apply elem_of_app. right.
            apply list_elem_of_filter. split; [done|]. by apply elem_of_range. }
        destruct Hr as (a & Ha & Hr). apply (rtc_gedge_link s g) in Hr; [|done].
        apply elem_of_cons in Ha as [->|Ha].
        { apply HinD. by apply Hreach. }
        destruct (Hsplit a Hr) as [?|Hr1]; [by apply HinD|].
        eapply IH; [exact Hok1|exact Hsh1|exact Hdel1|exact Hrun|].
        exists a. split; [apply elem_of_app; by left|].
        by apply (rtc_gedge_link s1 g1).
      * assert (sh_ok s) as Hsh1 by (by unfold sh_ok; rewrite Hg).
        assert (∀ a, glookup s a = None) as Hgn by (intros a; unfold glookup; by rewrite Hg).
        assert (∀ a, a ∈ {[curr]} ∪ deleted →
                  Lru.lookup zero (Lru.remove_key l curr) a = None ∧ glookup s a = None)
          as Hdel1.
        { intros a Ha. rewrite lookup_remove_key. split; [|done].
          destruct (decide (a = curr)) as [->|Hne]; [done|].
          apply Hdel. set_solver. }
        destruct Hr as (a & Ha & Hr). apply rtc_gedge_none in Hr as ->; [|done].
        apply elem_of_cons in Ha as [->|Ha].
        { eapply Hmono; [exact Hok1|exact Hsh1|exact Hrun|].
          apply Hdel1. set_solver. }
        eapply IH; [exact Hok1|exact Hsh1|exact Hdel1|exact Hrun|].
        by exists a.
Qed.

Lemma run_ok_step (st : cache V W * W) (op : op V W) :
  cache_ok zero ro st.1 →
  cache_ok zero ro (run_op zero ro st op).1 ∧
  opt (run_op zero ro st op).1 = opt st.1 ∧
  (is_Some (local st.1) → is_Some (local (run_op zero ro st op).1)).
Proof.
  intros Hok. destruct op as [now key fetch links|keys|keys|]; simpl.
  - destruct (GetLink_ok zero ro st.1 now key fetch links st.2 Hok)
      as (? & ? & _ & ?). done.
  - split; [by apply Del_ok|]. unfold Del, del.
    destruct (local st.1); [|done].
    destruct (del_loop _ _ _ _ _ _) as [[? ?] ?]. simpl. by eauto.
  - split; [by apply del_ok|]. unfold DelLocal, del.
    destruct (local st.1); [|done].
    destruct (del_loop _ _ _ _ _ _) as [[? ?] ?]. simpl. by eauto.
  - split; [by apply processPendingDeletes_step_ok|].
    unfold processPendingDeletes_step.
    destruct (local st.1) eqn:Hl; [|split; [done|by intros [? ?]]].
    destruct (pendingDel _); [simpl; rewrite Hl; by eauto|].
    destruct (foldl _ _ _) as [? ?]. simpl. by eauto.
Qed.

(** *** Invariants of the shared fields

    A property of the shared fields that the eviction callback, the
    registration of links, the removal of a component of the graph and
    the receipt of a batch keep is kept by every operation. *)
Section shared_inv.
Variable I : shared → Prop.
Hypothesis I_onEvict : ∀ key (v : V) e, I e.1 → I (onEvict ro key v e).1.
Hypothesis I_Link :
  ∀ s g key links, I s → link s = Some g → I (set_link s (Link.Link g key links)).
Hypothesis I_Del :
  ∀ s g key, I s → link s = Some g → I (set_link s (Link.Del ro g key).2).
Hypothesis I_recv :
  ∀ s keys rest, I s → pendingDel s = keys :: rest →
    I {| link := link s; pendingDel := rest; once := once s |}.

Lemma shard_Get_inv o sd now key (fetchE : Lru.fetcher V (Env (W := W))) e :
  shard_ok zero ro o sd → 1 ≤ localSlotSize o →
  (∀ e, I e.1 → I (fetchE e).2.1) →
  I e.1 → I (Lru.shard_Get zero sd now key fetchE e).2.1.
Proof.
  intros Hx Hcap Hfetch HI.
  assert (∀ sd0 e0, shard_ok zero ro o sd0 → Lru.peek zero sd0 key = None →
            I e0.1 → I (Lru.shard_Get zero sd0 now key fetchE e0).2.1) as Hcold.
  { intros sd0 e0 Hx0 Hp0 HI0.
    destruct (shard_Get_cold zero ro o sd0 now key fetchE e0 Hx0 Hp0 Hcap)
      as (e1 & sd' & Hev & _ & Hget & _).
    cbn zeta in Hget. rewrite Hget. cbn [fst snd]. apply Hfetch.
    destruct Hev as [->|(k & v & ->)]; [done|by apply I_onEvict]. }
  destruct (Lru.peek zero sd key) as [sl|] eqn:Hp; [|by apply Hcold].
  destruct (Z.ltb_spec (Lru.s_deadline sl) now) as [Hexp|Hlive].
  - rewrite (shard_Get_stale zero ro o sd now key fetchE e sl) by done.
    apply Hcold.
    + by apply shard_ok_without.
    + by rewrite peek_without, decide_True.
    + destruct (expirationEvict o); [by apply I_onEvict|done].
  - destruct (shard_Get_hit zero ro o sd now key fetchE e sl Hx Hp Hlive)
      as (sd' & _ & -> & _). done.
Qed.

Lemma LRU_Del_inv o l key e :
  lru_ok zero ro o l → I e.1 → I (Lru.LRU_Del l key e).2.1.
Proof.
  intros Hok HI. destruct e as [s0 w0].
  by rewrite (LRU_Del_eq zero ro o) by done.
Qed.

Lemma wrap_fetch_inv key (fetch : W → (V * option error) * W) links e :
  I e.1 → I (wrap_fetch key fetch links e).2.1.
Proof.
  intros HI. unfold wrap_fetch. destruct (fetch e.2) as [r w1]. simpl.
  destruct links as [|l0 links]; [done|].
  destruct (link e.1) as [g|] eqn:Hg; [|done]. by apply I_Link.
Qed.

Lemma GetLink_inv c now key fetch links w :
  cache_ok zero ro c → I (sh c) → I (sh (GetLink zero c now key fetch links w).1.2).
Proof.
  intros [Hok _] HI. unfold GetLink. destruct (local c) as [l|] eqn:Hl.
  - destruct (lru_ok_shard zero ro (opt c) l key Hok) as (sd & Hx & Hxok).
    unfold Lru.LRU_Get. rewrite Hx.
    pose proof (shard_Get_inv (opt c) sd now key (wrap_fetch key fetch links)
                  (sh c, w) Hxok ltac:(destruct Hok; lia)
                  (wrap_fetch_inv key fetch links) HI) as H1.
    by destruct (Lru.shard_Get _ _ _ _ _ _) as [[r x1] e1].
  - by destruct (fetch w) as [r w1].
Qed.

Lemma del_loop_inv o fuel deleted toDelete l s w :
  lru_ok zero ro o l → sh_ok s → I s →
  I (del_loop ro fuel deleted toDelete l (s, w)).1.2.1.
Proof.
  revert deleted toDelete l s w.
  induction fuel as [|fuel IH]; intros deleted toDelete l s w Hok Hsh HI.
  - by destruct toDelete.
  - destruct toDelete as [|curr toDelete]; [done|].
    destruct (decide (curr ∈ deleted)) as [Hin|Hnin].
    + rewrite del_loop_skip by done. by apply IH.
    + rewrite (del_loop_step zero ro o) by done.
      pose proof (lru_ok_remove_key zero ro o l curr Hok) as Hok1.
      unfold sh_ok in Hsh. destruct (link s) as [g|] eqn:Hg.
      * apply IH; [done|by apply sh_ok_set_link, wf_Del|by apply I_Del].
      * apply IH; [done|by unfold sh_ok; rewrite Hg|done].
Qed.

Lemma del_inv keys c w :
  cache_ok zero ro c → I (sh c) → I (sh (del ro keys c w).1).
Proof.
  intros [Hok Hsh] HI. unfold del. destruct (local c) as [l|]; [|done].
  pose proof (del_loop_inv (opt c) (del_fuel keys (sh c)) ∅ keys l (sh c) w
                Hok Hsh HI) as H1.
  by destruct (del_loop _ _ _ _ _ _) as [[l1 [s1 w1]] rest].
Qed.

Lemma drain_inv c w :
  cache_ok zero ro c → I (sh c) → I (sh (processPendingDeletes_step c w).1).
Proof.
  intros [Hok Hsh] HI. unfold processPendingDeletes_step.
  destruct (local c) as [l|] eqn:Hl; [|done].
  destruct (pendingDel (sh c)) as [|keys rest] eqn:Hpd; [done|].
  pose proof (I_recv (sh c) keys rest HI Hpd) as HI1.
  set (s := {| link := link (sh c); pendingDel := rest; once := once (sh c) |}) in *.
  assert (∀ (st : Lru.LRU V (Env (W := W)) * Env (W := W)),
            lru_ok zero ro (opt c) st.1 → sh_ok st.2.1 → I st.2.1 →
            I (foldl (λ (st : Lru.LRU V Env * Env) key,
                        let '(_, l, e) := Lru.LRU_Del st.1 key st.2 in (l, e))
                     st keys).2.1) as Hfold.
  { clear Hpd. induction keys as [|k keys IH]; intros [l0 e0] Hl0 He0 HI0; [done|].
    cbn [foldl fst snd] in *.
    destruct (LRU_Del_ok zero ro (opt c) l0 k e0 Hl0 He0) as [Hl1 He1].
    pose proof (LRU_Del_inv (opt c) l0 k e0 Hl0 HI0) as HI2.
    destruct (Lru.LRU_Del l0 k e0) as [[ok l1] e1]. by apply IH. }
  specialize (Hfold (l, (s, w)) Hok Hsh HI1).
  by destruct (foldl _ _ keys) as [l' e'].
Qed.

Lemma run_inv (st : cache V W * W) (ops : list (op V W)) :
  cache_ok zero ro st.1 → I (sh st.1) → I (sh (run zero ro st ops).1).
Proof.
  unfold run. revert st. induction ops as [|op ops IH]; intros st Hok HI; [done|].
  cbn [foldl]. apply IH.
  - destruct (run_ok_step st op Hok) as (? & _). done.
  - destruct op as [now key fetch links|keys|keys|]; simpl.
    + by apply GetLink_inv.
    + by apply del_inv.
    + by apply del_inv.
    + by apply drain_inv.
Qed.
End shared_inv.

(** *** The eviction callback, in closed form *)

Lemma link_onEvict key (v : V) e :
  link (onEvict ro key v e).1 =
    match link e.1 with
    | Some g => Some (Link.Del ro g key).2
    | None => None
    end.
Proof.
  unfold onEvict. destruct (link e.1) as [g|] eqn:Hg; [|done].
  destruct (Link.Del ro g key) as [D g1]. simpl.
  repeat case_decide; try done. simpl. unfold try_send. by case_decide.
Qed.

Lemma onEvict_eq key (v : V) e g :
  link e.1 = Some g → Link.wf g →
  let batch := filter (λ k, k ≠ key) (ro (Link.Del ro g key).1) in
  onEvict ro key v e =
    ({| link := Some (Link.Del ro g key).2;
        pendingDel :=
          if decide (batch ≠ [] ∧ (length (pendingDel e.1) < pendingDel_cap)%nat)
          then pendingDel e.1 ++ [batch] else pendingDel e.1;
        once := if decide (batch ≠ []) then true else once e.1 |}, e.2).
Proof.
  intros Hg Hwf batch. subst batch. unfold onEvict. rewrite Hg.
  destruct (Link.Del ro g key) as [D g1] eqn:Hdel. cbn [fst snd].
  apply Del_spec in Hdel as (_ & _ & Hin & _); [|done].
  destruct (decide (0 < size D)%nat) as [_|Hn].
  2:{ exfalso. assert (size D = 0%nat) as Hz by lia.
      apply size_empty_inv in Hz. set_solver. }
  set (batch := filter (λ k, k ≠ key) (ro D)).
  destruct (decide (0 < length batch)%nat) as [Hb|Hb].
  - assert (batch ≠ []) as Hne by (intros E; rewrite E in Hb; simpl in Hb; lia).
    rewrite (decide_True (P := batch ≠ [])) by done.
    unfold try_send, start_once, set_link. simpl.
    destruct (decide (length (pendingDel e.1) < pendingDel_cap)%nat) as [Hr|Hr].
    + by rewrite decide_True.
    + rewrite decide_False by (by intros [_ ?]). done.
  - assert (batch = []) as Hnil by (destruct batch; [done|simpl in Hb; lia]).
    rewrite Hnil. rewrite decide_False by (by intros [? _]).
    by rewrite decide_False by (intros H; by apply H).
Qed.

(** *** The pending-deletion queue *)

Lemma queue_ok_onEvict key (v : V) e : queue_ok e.1 → queue_ok (onEvict ro key v e).1.
Proof.
  intros (Hlen & Hall & Hon). unfold onEvict.
  destruct (link e.1) as [g|]; [|done].
  destruct (Link.Del ro g key) as [D g1].
  destruct (decide (0 < size D)%nat); [|done].
  destruct (decide (0 < length (filter (λ k, k ≠ key) (ro D)))%nat) as [Hk|]; [|done].
  cbn [fst]. unfold try_send, queue_ok. cbn [pendingDel start_once set_link once].
  destruct (decide (length (pendingDel e.1) < pendingDel_cap)%nat) as [Hr|Hr];
    cbn [pendingDel once].
  - split_and!; [rewrite length_app; simpl; lia| |done].
    apply Forall_app. split; [done|]. apply Forall_singleton.
    intros E. rewrite E in Hk. simpl in Hk. lia.
  - by split_and!.
Qed.

Lemma queue_ok_run o w (ops : list (op V W)) :
  queue_ok (sh (run zero ro (New zero ro o, w) ops).1).
Proof.
  apply (run_inv queue_ok).
  - apply queue_ok_onEvict.
  - by intros s g key links ? _.
  - by intros s g key ? _.
  - intros s keys rest (Hlen & Hall & Hon) Hpd. unfold queue_ok. simpl.
    rewrite Hpd in Hlen, Hall, Hon. simpl in Hlen.
    split_and!; [lia|by apply Forall_cons in Hall as [_ ?]|].
    intros _. by apply Hon.
  - apply New_ok.
  - simpl. unfold New.
    assert (queue_ok {| link := None; pendingDel := []; once := false |}) as H0
      by (split_and!; simpl; [lia|constructor|done]).
    destruct (decide (0 < localSlotNum o ∧ 0 < localSlotSize o)); [|done]. simpl.
    destruct (decide (0 < linkSlotNum o)); [|done].
    split_and!; simpl; [lia|constructor|done].
Qed.

(** *** The linkage graph of the cache stays a graph of [Link] *)

Lemma graph_ok_run o w (ops : list (op V W)) :
  match link (sh (run zero ro (New zero ro o, w) ops).1) with
  | Some g => Link.wf g ∧ Link.symmetric g ∧ Link.placed g
  | None => True
  end.
Proof.
  apply (run_inv (λ s, match link s with
                       | Some g => Link.wf g ∧ Link.symmetric g ∧ Link.placed g
                       | None => True
                       end)).
  - intros key v e. rewrite link_onEvict. destruct (link e.1) as [g|]; [|done].
    intros (Hwf & Hsym & Hpl).
    split_and!; [by apply wf_Del|by apply symmetric_Del|by apply placed_Del].
  - intros s g key links. intros HI Hg. rewrite Hg in HI. simpl.
    destruct HI as (Hwf & Hsym & Hpl).
    split_and!; [by apply wf_Link|by apply symmetric_Link|by apply placed_Link].
  - intros s g key. intros HI Hg. rewrite Hg in HI. simpl.
    destruct HI as (Hwf & Hsym & Hpl).
    split_and!; [by apply wf_Del|by apply symmetric_Del|by apply placed_Del].
  - by intros s keys rest HI _.
  - apply New_ok.
  - simpl. unfold New.
    destruct (decide (0 < localSlotNum o ∧ 0 < localSlotSize o)); [|done]. simpl.
    destruct (decide (0 < linkSlotNum o)); [|done]. simpl.
    destruct (Link.New (linkSlotNum o)) as [g|] eqn:Hnew; [|done].
    split_and!; [by eapply wf_New| |by eapply placed_New].
    intros k1 k2. by rewrite !(adj_New _ g) by done.
Qed.

(** *** The drain *)

(** What [lru.LRU.Del] leaves of the shard LRU. *)
Lemma LRU_Del_local o l key e :
  lru_ok zero ro o l → (Lru.LRU_Del l key e).1.2 = Lru.remove_key l key.
Proof.
  intros Hok. destruct e as [s0 w0]. by rewrite (LRU_Del_eq zero ro o) by done.
Qed.

Lemma drain_fold_local o keys l e :
  lru_ok zero ro o l →
  (foldl (λ (st : Lru.LRU V (Env (W := W)) * Env (W := W)) key,
            let '(_, l, e) := Lru.LRU_Del st.1 key st.2 in (l, e))
         (l, e) keys).1 = foldl Lru.remove_key l keys.
Proof.
  revert l e. induction keys as [|k keys IH]; intros l e Hok; [done|].
  cbn [foldl fst snd].
  pose proof (LRU_Del_local o l k e Hok) as Hl.
  destruct (Lru.LRU_Del l k e) as [[ok l1] e1]. simpl in Hl. subst l1.
  apply IH. by apply lru_ok_remove_key.
Qed.

Lemma lookup_foldl_remove_key keys l k :
  Lru.lookup zero (foldl Lru.remove_key l keys) k =
    (if decide (k ∈ keys) then None else Lru.lookup zero l k) ∧
  Lru.cached zero (foldl Lru.remove_key l keys) k =
    (if decide (k ∈ keys) then None else Lru.cached zero l k).
Proof.
  revert l. induction keys as [|a keys IH]; intros l; cbn [foldl].
  - by destruct (decide (k ∈ [])) as [?%elem_of_nil|].
  - destruct (IH (Lru.remove_key l a)) as [-> ->].
    rewrite lookup_remove_key, cached_remove_key.
    repeat case_decide; subst; try done; exfalso; set_solver.
Qed.

(** *** [GetLink] on a cold key: the shared fields afterwards *)

Lemma GetLink_miss_shared c l now key (fetch : W → (V * option error) * W) links w g :
  local c = Some l → lru_ok zero ro (opt c) l →
  link (sh c) = Some g → Link.wf g → Lru.lookup zero l key = None →
  ∃ s1 g1, link s1 = Some g1 ∧ Link.wf g1 ∧
    sh (GetLink zero c now key fetch links w).1.2 =
      match links with
      | [] => s1
      | _ :: _ => set_link s1 (Link.Link g1 key links)
      end.
Proof.
  intros Hl Hok Hg Hwf Hk.
  destruct (lru_ok_shard zero ro (opt c) l key Hok) as (sd & Hx & Hxok).
  assert (Lru.peek zero sd key = None) as Hf.
  { unfold Lru.lookup in Hk. by rewrite Hx in Hk. }
  destruct (shard_Get_cold zero ro (opt c) sd now key (wrap_fetch key fetch links)
              (sh c, w) Hxok Hf ltac:(destruct Hok; lia))
    as (e1 & sd' & He1 & _ & Hget & _).
  assert (e1.2 = w ∧ ∃ g1, link e1.1 = Some g1 ∧ Link.wf g1) as (Hw1 & g1 & Hg1 & Hwf1).
  { destruct He1 as [->|(k & v & ->)]; [by eauto|].
    rewrite onEvict_snd, link_onEvict. simpl. rewrite Hg.
    split; [done|]. eexists. split; [done|]. by apply wf_Del. }
  exists e1.1, g1. split_and!; [done..|].
  unfold GetLink, Lru.LRU_Get. rewrite Hl, Hx. cbn zeta in Hget. rewrite Hget.
  clear Hget. unfold wrap_fetch. rewrite Hw1, Hg1.
  destruct (fetch w) as [[v er] w']. cbn [fst snd].
  by destruct links.
Qed.

(** *** States reached from [New] *)

Lemma run_ok (st : cache V W * W) (ops : list (op V W)) :
  cache_ok zero ro st.1 →
  cache_ok zero ro (run zero ro st ops).1 ∧ opt (run zero ro st ops).1 = opt st.1 ∧
  (is_Some (local st.1) → is_Some (local (run zero ro st ops).1)).
Proof.
  unfold run. revert st. induction ops as [|op ops IH]; intros st Hok; [done|].
  cbn [foldl]. destruct (run_ok_step st op Hok) as (Hok1 & Ho1 & Hl1).
  destruct (IH _ Hok1) as (Hok2 & Ho2 & Hl2).
  split_and!; [done|congruence|auto].
Qed.

End cache_more.

(** ** The coordinator: further properties *)

(** X17.  A cache built without a local cache (a shard count or a shard
    capacity that is not positive) is a pass-through: it has no linkage
    graph either, [GetLink] returns what the fetcher returns, [DelLocal]
    and the drain do nothing, and [Del] only runs the pre-delete hooks;
    the cache stays as [New] built it. *)
Theorem disabled_cache_is_passthrough {V W : Type} (zero : V) (ro : RangeOrder)
    (o : Localcache.option_ W) (now : Z) (key : string)
    (fetch : W → (V * option error) * W) (links keys : list string) (w : W) :
  ¬ (0 < Localcache.localSlotNum o ∧ 0 < Localcache.localSlotSize o) →
  let c := Localcache.New zero ro o in
  Localcache.link (Localcache.sh c) = None ∧
  Localcache.GetLink zero c now key fetch links w = ((fetch w).1, c, (fetch w).2) ∧
  Localcache.DelLocal ro keys c w = (c, w) ∧
  Localcache.Del ro keys c w = (c, foldl (λ w fn, fn keys w) w (Localcache.delFn o)) ∧
  Localcache.processPendingDeletes_step c w = (c, w).
Proof.
  intros Hoff c. subst c. unfold Localcache.New. rewrite decide_False by done.
  unfold Localcache.GetLink, Localcache.DelLocal, Localcache.Del, Localcache.del. simpl.
  split_and!; try done. by destruct (fetch w) as [[v e] w'].
Qed.

Lemma disabled_cache_is_passthrough_witness :
  let c := Localcache.New EmptyString elements_order (Examples.opts 0 10) in
  Localcache.link (Localcache.sh c) = None ∧
  Localcache.GetLink EmptyString c 0 "k" (Examples.fetch_ok "v") ["l"] Examples.w0 =
    ((Examples.fetch_ok "v" Examples.w0).1, c, (Examples.fetch_ok "v" Examples.w0).2) ∧
  Localcache.DelLocal elements_order ["k"] c Examples.w0 = (c, Examples.w0) ∧
  Localcache.Del elements_order ["k"] c Examples.w0 =
    (c, foldl (λ w fn, fn ["k"] w) Examples.w0 (Localcache.delFn (Examples.opts 0 10))) ∧
  Localcache.processPendingDeletes_step c Examples.w0 = (c, Examples.w0).
Proof.
  apply (disabled_cache_is_passthrough EmptyString elements_order (Examples.opts 0 10)
           0 "k" (Examples.fetch_ok "v") ["l"] ["k"] Examples.w0).
  simpl. lia.
Defined.



(** X19.  The loop of [cache.del] ends: it empties its queue within one
    iteration per key of the batch and per stored neighbour of the
    linkage graph, and a larger bound on the iterations gives the same
    result. *)
Theorem del_terminates {V W : Type} (zero : V) (ro : RangeOrder)
    (o : Localcache.option_ W) (keys : list string)
    (l : Lru.LRU V (Localcache.Env (W := W))) (s : Localcache.shared) (w : W)
    (fuel : nat) :
  Localcache.lru_ok zero ro o l → Localcache.sh_ok s →
  (Localcache.del_fuel keys s ≤ fuel)%nat →
  (Localcache.del_loop ro fuel ∅ keys l (s, w)).2 = [] ∧
  Localcache.del_loop ro fuel ∅ keys l (s, w) =
    Localcache.del_loop ro (Localcache.del_fuel keys s) ∅ keys l (s, w).
Proof.
  intros Hok Hsh Hfuel.
  assert (length keys + Localcache.gweight s ≤ Localcache.del_fuel keys s)%nat as Hm
    by (unfold Localcache.del_fuel, Localcache.gweight; lia).
  rewrite (del_loop_fuel zero ro o (Localcache.del_fuel keys s) fuel) by done.
  split; [|done]. by eapply del_loop_terminates.
Qed.

Lemma del_terminates_witness :
  let s := {| Localcache.link := Some Examples.graph_abc; Localcache.pendingDel := [];
              Localcache.once := false |} in
  (Localcache.del_loop elements_order 100 ∅ ["a"; "x"] Examples.lru_abcd
     (s, Examples.w0)).2 = [] ∧
  Localcache.del_loop elements_order 100 ∅ ["a"; "x"] Examples.lru_abcd (s, Examples.w0) =
    Localcache.del_loop elements_order (Localcache.del_fuel ["a"; "x"] s) ∅ ["a"; "x"]
      Examples.lru_abcd (s, Examples.w0).
Proof.
  apply (del_terminates EmptyString elements_order (Examples.opts 3 10)).
  - apply lru_abcd_ok.
  - split; reflexivity.
  - vm_compute. lia.
Defined.

(** X20.  [del] removes exactly what the batch reaches.  On a cache with
    a local cache, every key that a key of the batch reaches in the
    linkage graph loses its entry and its adjacency entry, and every
    other key keeps its entry, its item and its adjacency entry. *)
Theorem del_removes_exactly_reachable {V W : Type} (zero : V) (ro : RangeOrder)
    (keys : list string) (c : Localcache.cache V W) (w : W) :
  Localcache.cache_ok zero ro c → is_Some (Localcache.local c) →
  let r := Localcache.del ro keys c w in
  (∀ k, Localcache.reaches (Localcache.sh c) keys k →
        Localcache.lookup zero r.1 k = None ∧ Localcache.glookup (Localcache.sh r.1) k = None) ∧
  (∀ k, ¬ Localcache.reaches (Localcache.sh c) keys k →
        Localcache.lookup zero r.1 k = Localcache.lookup zero c k ∧
        Localcache.cached zero r.1 k = Localcache.cached zero c k ∧
        Localcache.glookup (Localcache.sh r.1) k = Localcache.glookup (Localcache.sh c) k).
Proof.
  intros [Hok Hsh] [l Hl] r. subst r. rewrite Hl in Hok.
  unfold Localcache.del, Localcache.lookup, Localcache.cached. rewrite Hl.
  pose proof (del_loop_terminates zero ro (Localcache.opt c)
                (Localcache.del_fuel keys (Localcache.sh c)) ∅ keys l
                (Localcache.sh c) w Hok Hsh) as Hterm.
  destruct (Localcache.del_loop _ _ _ _ _ _) as [[l' [s' w']] rest] eqn:Hrun.
  simpl in Hterm. rewrite Hterm in Hrun
    by (unfold Localcache.del_fuel, Localcache.gweight; lia).
  simpl. split; intros k Hk.
  - eapply del_loop_closure; [exact Hok|exact Hsh| |exact Hrun|exact Hk]. set_solver.
  - by eapply del_loop_frame.
Qed.

Lemma del_removes_exactly_reachable_witness :
  let r := Localcache.del elements_order ["a"] Examples.cache_ab_linked Examples.w0 in
  (∀ k, Localcache.reaches (Localcache.sh Examples.cache_ab_linked) ["a"] k →
        Localcache.lookup EmptyString r.1 k = None ∧
        Localcache.glookup (Localcache.sh r.1) k = None) ∧
  (∀ k, ¬ Localcache.reaches (Localcache.sh Examples.cache_ab_linked) ["a"] k →
        Localcache.lookup EmptyString r.1 k =
          Localcache.lookup EmptyString Examples.cache_ab_linked k ∧
        Localcache.cached EmptyString r.1 k =
          Localcache.cached EmptyString Examples.cache_ab_linked k ∧
        Localcache.glookup (Localcache.sh r.1) k =
          Localcache.glookup (Localcache.sh Examples.cache_ab_linked) k).
Proof.
  apply (del_removes_exactly_reachable EmptyString elements_order ["a"]
           Examples.cache_ab_linked Examples.w0); apply cache_ab_linked_ok.
Defined.

(** X21.  The pending-deletion queue stays within the capacity of the
    channel.  After every sequence of [GetLink], [Del], [DelLocal] and
    drain steps on a cache that [New] built, the queue holds at most 100
    batches, none of them empty, and the drain goroutine has been started
    whenever a batch is queued. *)
Theorem pending_queue_bounded {V W : Type} (zero : V) (ro : RangeOrder)
    (o : Localcache.option_ W) (w : W) (ops : list (Localcache.op V W)) :
  let s := Localcache.sh (Localcache.run zero ro (Localcache.New zero ro o, w) ops).1 in
  (length (Localcache.pendingDel s) ≤ 100)%nat ∧
  Forall (λ keys, keys ≠ []) (Localcache.pendingDel s) ∧
  (Localcache.pendingDel s ≠ [] → Localcache.once s = true).
Proof. intros s. exact (queue_ok_run zero ro o w ops). Qed.

(** X22.  The linkage graph of the cache stays a well-formed, symmetric
    graph with every entry in its shard, after every sequence of
    operations on a cache that [New] built: the coordinator changes it
    through [Link] and [Del] only. *)
Theorem cache_graph_stays_symmetric {V W : Type} (zero : V) (ro : RangeOrder)
    (o : Localcache.option_ W) (w : W) (ops : list (Localcache.op V W)) :
  match Localcache.link
          (Localcache.sh (Localcache.run zero ro (Localcache.New zero ro o, w) ops).1) with
  | Some g => Link.wf g ∧ Link.symmetric g ∧ Link.placed g
  | None => True
  end.
Proof. exact (graph_ok_run zero ro o w ops). Qed.

(** X23.  The eviction callback.  With linkage enabled, [onEvict(key)]
    takes out of the graph every key that [key] reaches; the batch it
    sends holds these keys without [key] itself; the batch is queued when
    it is not empty and the queue has room, and dropped when the queue is
    full, the links being removed all the same; the drain goroutine is
    started when the batch is not empty.  The state of the caller is not
    touched. *)
Theorem onEvict_effect {V W : Type} (ro : RangeOrder) (key : string) (v : V)
    (e : Localcache.Env (W := W)) (g : Link.slot) :
  Localcache.link e.1 = Some g → Link.wf g →
  let batch := filter (λ k, k ≠ key) (ro (Link.Del ro g key).1) in
  Localcache.onEvict ro key v e =
    ({| Localcache.link := Some (Link.Del ro g key).2;
        Localcache.pendingDel :=
          if decide (batch ≠ [] ∧
                     (length (Localcache.pendingDel e.1) < Localcache.pendingDel_cap)%nat)
          then Localcache.pendingDel e.1 ++ [batch] else Localcache.pendingDel e.1;
        Localcache.once := if decide (batch ≠ []) then true else Localcache.once e.1 |},
     e.2) ∧
  ∀ k, k ∈ batch ↔ k ≠ key ∧ rtc (Link.edge g) key k.
Proof.
  intros Hg Hwf batch. split; [by apply onEvict_eq|].
  intros k. subst batch. rewrite list_elem_of_filter, elem_of_range.
  by rewrite Del_reach.
Qed.

Lemma onEvict_effect_witness :
  let e := ({| Localcache.link := Some Examples.graph_abc; Localcache.pendingDel := [];
               Localcache.once := false |}, Examples.w0) in
  let batch := filter (λ k, k ≠ "a")
                 (elements_order (Link.Del elements_order Examples.graph_abc "a").1) in
  Localcache.onEvict elements_order "a" "va" e =
    ({| Localcache.link := Some (Link.Del elements_order Examples.graph_abc "a").2;
        Localcache.pendingDel :=
          if decide (batch ≠ [] ∧
                     (length (Localcache.pendingDel e.1) < Localcache.pendingDel_cap)%nat)
          then Localcache.pendingDel e.1 ++ [batch] else Localcache.pendingDel e.1;
        Localcache.once := if decide (batch ≠ []) then true else Localcache.once e.1 |},
     e.2) ∧
  ∀ k, k ∈ batch ↔ k ≠ "a" ∧ rtc (Link.edge Examples.graph_abc) "a" k.
Proof.
  apply (onEvict_effect elements_order "a" "va"
           ({| Localcache.link := Some Examples.graph_abc; Localcache.pendingDel := [];
               Localcache.once := false |}, Examples.w0) Examples.graph_abc).
  - reflexivity.
  - split; reflexivity.
Defined.

(** X24.  A drain step.  Receiving the oldest batch removes every key
    of the batch from the shard LRU and no other key: a key of the batch
    has no entry afterwards, and every other key keeps its entry and its
    item. *)
Theorem drain_removes_batch {V W : Type} (zero : V) (ro : RangeOrder)
    (c : Localcache.cache V W) (w : W) (keys : list string) (rest : list (list string)) :
  Localcache.cache_ok zero ro c → is_Some (Localcache.local c) →
  Localcache.pendingDel (Localcache.sh c) = keys :: rest →
  let r := Localcache.processPendingDeletes_step c w in
  Localcache.opt r.1 = Localcache.opt c ∧
  ∀ k, Localcache.lookup zero r.1 k =
         (if decide (k ∈ keys) then None else Localcache.lookup zero c k) ∧
       Localcache.cached zero r.1 k =
         (if decide (k ∈ keys) then None else Localcache.cached zero c k).
Proof.
  intros [Hok Hsh] [l Hl] Hpd r. subst r. rewrite Hl in Hok.
  unfold Localcache.processPendingDeletes_step, Localcache.lookup, Localcache.cached.
  rewrite Hl, Hpd.
  pose proof (drain_fold_local zero ro (Localcache.opt c) keys l
                ({| Localcache.link := Localcache.link (Localcache.sh c);
                    Localcache.pendingDel := rest;
                    Localcache.once := Localcache.once (Localcache.sh c) |}, w) Hok) as Hf.
  destruct (foldl _ _ keys) as [l' e']. simpl in Hf. subst l'. simpl.
  split; [done|]. intros k. apply lookup_foldl_remove_key.
Qed.

Lemma drain_removes_batch_witness :
  let c := {| Localcache.opt := Examples.opts 3 10;
              Localcache.local := Some Examples.lru_abcd;
              Localcache.sh := {| Localcache.link := Some Examples.graph0;
                                  Localcache.pendingDel := [["a"; "b"]; ["c"]];
                                  Localcache.once := true |} |} in
  let r := Localcache.processPendingDeletes_step c Examples.w0 in
  Localcache.opt r.1 = Localcache.opt c ∧
  ∀ k, Localcache.lookup EmptyString r.1 k =
         (if decide (k ∈ ["a"; "b"]) then None else Localcache.lookup EmptyString c k) ∧
       Localcache.cached EmptyString r.1 k =
         (if decide (k ∈ ["a"; "b"]) then None else Localcache.cached EmptyString c k).
Proof.
  apply (drain_removes_batch EmptyString elements_order
           {| Localcache.opt := Examples.opts 3 10;
              Localcache.local := Some Examples.lru_abcd;
              Localcache.sh := {| Localcache.link := Some Examples.graph0;
                                  Localcache.pendingDel := [["a"; "b"]; ["c"]];
                                  Localcache.once := true |} |}
           Examples.w0 ["a"; "b"] [["c"]]).
  - split; [apply lru_abcd_ok|split; reflexivity].
  - by eexists.
  - reflexivity.
Defined.

(** X26.  A successful fetch registers its links.  With linkage enabled,
    after a [GetLink(key, links)] of a cold key whose fetcher succeeds,
    every link is a neighbour of [key] and [key] is a neighbour of every
    link. *)
Theorem GetLink_registers_links {V W : Type} (zero : V) (ro : RangeOrder)
    (c : Localcache.cache V W) (now : Z) (key : string)
    (fetch : W → (V * option error) * W) (links : list string) (w : W) :
  Localcache.cache_ok zero ro c → is_Some (Localcache.local c) →
  is_Some (Localcache.link (Localcache.sh c)) →
  Localcache.lookup zero c key = None →
  (fetch w).1.2 = None →
  let r := Localcache.GetLink zero c now key fetch links w in
  ∀ k, k ∈ links →
       Localcache.gedge (Localcache.sh r.1.2) key k ∧
       Localcache.gedge (Localcache.sh r.1.2) k key.
Proof.
  intros [Hok Hsh] [l Hl] [g Hg] Hk Hm r k Hin. subst r. rewrite Hl in Hok.
  assert (Lru.lookup zero l key = None) as Hk'.
  { unfold Localcache.lookup in Hk. by rewrite Hl in Hk. }
  assert (Link.wf g) as Hwf by (unfold Localcache.sh_ok in Hsh; by rewrite Hg in Hsh).
  destruct (GetLink_miss_shared zero ro c l now key fetch links w g Hl Hok Hg Hwf Hk')
    as (s1 & g1 & Hg1 & Hwf1 & Hshared).
  rewrite Hshared.
  destruct links as [|l0 links]; [by apply elem_of_nil in Hin|].
  rewrite !(gedge_link _ (Link.Link g1 key (l0 :: links))) by done.
  unfold Link.edge. rewrite !adj_Link by done.
  rewrite (decide_True (P := key = key)) by done.
  rewrite (decide_True (P := k ∈ l0 :: links)) by done.
  split; set_solver.
Qed.

Lemma GetLink_registers_links_witness :
  let r := Localcache.GetLink EmptyString (Examples.new_cache 3 10) 0 "a"
             (Examples.fetch_ok "va") ["b"; "c"] Examples.w0 in
  Localcache.gedge (Localcache.sh r.1.2) "a" "c" ∧
  Localcache.gedge (Localcache.sh r.1.2) "c" "a".
Proof.
  apply (GetLink_registers_links EmptyString elements_order (Examples.new_cache 3 10)
           0 "a" (Examples.fetch_ok "va") ["b"; "c"] Examples.w0).
  - apply new_cache_ok.
  - apply new_cache_ok.
  - by eexists.
  - reflexivity.
  - reflexivity.
  - set_solver.
Defined.

(** X27.  A hit ignores the links.  A [GetLink(key, links)] of a key
    whose entry has not passed its deadline does not run the fetcher and
    leaves the linkage graph and the pending deletions as they are: the
    links are registered only when the fetcher runs. *)
Theorem GetLink_hit_ignores_links {V W : Type} (zero : V) (ro : RangeOrder)
    (c : Localcache.cache V W) (now : Z) (key : string)
    (fetch : W → (V * option error) * W) (links : list string) (w : W) :
  Localcache.cache_ok zero ro c →
  (∃ en, Localcache.lookup zero c key = Some en ∧ now ≤ Lru.s_deadline en) →
  let r := Localcache.GetLink zero c now key fetch links w in
  Localcache.sh r.1.2 = Localcache.sh c ∧
  r.2 = Lru.IncrGetHit (Localcache.target (Localcache.opt c)) w ∧
  ∀ k, Localcache.lookup zero r.1.2 k = Localcache.lookup zero c k.
Proof.
  intros [Hok Hsh] (en & Hen & Hnow) r. subst r.
  unfold Localcache.lookup in Hen.
  destruct (Localcache.local c) as [l|] eqn:Hl; [|done]. simpl in Hen.
  destruct (GetLink_hit zero ro c l now key fetch links w en Hl Hok Hen Hnow)
    as (_ & Hw & _ & Hs & _ & Hsame).
  split_and!; [done..|]. intros k. by destruct (Hsame k).
Qed.

Lemma GetLink_hit_ignores_links_witness :
  let r := Localcache.GetLink EmptyString Examples.cache_ab_linked 10 "b"
             (Examples.fetch_ok "other") ["z"] Examples.w0 in
  Localcache.sh r.1.2 = Localcache.sh Examples.cache_ab_linked ∧
  r.2 = Lru.IncrGetHit (Localcache.target (Localcache.opt Examples.cache_ab_linked))
          Examples.w0 ∧
  ∀ k, Localcache.lookup EmptyString r.1.2 k =
       Localcache.lookup EmptyString Examples.cache_ab_linked k.
Proof.
  apply (GetLink_hit_ignores_links EmptyString elements_order Examples.cache_ab_linked
           10 "b" (Examples.fetch_ok "other") ["z"] Examples.w0).
  - apply cache_ab_linked_ok.
  - eexists. split; [vm_compute; reflexivity|]. simpl. lia.
Defined.
